(** * diagram-lit-element: the sketchy path engine

    A shallow embedding of the path utilities of the repository:

    - [cubicBezierPoint], [splitCubicBezier]  (De Casteljau evaluation, subdivision)
    - [lineToBezier]                          (src/utils/lineToBesier.ts)
    - [arcToCubicBeziers]                     (elliptical arc to cubic segments)
    - [distortPath], [makeDraftyPath]         (src/utils/distortSVG.ts)

    Numbers are JavaScript Numbers: IEEE 754 binary64 values, here Rocq's
    primitive [float].  Strings are sequences of 8-bit code units.  The
    run-time library the code calls ([parseFloat], Number-to-string
    conversion, [String.prototype.trim], [split], [Math.ceil], ...) is modelled
    in the modules [Str] and [Num] after ECMAScript; the functions ECMAScript
    leaves implementation-approximated ([Math.sin], [Math.cos], [Math.tan],
    [Math.atan2], [Math.sqrt], [**]) are the fields of the class [MathImpl],
    and [RefMath] is one implementation of it that computes.  [Math.random]
    is an oracle: the sequence of the values it returns, read through a
    counter that the code threads.

    Where a statement compares the numbers that the code computes with the
    exact ones, these are rationals: [F2Q] is the value of a binary64 number
    and [curveAt] the curve in exact arithmetic. *)

From Stdlib Require Import ZArith List String Ascii Bool Lia DecimalString.
From Stdlib Require Import PrimFloat SpecFloat FloatOps FloatAxioms.
From Stdlib Require Import QArith Qabs Qpower Lqa.
From stdpp Require Import gmap strings list fin_maps.

Set Warnings "-inexact-float".

(* ===================================================================== *)
(** * Strings: the String methods and regular expressions the code uses  *)
(* ===================================================================== *)

Module Str.

(** [a-zA-Z] *)
Definition is_letter (c : ascii) : bool :=
  let n := nat_of_ascii c in
  ((65 <=? n) && (n <=? 90)) || ((97 <=? n) && (n <=? 122)).

(** [0-9] *)
Definition is_digit (c : ascii) : bool :=
  let n := nat_of_ascii c in (48 <=? n) && (n <=? 57).

(** White space and line terminators among the 8-bit code units: what [\s]
    matches and what [trim] and [parseFloat] strip (TAB, LF, VT, FF, CR,
    SPACE, NBSP). *)
Definition is_space (c : ascii) : bool :=
  let n := nat_of_ascii c in
  ((9 <=? n) && (n <=? 13)) || (n =? 32) || (n =? 160).

(** [\s,] *)
Definition is_separator (c : ascii) : bool :=
  is_space c || Ascii.eqb c ",".

(** [c.toUpperCase()] for one code unit (ASCII letters; the other 8-bit code
    units are never command letters, see [is_letter]). *)
Definition toUpperCase (c : ascii) : ascii :=
  let n := nat_of_ascii c in
  if (97 <=? n) && (n <=? 122) then ascii_of_nat (n - 32) else c.

Fixpoint trim_start (s : string) : string :=
  match s with
  | String c r => if is_space c then trim_start r else s
  | EmptyString => EmptyString
  end.

Fixpoint trim_end (s : string) : string :=
  match s with
  | EmptyString => EmptyString
  | String c r =>
      match trim_end r with
      | EmptyString => if is_space c then EmptyString else String c EmptyString
      | r' => String c r'
      end
  end.

(** [s.trim()] *)
Definition trim (s : string) : string := trim_end (trim_start s).

(** [s.split(/[\s,]+/)]: the pieces between maximal runs of separators.  A
    separator run at the start or at the end leaves an empty piece there, and
    the empty string splits into one empty piece.  [cur] is the piece being
    read, [in_sep] tells that the previous code unit was a
    separator. *)
Fixpoint split_go (s : string) (cur : string) (in_sep : bool) : list string :=
  match s with
  | EmptyString => [cur]
  | String c r =>
      if is_separator c
      then (if in_sep then split_go r cur true
            else cur :: split_go r EmptyString true)
      else split_go r (cur +:+ String c EmptyString) false
  end.

Definition split (s : string) : list string := split_go s EmptyString false.

(** The run of non-letters at the start of [s]: what the second group of
    the command pattern, zero or more of [^a-zA-Z], matches there. *)
Fixpoint non_letters (s : string) : string :=
  match s with
  | String c r => if is_letter c then EmptyString else String c (non_letters r)
  | EmptyString => EmptyString
  end.

(** All matches in [s] of the global command pattern
    (a letter [a-zA-Z], then zero or more non-letters), in order, as the
    repeated [exec] of the source finds them: each letter together with the
    run of non-letters after it (code units before the first letter match
    nothing). *)
Fixpoint matches (s : string) : list (ascii * string) :=
  match s with
  | EmptyString => []
  | String c r =>
      if is_letter c then (c, non_letters r) :: matches r else matches r
  end.

Fixpoint take (n : nat) (s : string) : string :=
  match n, s with
  | S n', String c r => String c (take n' r)
  | _, _ => EmptyString
  end.

Fixpoint drop (n : nat) (s : string) : string :=
  match n, s with
  | S n', String c r => drop n' r
  | _, _ => s
  end.

Fixpoint concat (l : list string) : string :=
  match l with
  | [] => EmptyString
  | s :: r => s +:+ concat r
  end.

End Str.

(* ===================================================================== *)
(** * Numbers: binary64 values and their conversions                     *)
(* ===================================================================== *)

Module Num.
Local Open Scope Z_scope.

(** The binary64 value nearest to [m * 2^e], ties to even. *)
Definition of_dyadic (m e : Z) : float :=
  SF2Prim (binary_normalize prec emax m e false).

Definition of_Z (z : Z) : float := of_dyadic z 0.
Definition of_nat (n : nat) : float := of_Z (Z.of_nat n).

(** The binary64 value nearest to the rational [n / d], for [d > 0].  The
    quotient is cut after at least 64 significant bits with a sticky last
    bit, so the one rounding of [of_dyadic] is the rounding of [n / d]. *)
Definition of_ratio (n d : Z) : float :=
  if n =? 0 then PrimFloat.zero else
  let k := Z.max 0 (Z.log2 d - Z.log2 (Z.abs n) + 64) in
  let q := Z.abs n * 2 ^ k / d in
  let r := (Z.abs n * 2 ^ k) mod d in
  let m := 2 * q + (if r =? 0 then 0 else 1) in
  of_dyadic (if n <? 0 then - m else m) (- k - 1).

Definition isNaN (x : float) : bool := PrimFloat.is_nan x.

(** ** Number to string *)

Definition decimal (z : Z) : string :=
  NilZero.string_of_uint (N.to_uint (Z.to_N z)).

Fixpoint zeros (n : nat) : string :=
  match n with O => EmptyString | S n' => String "0" (zeros n') end.

Fixpoint strip_zeros (s : string) : string :=
  match s with
  | EmptyString => EmptyString
  | String c r =>
      match strip_zeros r with
      | EmptyString => if Ascii.eqb c "0" then EmptyString else String c EmptyString
      | r' => String c r'
      end
  end.

Section Shortest.
(** The positive value is [v * 2^e2]; the reals that round to it lie between
    [lo * 2^e2] and [hi * 2^e2], the two bounds included iff [incl]. *)
Variables (v lo hi e2 : Z) (incl : bool).

Definition den : Z := if 0 <=? e2 then 1 else 2 ^ (- e2).
Definition num (x : Z) : Z := if 0 <=? e2 then x * 2 ^ e2 else x.

(** [s * 10^q] is compared with [x * 2^e2] as [s * sA q] with [num x * sB q]. *)
Definition sA (q : Z) : Z := if 0 <=? q then den * 10 ^ q else den.
Definition sB (q : Z) : Z := if 0 <=? q then 1 else 10 ^ (- q).

Definition within (a b : Z) : bool := if incl then a <=? b else a <? b.

(** The multiples of [10^q] next to the value on either side; of those that
    round to the value, the nearer one (the even one when equally near). *)
Definition candidate (q : Z) : option Z :=
  let a := sA q in
  let b := sB q in
  let s_lo := num v * b / a in
  let s_hi := s_lo + 1 in
  let lo_ok := (0 <? s_lo) && within (num lo * b) (s_lo * a) in
  let hi_ok := within (s_hi * a) (num hi * b) in
  match lo_ok, hi_ok with
  | true, true =>
      let d_lo := num v * b - s_lo * a in
      let d_hi := s_hi * a - num v * b in
      Some (if d_lo <? d_hi then s_lo
            else if d_hi <? d_lo then s_hi
            else if Z.even s_lo then s_lo else s_hi)
  | true, false => Some s_lo
  | false, true => Some s_hi
  | false, false => None
  end.

(** The least [n] at or above the starting one with [value < 10^n]. *)
Fixpoint magnitude (fuel : nat) (n : Z) : Z :=
  match fuel with
  | O => n
  | S fuel' => if num v * sB n <? sA n then n else magnitude fuel' (n + 1)
  end.

(** The shortest digit string: [k] digits are tried for [k = 1, 2, ...];
    seventeen always suffice for a binary64 value. *)
Fixpoint shortest (fuel : nat) (n0 k : Z) : Z * Z :=
  match fuel with
  | O => (num v * sB (n0 - k) / sA (n0 - k), n0 - k)
  | S fuel' =>
      match candidate (n0 - k) with
      | Some s => (s, n0 - k)
      | None => shortest fuel' n0 (k + 1)
      end
  end.
End Shortest.

(** The layout of Number::toString for the digits [ds] of a value
    [0.ds * 10^n]. *)
Definition format_digits (ds : string) (n : Z) : string :=
  let k := Z.of_nat (String.length ds) in
  if (k <=? n) && (n <=? 21) then ds +:+ zeros (Z.to_nat (n - k))
  else if (0 <? n) && (n <=? 21) then
    Str.take (Z.to_nat n) ds +:+ "." +:+ Str.drop (Z.to_nat n) ds
  else if (-6 <? n) && (n <=? 0) then "0." +:+ zeros (Z.to_nat (- n)) +:+ ds
  else
    let ex := n - 1 in
    let sg := if 0 <=? ex then "+" else "-" in
    if k =? 1 then ds +:+ "e" +:+ sg +:+ decimal (Z.abs ex)
    else Str.take 1 ds +:+ "." +:+ Str.drop 1 ds +:+ "e" +:+ sg +:+ decimal (Z.abs ex).

Definition positive_toString (m : positive) (e : Z) : string :=
  let v := 4 * Z.pos m in
  let hi := v + 2 in
  let lo := if (Z.pos m =? 2 ^ 52) && (-1074 <? e) then v - 1 else v - 2 in
  let e2 := e - 2 in
  let est := (Z.log2 (Z.pos m) + e) * 30103 / 100000 - 1 in
  let n0 := magnitude v e2 8 est in
  let '(s, q) := shortest v lo hi e2 (Z.even (Z.pos m)) 20 n0 1 in
  let ds := decimal s in
  format_digits (strip_zeros ds) (q + Z.of_nat (String.length ds)).

(** [String(x)], the conversion a template literal [`${x}`] applies to a
    Number (ECMAScript, Number::toString with radix 10). *)
Definition toString (x : float) : string :=
  match Prim2SF x with
  | S754_nan => "NaN"
  | S754_zero _ => "0"
  | S754_infinity s => if s then "-Infinity" else "Infinity"
  | S754_finite s m e => (if s then "-" else "") +:+ positive_toString m e
  end.

(** ** String to number *)

Fixpoint digits_prefix (s : string) : string :=
  match s with
  | String c r => if Str.is_digit c then String c (digits_prefix r) else EmptyString
  | EmptyString => EmptyString
  end.

Fixpoint digits_value (s : string) (acc : Z) : Z :=
  match s with
  | String c r => digits_value r (10 * acc + (Z.of_nat (nat_of_ascii c) - 48))
  | EmptyString => acc
  end.

Definition after (n : string) (s : string) : string := Str.drop (String.length n) s.

(** The exponent part [e], [e+] or [e-] followed by digits, if [s] starts
    with one; an incomplete one is no part of the literal. *)
Definition exponent_part (s : string) : Z :=
  match s with
  | String c r =>
      if Ascii.eqb c "e" || Ascii.eqb c "E" then
        match r with
        | String "+" r' =>
            match digits_prefix r' with
            | EmptyString => 0
            | ds => digits_value ds 0
            end
        | String "-" r' =>
            match digits_prefix r' with
            | EmptyString => 0
            | ds => - digits_value ds 0
            end
        | _ =>
            match digits_prefix r with
            | EmptyString => 0
            | ds => digits_value ds 0
            end
        end
      else 0
  | EmptyString => 0
  end.

(** The value of the longest prefix of [s] that is an unsigned
    StrDecimalLiteral, with the sign [neg]; NaN when there is none. *)
Definition unsigned_literal (neg : bool) (s : string) : float :=
  if String.prefix "Infinity" s
  then (if neg then neg_infinity else infinity)
  else
    let d1 := digits_prefix s in
    let r1 := after d1 s in
    let d2 := match r1 with
              | String "." r => digits_prefix r
              | _ => EmptyString
              end in
    let r2 := match r1 with
              | String "." r => after d2 r
              | _ => r1
              end in
    match d1, d2 with
    | EmptyString, EmptyString => nan
    | _, _ =>
        let m := digits_value (d1 +:+ d2) 0 in
        let ex := exponent_part r2 - Z.of_nat (String.length d2) in
        if m =? 0 then (if neg then neg_zero else zero)
        else
          let sm := if neg then - m else m in
          if 0 <=? ex then of_ratio (sm * 10 ^ ex) 1 else of_ratio sm (10 ^ (- ex))
    end.

(** [parseFloat(s)] *)
Definition parseFloat (s : string) : float :=
  match Str.trim_start s with
  | String "+" r => unsigned_literal false r
  | String "-" r => unsigned_literal true r
  | r => unsigned_literal false r
  end.

(** ** Math functions that ECMAScript defines exactly *)

(** [Math.PI] *)
Definition Math_PI : float := 0x1.921fb54442d18p+1%float.

(** [Math.abs] *)
Definition Math_abs (x : float) : float := PrimFloat.abs x.

(** [Math.max(a, b)]: NaN if either is NaN, and [+0] is larger than [-0]. *)
Definition Math_max (a b : float) : float :=
  if PrimFloat.is_nan a || PrimFloat.is_nan b then nan
  else if PrimFloat.ltb a b then b
  else if PrimFloat.ltb b a then a
  else if PrimFloat.get_sign a then b else a.

(** [Math.ceil] *)
Definition Math_ceil (x : float) : float :=
  match Prim2SF x with
  | S754_finite s m e =>
      if 0 <=? e then x
      else
        let q := (if s then - (Z.pos m / 2 ^ (- e))
                  else - ((- Z.pos m) / 2 ^ (- e))) in
        if q =? 0 then (if s then neg_zero else zero) else of_Z q
  | _ => x
  end.

(** How often the body of [for (let i = 0; i < n; i++)] runs: never when [n]
    is NaN, zero or negative, and the least integer at or above [n]
    otherwise.  (For [n] infinite the loop of the source would not end; no
    such bound reaches a loop of this program when [Math.atan2] stays in its
    range, and the count is given as 0.) *)
Definition loop_count (n : float) : nat :=
  match Prim2SF n with
  | S754_finite false m e =>
      if 0 <=? e then Z.to_nat (Z.pos m * 2 ^ e)
      else Z.to_nat (- ((- Z.pos m) / 2 ^ (- e)))
  | _ => O
  end.

(** How often the body of [for (let i = 1; i <= n; i++)] runs: the number of
    the integers from 1 up to [n] (none when [n] is NaN or below 1; an
    infinite [n] is treated as in [loop_count]). *)
Definition loop_count_incl (n : float) : nat :=
  match Prim2SF n with
  | S754_finite false m e =>
      if 0 <=? e then Z.to_nat (Z.pos m * 2 ^ e)
      else Z.to_nat (Z.pos m / 2 ^ (- e))
  | _ => O
  end.

End Num.

(* ===================================================================== *)
(** * The implementation-approximated part of [Math]                     *)
(* ===================================================================== *)

(** ECMAScript asks of these functions an implementation-approximated result
    only; the program is modelled over any choice of them. *)
Class MathImpl : Type := {
  Math_sin : float -> float;
  Math_cos : float -> float;
  Math_tan : float -> float;
  Math_atan2 : float -> float -> float;
  Math_sqrt : float -> float;
  (** [x ** 2] *)
  Math_sq : float -> float
}.

(** One implementation, by integer arithmetic: a real [x] is held as the
    integer nearest below [x * 2^p], the series are summed there, and the
    sum is rounded once to binary64. *)
Module RefMath.
Local Open Scope Z_scope.

Section Fixed.
(** The number of fractional bits. *)
Variable p : Z.

Definition fmul (a b : Z) : Z := Z.shiftr (a * b) p.
Definition fdiv (a b : Z) : Z := Z.shiftl a p / b.
Definition fone : Z := Z.shiftl 1 p.

(** arctan (1/n) = 1/n - 1/(3 n^3) + 1/(5 n^5) - ... for an integer [n >= 2];
    [t] is the power [1/n^(2k+1)] and [k] counts the terms. *)
Fixpoint atan_inv_terms (fuel : nat) (n2 t k : Z) : Z :=
  match fuel with
  | O => 0
  | S fuel' =>
      if t =? 0 then 0
      else (if Z.even k then t / (2 * k + 1) else - (t / (2 * k + 1)))
           + atan_inv_terms fuel' n2 (t / n2) (k + 1)
  end.

Definition atan_inv (n : Z) : Z :=
  atan_inv_terms (Z.to_nat p) (n * n) (fone / n) 0.

(** Machin: pi = 16 arctan (1/5) - 4 arctan (1/239). *)
Definition pi_machin : Z := 16 * atan_inv 5 - 4 * atan_inv 239.

(** sin r = r - r^3/3! + r^5/5! - ...; [t] is the term of index [k]. *)
Fixpoint sin_terms (fuel : nat) (r2 t k : Z) : Z :=
  match fuel with
  | O => 0
  | S fuel' =>
      if t =? 0 then 0
      else t + sin_terms fuel' r2
                 (- (fmul t r2 / ((2 * k + 2) * (2 * k + 3)))) (k + 1)
  end.

(** cos r = 1 - r^2/2! + r^4/4! - ... *)
Fixpoint cos_terms (fuel : nat) (r2 t k : Z) : Z :=
  match fuel with
  | O => 0
  | S fuel' =>
      if t =? 0 then 0
      else t + cos_terms fuel' r2
                 (- (fmul t r2 / ((2 * k + 1) * (2 * k + 2)))) (k + 1)
  end.

Definition sin_fixed (r : Z) : Z := sin_terms (Z.to_nat p) (fmul r r) r 0.
Definition cos_fixed (r : Z) : Z := cos_terms (Z.to_nat p) (fmul r r) fone 0.

(** arctan t = t - t^3/3 + t^5/5 - ... for a small [t]. *)
Fixpoint atan_terms (fuel : nat) (t2 t k : Z) : Z :=
  match fuel with
  | O => 0
  | S fuel' =>
      if t =? 0 then 0
      else (if Z.even k then t / (2 * k + 1) else - (t / (2 * k + 1)))
           + atan_terms fuel' t2 (fmul t t2) (k + 1)
  end.

(** arctan t = 2 arctan (t / (1 + sqrt (1 + t^2))) *)
Definition atan_halve (t : Z) : Z :=
  fdiv t (fone + Z.sqrt (Z.shiftl (fone + fmul t t) p)).

(** arctan on [0, 1]: the argument is halved three times, then summed. *)
Definition atan_fixed (t : Z) : Z :=
  let u := atan_halve (atan_halve (atan_halve t)) in
  8 * atan_terms (Z.to_nat p) (fmul u u) u 0.
End Fixed.

(** pi with 2400 fractional bits, and cut to [p <= 2400] of them. *)
Definition pi_2400 : Z := Eval vm_compute in pi_machin 2432 / 2 ^ 32.
Definition pi_fixed (p : Z) : Z := Z.shiftr pi_2400 (2400 - p).

(** [x = k * (pi/2) + r] with [|r| <= pi/4]: the quadrant [k mod 4] and [r],
    for the finite non-zero [x = (-1)^s * m * 2^e], at [p] fractional bits. *)
Definition reduce (p : Z) (s : bool) (m : positive) (e : Z) : Z * Z :=
  let x := Z.shiftl (if s then Z.neg m else Z.pos m) (e + p + 8) in
  let half_pi := pi_fixed (p + 7) in
  let k := (2 * x + half_pi) / (2 * half_pi) in
  (k mod 4, Z.shiftr (x - k * half_pi) 8).

(** Fractional bits for an argument [m * 2^e]: enough for 80 good bits of
    the reduced argument, however small or large the argument. *)
Definition precision (e : Z) : Z := 80 + Z.max (- e) (e + 110).

Definition sin (x : float) : float :=
  match Prim2SF x with
  | S754_finite s m e =>
      let p := precision e in
      let '(k, r) := reduce p s m e in
      Num.of_dyadic
        (if k =? 0 then sin_fixed p r
         else if k =? 1 then cos_fixed p r
         else if k =? 2 then - sin_fixed p r
         else - cos_fixed p r) (- p)
  | S754_zero _ => x
  | _ => nan
  end.

Definition cos (x : float) : float :=
  match Prim2SF x with
  | S754_finite s m e =>
      let p := precision e in
      let '(k, r) := reduce p s m e in
      Num.of_dyadic
        (if k =? 0 then cos_fixed p r
         else if k =? 1 then - sin_fixed p r
         else if k =? 2 then - cos_fixed p r
         else sin_fixed p r) (- p)
  | S754_zero _ => PrimFloat.one
  | _ => nan
  end.

Definition tan (x : float) : float :=
  match Prim2SF x with
  | S754_finite s m e =>
      let p := precision e in
      let '(k, r) := reduce p s m e in
      let sn := sin_fixed p r in
      let cs := cos_fixed p r in
      (* tan (r + pi/2) = - cos r / sin r *)
      let '(n, d) := if Z.even k then (sn, cs) else (- cs, sn) in
      if d =? 0 then (if n <? 0 then neg_infinity else infinity)
      else if d <? 0 then Num.of_ratio (- n) (- d) else Num.of_ratio n d
  | S754_zero _ => x
  | _ => nan
  end.

(** The angle of the point [(x, y)] with [x, y] finite and not zero:
    [(-1)^sy * my * 2^ey] over [(-1)^sx * mx * 2^ex]. *)
Definition atan2_finite (sy : bool) (my : positive) (ey : Z)
                        (sx : bool) (mx : positive) (ex : Z) : float :=
  let p := 136 + Z.abs (ey - ex) in
  (* |y| / |x| = ny / nx *)
  let ny := Z.shiftl (Z.pos my) (ey - Z.min ey ex) in
  let nx := Z.shiftl (Z.pos mx) (ex - Z.min ey ex) in
  let a := if ny <=? nx
           then atan_fixed p (Z.shiftl ny p / nx)
           else pi_fixed p / 2 - atan_fixed p (Z.shiftl nx p / ny) in
  let b := if sx then pi_fixed p - a else a in
  Num.of_dyadic (if sy then - b else b) (- p).

Definition pi_times (n d : Z) (neg : bool) : float :=
  let v := n * pi_fixed 128 / d in
  Num.of_dyadic (if neg then - v else v) (-128).

(** [Math.atan2 (y, x)]; the cases of zeros and infinities are those of
    ECMAScript. *)
Definition atan2 (y x : float) : float :=
  match Prim2SF y, Prim2SF x with
  | S754_nan, _ | _, S754_nan => nan
  | S754_infinity sy, S754_infinity false => pi_times 1 4 sy
  | S754_infinity sy, S754_infinity true => pi_times 3 4 sy
  | S754_infinity sy, _ => pi_times 1 2 sy
  | S754_zero sy, S754_zero false
  | S754_zero sy, S754_finite false _ _
  | S754_zero sy, S754_infinity false => if sy then neg_zero else zero
  | S754_zero sy, _ => pi_times 1 1 sy
  | S754_finite sy _ _, S754_infinity false => if sy then neg_zero else zero
  | S754_finite sy _ _, S754_infinity true => pi_times 1 1 sy
  | S754_finite sy _ _, S754_zero _ => pi_times 1 2 sy
  | S754_finite sy my ey, S754_finite sx mx ex => atan2_finite sy my ey sx mx ex
  end.

#[export] Instance impl : MathImpl := {
  Math_sin := sin;
  Math_cos := cos;
  Math_tan := tan;
  Math_atan2 := atan2;
  Math_sqrt := PrimFloat.sqrt;
  Math_sq := fun x => PrimFloat.mul x x
}.

End RefMath.

(* ===================================================================== *)
(** * Geometry                                                           *)
(* ===================================================================== *)

Record Point : Type := { x : float; y : float }.

(** [[P0, P1, P2, P3]]: two anchors and, between them, two control points. *)
Definition CubicSegment : Type := (Point * Point * Point * Point)%type.

Definition seg_p0 (s : CubicSegment) : Point := s.1.1.1.
Definition seg_p1 (s : CubicSegment) : Point := s.1.1.2.
Definition seg_p2 (s : CubicSegment) : Point := s.1.2.
Definition seg_p3 (s : CubicSegment) : Point := s.2.

Section Geometry.
Local Open Scope float_scope.

Definition lerp (a b t : float) : float := a + (b - a) * t.

(** [cubicBezierPoint]: the point of the cubic at parameter [t], by three
    levels of linear interpolation. *)
Definition cubicBezierPoint (p0 p1 p2 p3 : Point) (t : float) : Point :=
  let x01 := lerp p0.(x) p1.(x) t in
  let y01 := lerp p0.(y) p1.(y) t in
  let x12 := lerp p1.(x) p2.(x) t in
  let y12 := lerp p1.(y) p2.(y) t in
  let x23 := lerp p2.(x) p3.(x) t in
  let y23 := lerp p2.(y) p3.(y) t in
  let x012 := lerp x01 x12 t in
  let y012 := lerp y01 y12 t in
  let x123 := lerp x12 x23 t in
  let y123 := lerp y12 y23 t in
  {| x := lerp x012 x123 t; y := lerp y012 y123 t |}.

(** The sub-curve that [splitCubicBezier] pushes in the pass [i] of its loop
    ([i] runs from 1 to [segments]). *)
Definition subCurve (p0 p1 p2 p3 : Point) (segments : float) (i : nat)
  : CubicSegment :=
  let t0 := (Num.of_nat i - 1) / segments in
  let t1 := Num.of_nat i / segments in
  let pStart := cubicBezierPoint p0 p1 p2 p3 t0 in
  let pMid1 := cubicBezierPoint p0 p1 p2 p3 (t0 + (t1 - t0) / 3) in
  let pMid2 := cubicBezierPoint p0 p1 p2 p3 (t0 + (2 * (t1 - t0)) / 3) in
  let pEnd := cubicBezierPoint p0 p1 p2 p3 t1 in
  (pStart, pMid1, pMid2, pEnd).

(** [splitCubicBezier]: [for (let i = 1; i <= segments; i++)] runs for
    [i = 1, ..., n] with [n] the number of integers from 1 up to [segments]. *)
Definition splitCubicBezier (p0 p1 p2 p3 : Point) (segments : float)
  : list CubicSegment :=
  map (subCurve p0 p1 p2 p3 segments) (seq 1 (Num.loop_count_incl segments)).

(** [lineToBezier] *)
Definition lineToBezier (p0 p1 : Point) : CubicSegment :=
  let cp1 := {| x := p0.(x) + (p1.(x) - p0.(x)) / 3;
                y := p0.(y) + (p1.(y) - p0.(y)) / 3 |} in
  let cp2 := {| x := p0.(x) + (2 * (p1.(x) - p0.(x))) / 3;
                y := p0.(y) + (2 * (p1.(y) - p0.(y))) / 3 |} in
  (p0, cp1, cp2, p1).

End Geometry.

(* ===================================================================== *)
(** * Elliptical arcs                                                    *)
(* ===================================================================== *)

Record Arc : Type := {
  px : float; py : float;
  cx : float; cy : float;
  rx : float; ry : float;
  xAxisRotation : float;
  largeArcFlag : bool;
  sweepFlag : bool
}.

Section ArcToBezier.
Context {M : MathImpl}.
Local Open Scope float_scope.

Definition toRadians (deg : float) : float := (deg * Num.Math_PI) / 180.

(** What [arcToCubicBeziers] computes before its loop: the half-displacement
    in the rotated frame, [lambda], the squared radii after the correction,
    the centre, the start angle, the step [delta] of the angle, the number of
    the segments and the sine and cosine of the rotation. *)
Record ArcFrame : Type := {
  x1p : float; y1p : float;
  lambda : float; rx2 : float; ry2 : float;
  cxCenter : float; cyCenter : float;
  startAngle : float; delta : float; segments : float;
  sinPhi : float; cosPhi : float
}.

Definition arcFrame (arc : Arc) : ArcFrame :=
  let sinPhi := Math_sin (toRadians arc.(xAxisRotation)) in
  let cosPhi := Math_cos (toRadians arc.(xAxisRotation)) in
  let dx := (arc.(px) - arc.(cx)) / 2 in
  let dy := (arc.(py) - arc.(cy)) / 2 in
  let x1p := cosPhi * dx + sinPhi * dy in
  let y1p := - sinPhi * dx + cosPhi * dy in
  let rx2 := arc.(rx) * arc.(rx) in
  let ry2 := arc.(ry) * arc.(ry) in
  let x1p2 := x1p * x1p in
  let y1p2 := y1p * y1p in
  (* Ensure radii are large enough *)
  let lambda := x1p2 / rx2 + y1p2 / ry2 in
  let factor := Math_sqrt lambda in
  let rx2 := if 1 <? lambda then Math_sq (arc.(rx) * factor) else rx2 in
  let ry2 := if 1 <? lambda then Math_sq (arc.(ry) * factor) else ry2 in
  let sign := if negb (Bool.eqb arc.(largeArcFlag) arc.(sweepFlag)) then 1 else -1 in
  let coef :=
    sign *
    Math_sqrt
      (Num.Math_max 0
         ((rx2 * ry2 - rx2 * y1p2 - ry2 * x1p2) / (rx2 * y1p2 + ry2 * x1p2))) in
  let cxp := (coef * (arc.(rx) * y1p)) / arc.(ry) in
  let cyp := (coef * - (arc.(ry) * x1p)) / arc.(rx) in
  let cxCenter := cosPhi * cxp - sinPhi * cyp + (arc.(px) + arc.(cx)) / 2 in
  let cyCenter := sinPhi * cxp + cosPhi * cyp + (arc.(py) + arc.(cy)) / 2 in
  let startAngle := Math_atan2 ((y1p - cyp) / arc.(ry)) ((x1p - cxp) / arc.(rx)) in
  let deltaAngle :=
    Math_atan2 ((- y1p - cyp) / arc.(ry)) ((- x1p - cxp) / arc.(rx)) - startAngle in
  let deltaAngle :=
    if negb arc.(sweepFlag) && (0 <? deltaAngle)
    then deltaAngle - 2 * Num.Math_PI else deltaAngle in
  let deltaAngle :=
    if arc.(sweepFlag) && (deltaAngle <? 0)
    then deltaAngle + 2 * Num.Math_PI else deltaAngle in
  let maxSegmentAngle := Num.Math_PI / 12 in
  let segments := Num.Math_ceil (Num.Math_abs (deltaAngle / maxSegmentAngle)) in
  {| x1p := x1p; y1p := y1p; lambda := lambda; rx2 := rx2; ry2 := ry2;
     cxCenter := cxCenter; cyCenter := cyCenter;
     startAngle := startAngle; delta := deltaAngle / segments;
     segments := segments; sinPhi := sinPhi; cosPhi := cosPhi |}.

(** The segment that the pass [i] of the loop pushes. *)
Definition arcSegment (arc : Arc) (f : ArcFrame) (i : nat) : CubicSegment :=
  let rx := arc.(rx) in
  let ry := arc.(ry) in
  let sinPhi := f.(sinPhi) in
  let cosPhi := f.(cosPhi) in
  let theta1 := f.(startAngle) + Num.of_nat i * f.(delta) in
  let theta2 := theta1 + f.(delta) in
  let t := (4 / 3) * Math_tan ((theta2 - theta1) / 4) in
  let cosTheta1 := Math_cos theta1 in
  let sinTheta1 := Math_sin theta1 in
  let cosTheta2 := Math_cos theta2 in
  let sinTheta2 := Math_sin theta2 in
  let p0 := {| x := f.(cxCenter) + rx * cosTheta1 * cosPhi - ry * sinTheta1 * sinPhi;
               y := f.(cyCenter) + rx * cosTheta1 * sinPhi + ry * sinTheta1 * cosPhi |} in
  let p3 := {| x := f.(cxCenter) + rx * cosTheta2 * cosPhi - ry * sinTheta2 * sinPhi;
               y := f.(cyCenter) + rx * cosTheta2 * sinPhi + ry * sinTheta2 * cosPhi |} in
  let p1 := {| x := p0.(x) - t * (rx * sinTheta1 * cosPhi + ry * cosTheta1 * sinPhi);
               y := p0.(y) - t * (rx * sinTheta1 * sinPhi - ry * cosTheta1 * cosPhi) |} in
  let p2 := {| x := p3.(x) + t * (rx * sinTheta2 * cosPhi + ry * cosTheta2 * sinPhi);
               y := p3.(y) + t * (rx * sinTheta2 * sinPhi - ry * cosTheta2 * cosPhi) |} in
  (p0, p1, p2, p3).

(** [arcToCubicBeziers]: [for (let i = 0; i < segments; i++)]. *)
Definition arcToCubicBeziers (arc : Arc) : list CubicSegment :=
  let f := arcFrame arc in
  map (arcSegment arc f) (seq 0 (Num.loop_count f.(segments))).

End ArcToBezier.

(* ===================================================================== *)
(** * The path interpreter: [distortPath]                                *)
(* ===================================================================== *)

(** What one pass of the inner loop appends to [rebuiltPath]: a command
    letter, a space, and then each number followed by a space; or, for a
    letter that is no path command, the matched text as it stands. *)
Inductive Chunk : Type :=
  | Cmd (letter : ascii) (args : list float)
  | Raw (text : string).

Definition render (c : Chunk) : string :=
  match c with
  | Cmd letter args =>
      String letter " " +:+ Str.concat (map (fun v => Num.toString v +:+ " ") args)
  | Raw text => text
  end.

(** [currentPoint] and [subpathStart], the two variables of [distortPath]. *)
Record ParserState : Type := {
  currentPoint : Point;
  subpathStart : Point
}.

Definition initialState : ParserState :=
  {| currentPoint := {| x := 0; y := 0 |};
     subpathStart := {| x := 0; y := 0 |} |}.

(** A computation that calls [Math.random]: from the number of the calls made
    so far to its result and the number of the calls made after it. *)
Definition Rand (A : Type) : Type := nat -> A * nat.

Definition ret {A : Type} (a : A) : Rand A := fun n => (a, n).

Definition bind {A B : Type} (m : Rand A) (k : A -> Rand B) : Rand B :=
  fun n => let '(a, n') := m n in k a n'.

Notation "'let*' x ':=' m 'in' k" := (bind m (fun x => k))
  (at level 10, x pattern, m at level 100, k at level 200).

(** [paramCounts[upper]]; [None] is [undefined]. *)
Definition paramCounts (upper : ascii) : option nat :=
  match upper with
  | "M"%char => Some 2
  | "L"%char => Some 2
  | "H"%char => Some 1
  | "V"%char => Some 1
  | "C"%char => Some 6
  | "S"%char => Some 4
  | "Q"%char => Some 4
  | "T"%char => Some 2
  | "A"%char => Some 7
  | "Z"%char => Some 0
  | _ => None
  end.

(** [parseParams] *)
Definition parseParams (paramStr : string) : list float :=
  filter (fun v => negb (Num.isNaN v))
         (map Num.parseFloat (Str.split (Str.trim paramStr))).

(** [!!v] for a Number. *)
Definition truthy (v : float) : bool :=
  negb (PrimFloat.is_zero v || PrimFloat.is_nan v).

Section DistortPath.
Context {M : MathImpl}.
(** [random n] is what the call number [n] of [Math.random()] returns. *)
Variable random : nat -> float.
Variable jitter : float.
Local Open Scope float_scope.

(** [distortCoord] *)
Definition distortCoord (val : float) : Rand float :=
  fun n => (val + (random n - 0.5) * jitter * 2, S n).

(** The [C] command of a cubic segment: its two control points and its end
    point, distorted in this order. *)
Definition emitCubic (b : CubicSegment) : Rand Chunk :=
  let* c1x := distortCoord (seg_p1 b).(x) in
  let* c1y := distortCoord (seg_p1 b).(y) in
  let* c2x := distortCoord (seg_p2 b).(x) in
  let* c2y := distortCoord (seg_p2 b).(y) in
  let* ex := distortCoord (seg_p3 b).(x) in
  let* ey := distortCoord (seg_p3 b).(y) in
  ret (Cmd "C" [c1x; c1y; c2x; c2y; ex; ey]).

(** [beziers.forEach(...)] of the arc branch. *)
Fixpoint emitArc (beziers : list CubicSegment) (st : ParserState)
  : Rand (ParserState * list Chunk) :=
  match beziers with
  | [] => ret (st, [])
  | b :: rest =>
      let* c := emitCubic b in
      let st' := {| currentPoint := {| x := (seg_p3 b).(x); y := (seg_p3 b).(y) |};
                    subpathStart := st.(subpathStart) |} in
      let* (st'', out) := emitArc rest st' in
      ret (st'', c :: out)
  end.

(** One pass of the first loop of the general branch: a coordinate pair
    made absolute and distorted. *)
Definition distortPair (relative : bool) (cur : Point) (xv yv : float)
  : Rand (list float) :=
  let xv := if relative then xv + cur.(x) else xv in
  let yv := if relative then yv + cur.(y) else yv in
  let* dx := distortCoord xv in
  let* dy := distortCoord yv in
  ret [dx; dy].

(** The first loop of the general branch, over the parameters two by two
    (a last parameter without a partner would be paired with [undefined],
    which is NaN in the arithmetic). *)
Fixpoint distortPairs (relative : bool) (cur : Point) (segmentParams : list float)
  : Rand (list float) :=
  match segmentParams with
  | [] => ret []
  | [xv] => distortPair relative cur xv nan
  | xv :: yv :: rest =>
      let* xy := distortPair relative cur xv yv in
      let* coords := distortPairs relative cur rest in
      ret (xy ++ coords)
  end.

(** [coords[coords.length - 2]] and [coords[coords.length - 1]]. *)
Definition lastPair (coords : list float) : Point :=
  {| x := nth (List.length coords - 2) coords nan;
     y := nth (List.length coords - 1) coords nan |}.

(** One pass of the inner loop for a command other than [Z], with its
    [paramCount] parameters in [segmentParams]. *)
Definition step (upper : ascii) (relative : bool) (segmentParams : list float)
    (st : ParserState) : Rand (ParserState * list Chunk) :=
  let cur := st.(currentPoint) in
  let param i := nth i segmentParams nan in
  if Ascii.eqb upper "A" then
    (* rx ry xAxisRotation largeArcFlag sweepFlag x y *)
    let xv := if relative then param 5%nat + cur.(x) else param 5%nat in
    let yv := if relative then param 6%nat + cur.(y) else param 6%nat in
    let beziers :=
      arcToCubicBeziers
        {| px := cur.(x); py := cur.(y); cx := xv; cy := yv;
           rx := param 0%nat; ry := param 1%nat; xAxisRotation := param 2%nat;
           largeArcFlag := truthy (param 3%nat);
           sweepFlag := truthy (param 4%nat) |} in
    emitArc beziers st
  else if Ascii.eqb upper "H" then
    let xv := if relative then param 0%nat + cur.(x) else param 0%nat in
    let* dx := distortCoord xv in
    let* dy := distortCoord cur.(y) in
    ret ({| currentPoint := {| x := xv; y := cur.(y) |};
            subpathStart := st.(subpathStart) |},
         [Cmd "L" [dx; dy]])
  else if Ascii.eqb upper "V" then
    let yv := if relative then param 0%nat + cur.(y) else param 0%nat in
    let* dy := distortCoord yv in
    let* dx := distortCoord cur.(x) in
    ret ({| currentPoint := {| x := cur.(x); y := yv |};
            subpathStart := st.(subpathStart) |},
         [Cmd "L" [dx; dy]])
  else if Ascii.eqb upper "L" then
    let xv := if relative then param 0%nat + cur.(x) else param 0%nat in
    let yv := if relative then param 1%nat + cur.(y) else param 1%nat in
    let* c := emitCubic (lineToBezier cur {| x := xv; y := yv |}) in
    ret ({| currentPoint := {| x := xv; y := yv |};
            subpathStart := st.(subpathStart) |},
         [c])
  else
    (* General commands with multiple coords (M,L,C,S,Q,T) *)
    let* coords := distortPairs relative cur segmentParams in
    let st' :=
      match upper with
      | "M"%char =>
          {| currentPoint := lastPair coords; subpathStart := lastPair coords |}
      | "L"%char | "T"%char | "C"%char | "S"%char | "Q"%char =>
          {| currentPoint := lastPair coords; subpathStart := st.(subpathStart) |}
      | _ => st
      end in
    ret (st', [Cmd upper coords]).

(** The inner loop, [while (i < params.length || paramCount === 0)], over
    the parameters [rest = params.slice(i)] that are left.  Every pass but
    the one of [Z] takes [paramCount >= 1] parameters, so [fuel] passes are
    enough when [fuel] exceeds the number of the parameters. *)
Fixpoint groups (fuel : nat) (upper : ascii) (relative : bool) (paramCount : nat)
    (rest : list float) (st : ParserState) : Rand (ParserState * list Chunk) :=
  match fuel with
  | O => ret (st, [])
  | S fuel' =>
      if (0 <? List.length rest)%nat || (paramCount =? 0)%nat then
        if Ascii.eqb upper "Z" then
          (* Close path: move current point to subpath start *)
          ret ({| currentPoint := st.(subpathStart);
                  subpathStart := st.(subpathStart) |},
               [Cmd "Z" []])
        else
          let segmentParams := firstn paramCount rest in
          if (List.length segmentParams <? paramCount)%nat then ret (st, [])
          else
            let* (st', out) := step upper relative segmentParams st in
            if (paramCount =? 0)%nat then ret (st', out)
            else
              let* (st'', out') :=
                groups fuel' upper relative paramCount (skipn paramCount rest) st' in
              ret (st'', out ++ out')
      else ret (st, [])
  end.

(** One match of the command pattern: the body of the outer loop. *)
Definition command (m : ascii * string) (st : ParserState)
  : Rand (ParserState * list Chunk) :=
  let '(commandRaw, paramsStr) := m in
  let upper := Str.toUpperCase commandRaw in
  let relative := negb (Ascii.eqb commandRaw upper) in
  let params := parseParams paramsStr in
  match paramCounts upper with
  | None =>
      (* Unknown command, append as-is *)
      ret (st, [Raw (String commandRaw paramsStr)])
  | Some paramCount =>
      groups (S (List.length params)) upper relative paramCount params st
  end.

(** The outer loop, over the matches of the command pattern. *)
Fixpoint commands (ms : list (ascii * string)) (st : ParserState)
  : Rand (ParserState * list Chunk) :=
  match ms with
  | [] => ret (st, [])
  | m :: rest =>
      let* (st', out) := command m st in
      let* (st'', out') := commands rest st' in
      ret (st'', out ++ out')
  end.

(** The run of [distortPath] on [d]: the final state of its two variables
    and the chunks appended to [rebuiltPath], in order. *)
Definition interpret (d : string) : Rand (ParserState * list Chunk) :=
  commands (Str.matches d) initialState.

(** [distortPath(d, jitter)] *)
Definition distortPath (d : string) : Rand string :=
  let* (_, out) := interpret d in
  ret (Str.trim (Str.concat (map render out))).

End DistortPath.

(* ===================================================================== *)
(** * The layered drawing: [makeDraftyPath]                              *)
(* ===================================================================== *)

(** [options]: a field that is not given is [None]. *)
Record Options : Type := {
  options_jitter : option float;
  options_repeats : option nat
}.

(** Attribute objects ([Record<string, string>]) live in a store and are
    passed by reference. *)
Definition loc : Type := positive.

Section DraftyPath.
Context {M : MathImpl}.
(** [SVGSVGElement]; the code only hands it on. *)
Variable SVG : Type.
Variable random : nat -> float.

(** A call of the draw collaborator, [drawPathFn(svg, d, attrs)]: its three
    arguments, and the properties that the object [attrs] has when the call
    is made, which are what the collaborator finds in it. *)
Record DrawCall : Type := {
  call_svg : SVG;
  call_d : string;
  call_attrs : loc;
  call_props : gmap string string
}.

(** The store of the attribute objects, the calls of the draw collaborator
    made so far (the collaborator itself is outside the program: the model
    records what it is called with and what it finds there), and the number
    of the calls of [Math.random] made so far. *)
Record World : Type := {
  objects : gmap loc (gmap string string);
  calls : list DrawCall;
  randoms : nat
}.

(** A new object with the properties [props]. *)
Definition allocate (props : gmap string string) (w : World) : loc * World :=
  let l := fresh (dom w.(objects)) in
  (l, {| objects := <[l := props]> w.(objects);
         calls := w.(calls); randoms := w.(randoms) |}).

(** [{...attrs}]: a new object with the properties of [attrs] copied. *)
Definition spread (attrs : loc) (w : World) : loc * World :=
  allocate (default ∅ (w.(objects) !! attrs)) w.

(** [o[key]]; [None] is [undefined]. *)
Definition getProp (o : loc) (key : string) (w : World) : option string :=
  w.(objects) !! o ≫= (.!! key).

(** [o[key] = value] *)
Definition setProp (o : loc) (key value : string) (w : World) : World :=
  {| objects := alter (<[key := value]>) o w.(objects);
     calls := w.(calls); randoms := w.(randoms) |}.

Definition drawPathFn (svg : SVG) (d : string) (attrs : loc) (w : World) : World :=
  {| objects := w.(objects);
     calls := w.(calls) ++ [{| call_svg := svg; call_d := d; call_attrs := attrs;
                              call_props := default ∅ (w.(objects) !! attrs) |}];
     randoms := w.(randoms) |}.

(** The body of the loop of the function that [makeDraftyPath] returns. *)
Definition draftyPass (jitter : float) (svg : SVG) (d : string) (attrs : loc)
    (i : nat) (w : World) : World :=
  let '(distortedD, n) := distortPath random jitter d w.(randoms) in
  let w := {| objects := w.(objects); calls := w.(calls); randoms := n |} in
  let isFirst := (i =? 0)%nat in
  (* Copy attrs but override fill/stroke accordingly *)
  let '(attrsCopy, w) := spread attrs w in
  let w :=
    if isFirst then
      let w := match getProp attrsCopy "fill" w with
               | None => setProp attrsCopy "fill" "black" w
               | Some _ => w
               end in
      setProp attrsCopy "stroke" "none" w
    else
      let w := setProp attrsCopy "fill" "none" w in
      match getProp attrsCopy "stroke" w with
      | None => setProp attrsCopy "stroke" "black" w
      | Some _ => w
      end in
  drawPathFn svg distortedD attrsCopy w.

(** [makeDraftyPath(drawPathFn, options)(svg, d, attrs)]; a caller that gives
    no [attrs] gets a new empty object for it. *)
Definition makeDraftyPath (options : Options)
    (svg : SVG) (d : string) (attrs : option loc) (w : World) : World :=
  let jitter := default 1.2%float options.(options_jitter) in
  let repeats := default 3%nat options.(options_repeats) in
  let '(attrs, w) := match attrs with
                     | Some a => (a, w)
                     | None => allocate ∅ w
                     end in
  fold_left (fun w i => draftyPass jitter svg d attrs i w) (seq 0 (repeats + 1)) w.

End DraftyPath.

Arguments call_svg {SVG} _.
Arguments call_d {SVG} _.
Arguments call_attrs {SVG} _.
Arguments call_props {SVG} _.
Arguments objects {SVG} _.
Arguments calls {SVG} _.
Arguments randoms {SVG} _.
Arguments getProp {SVG} _ _ _.
Arguments draftyPass {M SVG} _ _ _ _ _ _ _.
Arguments makeDraftyPath {M SVG} _ _ _ _ _ _.

(* ===================================================================== *)
(** * Notions used to state the properties                               *)
(* ===================================================================== *)

(** [0 <= r < 1], the range of [Math.random]. *)
Definition unit_interval (r : float) : bool :=
  PrimFloat.leb 0 r && PrimFloat.ltb r 1.

(** [v] is the negative zero. *)
Definition is_neg_zero (v : float) : bool :=
  match Prim2SF v with S754_zero true => true | _ => false end.

(** No parameter of a command of [d] parses to the negative zero. *)
Definition no_negative_zero (d : string) : bool :=
  forallb (fun m => forallb (fun v => negb (is_neg_zero v)) (parseParams m.2))
          (Str.matches d).

Definition clean (ps : list float) : Prop :=
  Forall (fun v => is_neg_zero v = false) ps.

(** Two computations give related results whatever the numbers of the calls
    of [Math.random] made before them. *)
Definition sim {A : Type} (R : A -> A -> Prop) (m1 m2 : Rand A) : Prop :=
  forall n1 n2, R (m1 n1).1 (m2 n2).1.

(** Two numbers that print the same. *)
Definition same_text (a b : float) : Prop := Num.toString a = Num.toString b.

(** Two runs that end in the same state and appended the same text. *)
Definition same_run (a b : ParserState * list Chunk) : Prop :=
  a.1 = b.1 /\ map render a.2 = map render b.2.

(** A zero or a finite number: neither NaN nor infinite. *)
Definition not_special (f : spec_float) : Prop :=
  match f with
  | S754_zero _ | S754_finite _ _ _ => True
  | _ => False
  end.


(** The properties that the pass [i] gives its copy of an object with the
    properties [base]. *)
Definition layerProps (i : nat) (base : gmap string string) : gmap string string :=
  if (i =? 0)%nat then
    <["stroke" := "none"]>
      (match base !! "fill" with
       | None => <["fill" := "black"]> base
       | Some _ => base
       end)
  else
    let b := <["fill" := "none"]> base in
    match b !! "stroke" with
    | None => <["stroke" := "black"]> b
    | Some _ => b
    end.

(** The call number [i] (from 0) is the fill layer when [i = 0], made with
    [stroke = "none"], and an outline layer otherwise, made with
    [fill = "none"]: the attributes are those that the object handed over
    has when the call is made. *)
Definition layer_ok {SVG : Type} (i : nat) (c : DrawCall SVG) : Prop :=
  if (i =? 0)%nat then call_props c !! "stroke" = Some "none"
  else call_props c !! "fill" = Some "none".


(** An arc from (0, 0) to (10, 0) with radii 1: too small to span the two
    end points, which are 10 apart. *)
Definition smallRadiiArc (large sweep : bool) : Arc :=
  {| px := 0; py := 0; cx := 10; cy := 0; rx := 1; ry := 1;
     xAxisRotation := 0; largeArcFlag := large; sweepFlag := sweep |}.

(** [a] and [b] are more than [1e-6] apart. *)
Definition apart (a b : float) : bool :=
  PrimFloat.ltb 1e-6 (PrimFloat.abs (a - b)).

(** The first anchor of the first segment and the last anchor of the last
    one. *)
Definition chainEnds (beziers : list CubicSegment) : option (Point * Point) :=
  match head beziers, last beziers with
  | Some b, Some e => Some (seg_p0 b, seg_p3 e)
  | _, _ => None
  end.


(** What every result of a computation satisfies, whatever the number of the
    calls of [Math.random] before it. *)
Definition always {A : Type} (P : A -> Prop) (m : Rand A) : Prop :=
  forall n, P (m n).1.

(** The letters of the commands that [distortPath] writes. *)
Definition outputLetters : list ascii := ["M"; "L"; "C"; "S"; "Q"; "T"; "Z"]%char.

(** A chunk that [distortPath] may append: a command under one of the
    [outputLetters], or the text of a match whose letter is no path command. *)
Definition emitted_ok (c : Chunk) : bool :=
  match c with
  | Cmd l _ => existsb (Ascii.eqb l) outputLetters
  | Raw (String c _) =>
      match paramCounts (Str.toUpperCase c) with None => true | Some _ => false end
  | Raw EmptyString => false
  end.

(** A Move, Cubic or Close command. *)
Definition mcz_only (c : Chunk) : bool :=
  match c with
  | Cmd l _ => existsb (Ascii.eqb l) ["M"; "C"; "Z"]%char
  | Raw _ => false
  end.

Definition is_cubic (c : Chunk) : Prop := exists args, c = Cmd "C" args.

(** Every chunk of a run is one that [distortPath] may append. *)
Definition all_ok (r : ParserState * list Chunk) : Prop :=
  Forall (fun c => emitted_ok c = true) r.2.

(** The value that the call number [n] of [Math.random] makes of [v]. *)
Definition jittered (random : nat -> float) (jitter v : float) (n : nat) : float :=
  (v + (random n - 0.5) * jitter * 2)%float.

(** The Cubic command of the segment [b], as it is written when the calls
    [n], ..., [n + 5] of [Math.random] jitter the coordinates of its two
    control points and of its end point. *)
Definition jitteredCubic (random : nat -> float) (jitter : float)
    (b : CubicSegment) (n : nat) : Chunk :=
  Cmd "C" [jittered random jitter (x (seg_p1 b)) n;
           jittered random jitter (y (seg_p1 b)) (n + 1);
           jittered random jitter (x (seg_p2 b)) (n + 2);
           jittered random jitter (y (seg_p2 b)) (n + 3);
           jittered random jitter (x (seg_p3 b)) (n + 4);
           jittered random jitter (y (seg_p3 b)) (n + 5)].

(** The parameter [v] at the place [i] of its command, made absolute: an
    abscissa at an even place, an ordinate at an odd one. *)
Definition absolute (relative : bool) (cur : Point) (i : nat) (v : float) : float :=
  if relative then (v + (if Nat.even i then x cur else y cur))%float else v.

(** The parameters as they are taken two by two: a last one without a
    partner is paired with [undefined], NaN in the arithmetic. *)
Definition padded (seg : list float) : list float :=
  if Nat.even (List.length seg) then seg else seg ++ [nan].

(** The numbers written for the parameters [seg]: each made absolute and
    jittered by a call of [Math.random] of its own, in their order, from the
    call [n] on. *)
Definition jitteredParams (random : nat -> float) (jitter : float)
    (relative : bool) (cur : Point) (seg : list float) (n : nat) : list float :=
  imap (fun i v => jittered random jitter (absolute relative cur i v) (n + i))
       (padded seg).

(** The current point becomes [p]; the subpath start stays. *)
Definition moveTo (p : Point) (st : ParserState) : ParserState :=
  {| currentPoint := p; subpathStart := subpathStart st |}.

(** The arc that an [A] command with the parameters [seg] asks for. *)
Definition arcOf (relative : bool) (seg : list float) (st : ParserState) : Arc :=
  let cur := currentPoint st in
  {| px := x cur; py := y cur;
     cx := if relative then (nth 5 seg nan + x cur)%float else nth 5 seg nan;
     cy := if relative then (nth 6 seg nan + y cur)%float else nth 6 seg nan;
     rx := nth 0 seg nan; ry := nth 1 seg nan; xAxisRotation := nth 2 seg nan;
     largeArcFlag := truthy (nth 3 seg nan);
     sweepFlag := truthy (nth 4 seg nan) |}.

(** No letter in [s]. *)
Definition letter_free (s : string) : Prop := Str.non_letters s = s.


(** ** The exact value of a binary64 number

    The subdivision law compares the points that [splitCubicBezier] computes
    in binary64 with the points of the curve itself.  The curve is taken in
    exact arithmetic, over the rationals. *)

(** [m * 2^e], exactly. *)
Definition ZQ (m e : Z) : Q := inject_Z m * 2 ^ e.

(** The value of a binary64 number that is a zero or finite. *)
Definition SF2Q (f : spec_float) : Q :=
  match f with
  | S754_finite s m e => ZQ (cond_Zopp s (Z.pos m)) e
  | _ => 0
  end.

(** The value of the number [v]. *)
Definition F2Q (v : float) : Q := SF2Q (Prim2SF v).

(** Half a unit in the last place of 1, and half the least positive number:
    the bounds of the relative and of the absolute error of one rounding. *)
Definition u64 : Q := 2 ^ (-53).
Definition eta64 : Q := 2 ^ (-1075).

(** A zero or a finite number. *)
Definition finite (v : float) : Prop := not_special (Prim2SF v).

(** [a + (b - a) * t], exactly. *)
Definition lerpQ (a b t : Q) : Q := a + (b - a) * t.

(** The cubic with the control values [c0 .. c3] at the parameter [t], in
    Bernstein form and in exact arithmetic. *)
Definition bezierQ (c0 c1 c2 c3 t : Q) : Q :=
  ((1 - t) * (1 - t) * (1 - t) * c0 + 3 * ((1 - t) * (1 - t) * t) * c1
   + 3 * ((1 - t) * (t * t)) * c2 + t * t * t * c3)%Q.

(** The point of the original curve at the parameter [t]. *)
Definition curveAt (p0 p1 p2 p3 : Point) (t : Q) : Q * Q :=
  (bezierQ (F2Q (x p0)) (F2Q (x p1)) (F2Q (x p2)) (F2Q (x p3)) t,
   bezierQ (F2Q (y p0)) (F2Q (y p1)) (F2Q (y p2)) (F2Q (y p3)) t).

(** [finite], as a test. *)
Definition finiteb (v : float) : bool :=
  match Prim2SF v with
  | S754_zero _ | S754_finite _ _ _ => true
  | _ => false
  end.

(** A coordinate that is a number of magnitude [2^20] at most. *)
Definition moderate (v : float) : bool :=
  finiteb v && Qle_bool (Qabs (F2Q v)) 1048576.

(** A point whose two coordinates are numbers of magnitude [2^20] at most. *)
Definition small (p : Point) : bool := moderate (x p) && moderate (y p).

(** The point [p] is a point of numbers, within [1e-6] of [q] in each
    coordinate. *)
Definition near (p : Point) (q : Q * Q) : Prop :=
  finite (x p) /\ finite (y p) /\
  (Qabs (F2Q (x p) - q.1) <= 1 # 1000000)%Q /\
  (Qabs (F2Q (y p) - q.2) <= 1 # 1000000)%Q.

(** The binary64 parameter [t] stands for the exact parameter [tau]: both are
    in the unit interval and they differ by [2^-50] at most. *)
Definition param_ok (t : float) (tau : Q) : bool :=
  finiteb t && Qle_bool 0 (F2Q t) && Qle_bool (F2Q t) 1 &&
  Qle_bool 0 tau && Qle_bool tau 1 &&
  Qle_bool (Qabs (F2Q t - tau)) (1 # 1125899906842624).

(** The sub-interval number [i] (from 0) of [n] goes from [i / n] to
    [(i + 1) / n]. *)
Definition fromQ (n i : nat) : Q :=
  (inject_Z (Z.of_nat i) / inject_Z (Z.of_nat n))%Q.
Definition toQ (n i : nat) : Q :=
  (inject_Z (Z.of_nat (S i)) / inject_Z (Z.of_nat n))%Q.

(** The cubic of the counterexample: one control ordinate is [1e12]. *)
Definition steep : CubicSegment :=
  ({| x := 0; y := 0 |}, {| x := 0; y := 0 |},
   {| x := 0; y := 1e12 |}, {| x := 1; y := 0.3 |}).

(** What the subdivision law says of the sub-curve [s], number [i] (from 0)
    of [n], of the cubic [p0 .. p3]: it starts at the point of the curve at
    [i / n], ends at the point at [(i + 1) / n], and its control points are
    the points of the curve at one third and at two thirds of that
    interval, each within [1e-6]. *)
Definition piece_ok (p0 p1 p2 p3 : Point) (n i : nat) (s : CubicSegment)
  : Prop :=
  let t0 := fromQ n i in
  let t1 := toQ n i in
  near (seg_p0 s) (curveAt p0 p1 p2 p3 t0) /\
  near (seg_p1 s) (curveAt p0 p1 p2 p3 (t0 + (t1 - t0) / 3)%Q) /\
  near (seg_p2 s) (curveAt p0 p1 p2 p3 (t0 + 2 * (t1 - t0) / 3)%Q) /\
  near (seg_p3 s) (curveAt p0 p1 p2 p3 t1).

(** ** Notions of the further properties *)

(** The count of the numbers that the chunks hold. *)
Definition numbers (out : list Chunk) : nat :=
  list_sum (map (fun c => match c with
                          | Cmd _ args => List.length args
                          | Raw _ => 0%nat
                          end) out).

(** A computation that draws one random number for each number it writes. *)
Definition counted (m : Rand (ParserState * list Chunk)) : Prop :=
  forall n, exists st out, m n = ((st, out), (n + numbers out)%nat).

(** The text of a match: the letter and the run of non-letters after it. *)
Definition matchText (m : ascii * string) : string := String m.1 m.2.

(** No letter of [d] is the letter of a path command. *)
Definition no_command (d : string) : bool :=
  forallb (fun m => match paramCounts (Str.toUpperCase m.1) with
                    | None => true
                    | Some _ => false
                    end)
          (Str.matches d).


(** The letter under which a command of the letter [upper] is written, and
    the count of the numbers written after it. *)
Definition writtenAs (upper : ascii) : ascii * nat :=
  match upper with
  | "L"%char => ("C"%char, 6%nat)
  | "H"%char | "V"%char => ("L"%char, 2%nat)
  | _ => (upper, default 0%nat (paramCounts upper))
  end.

(** A chunk written for a command of the letter [upper]. *)
Definition written (upper : ascii) (c : Chunk) : Prop :=
  exists args,
    c = Cmd (writtenAs upper).1 args /\ List.length args = (writtenAs upper).2.

(** The letter of the match is neither [M] nor [m]. *)
Definition no_move (m : ascii * string) : Prop :=
  Str.toUpperCase m.1 <> "M"%char.
(* ===================================================================== *)
(** * Properties                                                         *)
(* ===================================================================== *)

(** ** Binary64 arithmetic: what adding a zero perturbation does *)

Section FloatFacts.
Local Open Scope Z_scope.

Lemma digits2_pos_size p : digits2_pos p = Pos.size p.
Proof. induction p; simpl; congruence. Qed.

Lemma Zdigits2_pos p : Zdigits2 (Z.pos p) = Z.log2 (Z.pos p) + 1.
Proof.
  simpl. rewrite digits2_pos_size.
  destruct p; simpl; rewrite ?Pos2Z.inj_succ; lia.
Qed.

Lemma Zdigits2_nonneg z : 0 <= Zdigits2 z.
Proof. destruct z; simpl; lia. Qed.

(** For [z >= 0], [Zdigits2 z <= k] iff [z < 2^k]. *)
Lemma Zdigits2_le z k : 0 <= z -> 0 <= k -> z < 2 ^ k -> Zdigits2 z <= k.
Proof.
  intros Hz Hk Hlt. destruct z as [|p|p]; [simpl; lia| |lia].
  rewrite Zdigits2_pos.
  assert (Z.log2 (Z.pos p) < k) by (apply Z.log2_lt_pow2; lia). lia.
Qed.

Lemma Zdigits2_lt z : 0 <= z -> z < 2 ^ Zdigits2 z.
Proof.
  intros Hz. destruct z as [|p|p]; [simpl; lia| |lia].
  rewrite Zdigits2_pos. pose proof (Z.log2_spec (Z.pos p) ltac:(lia)).
  replace (Z.log2 (Z.pos p) + 1) with (Z.succ (Z.log2 (Z.pos p))) by lia. lia.
Qed.

Lemma Zdigits2_mono a b : 0 <= a <= b -> Zdigits2 a <= Zdigits2 b.
Proof.
  intros [Ha Hab]. apply Zdigits2_le; [lia|apply Zdigits2_nonneg|].
  pose proof (Zdigits2_lt b ltac:(lia)). lia.
Qed.

Lemma Zdigits2_succ z : 0 <= z -> Zdigits2 (z + 1) <= Zdigits2 z + 1.
Proof.
  intros Hz. apply Zdigits2_le; [lia|pose proof (Zdigits2_nonneg z); lia|].
  pose proof (Zdigits2_lt z Hz).
  rewrite Z.pow_add_r by (try apply Zdigits2_nonneg; lia). lia.
Qed.

Lemma shr_1_spec r :
  0 <= shr_m r ->
  0 <= shr_m (shr_1 r) /\ Zdigits2 (shr_m (shr_1 r)) = Z.max 0 (Zdigits2 (shr_m r) - 1).
Proof.
  destruct r as [m rb sb]; simpl. intros Hm.
  destruct m as [|[p|p|]|p]; simpl; try lia;
    rewrite ?Pos2Z.inj_succ; lia.
Qed.

Lemma iter_shr_1_spec p : forall r,
  0 <= shr_m r ->
  0 <= shr_m (SpecFloat.iter_pos shr_1 p r) /\
  Zdigits2 (shr_m (SpecFloat.iter_pos shr_1 p r)) = Z.max 0 (Zdigits2 (shr_m r) - Z.pos p).
Proof.
  induction p as [p IH|p IH|]; intros r Hr; simpl.
  - destruct (shr_1_spec r Hr) as [H1 E1].
    destruct (IH _ H1) as [H2 E2]. destruct (IH _ H2) as [H3 E3].
    split; [exact H3|]. rewrite E3, E2, E1. lia.
  - destruct (IH _ Hr) as [H2 E2]. destruct (IH _ H2) as [H3 E3].
    split; [exact H3|]. rewrite E3, E2. lia.
  - apply shr_1_spec, Hr.
Qed.

Lemma shr_record_of_loc_m m l : shr_m (shr_record_of_loc m l) = m.
Proof. destruct l as [|[]]; reflexivity. Qed.

(** A right shift to the exponent that [fexp] asks for. *)
Lemma shr_fexp_spec m e l :
  0 <= m ->
  let '(r, e') := shr_fexp prec emax m e l in
  0 <= shr_m r /\
  e' = Z.max e (fexp prec emax (Zdigits2 m + e)) /\
  Zdigits2 (shr_m r) = Z.max 0 (Zdigits2 m - (e' - e)).
Proof.
  intros Hm. unfold shr_fexp, shr.
  set (n := fexp prec emax (Zdigits2 m + e) - e).
  destruct n as [|p|p] eqn:En; rewrite ?shr_record_of_loc_m.
  - pose proof (Zdigits2_nonneg m). repeat split; lia.
  - destruct (iter_shr_1_spec p (shr_record_of_loc m l)) as [H1 E1].
    { rewrite shr_record_of_loc_m; exact Hm. }
    rewrite shr_record_of_loc_m in E1.
    repeat split; [exact H1|lia|]. rewrite E1. lia.
  - pose proof (Zdigits2_nonneg m). repeat split; lia.
Qed.

Lemma round_nearest_even_bounds m l :
  m <= round_nearest_even m l <= m + 1.
Proof. destruct l as [|[]]; simpl; try lia. destruct (Z.even m); lia. Qed.

(** Rounding a value below [2^1023] gives a zero or a finite number. *)
Lemma binary_round_aux_finite s mx ex lx :
  0 <= mx -> ex <= 971 -> Zdigits2 mx + ex <= 1023 ->
  not_special (binary_round_aux prec emax s mx ex lx).
Proof.
  intros Hm He Hd. unfold binary_round_aux.
  pose proof (shr_fexp_spec mx ex lx Hm) as H1.
  destruct (shr_fexp prec emax mx ex lx) as [r1 e1].
  destruct H1 as (Hr1 & He1 & Hd1).
  pose proof (round_nearest_even_bounds (shr_m r1) (loc_of_shr_record r1)) as Hrd.
  set (m' := round_nearest_even (shr_m r1) (loc_of_shr_record r1)) in *.
  assert (Hm' : 0 <= m') by lia.
  pose proof (shr_fexp_spec m' e1 loc_Exact Hm') as H2.
  destruct (shr_fexp prec emax m' e1 loc_Exact) as [r2 e2].
  destruct H2 as (Hr2 & He2 & Hd2).
  assert (Hdm' : Zdigits2 m' <= Zdigits2 (shr_m r1) + 1).
  { etransitivity; [apply (Zdigits2_mono m' (shr_m r1 + 1)); lia|].
    apply Zdigits2_succ; lia. }
  unfold fexp, SpecFloat.emin, prec, emax in *.
  destruct (shr_m r2) as [|p|p]; simpl; try exact I; try lia.
  destruct (Z.leb_spec e2 (1024 - 53)); [exact I|]. lia.
Qed.

Lemma digits2_pos_iter_xO d p :
  Z.pos (digits2_pos (Pos.iter xO p d)) = Z.pos (digits2_pos p) + Z.pos d.
Proof.
  induction d as [|d IH] using Pos.peano_ind.
  - simpl. lia.
  - rewrite Pos.iter_succ. simpl. rewrite Pos2Z.inj_succ, IH. lia.
Qed.

Lemma shl_align_spec mx ex ex' :
  let '(mz, ez) := shl_align mx ex ex' in
  ez = Z.min ex ex' /\ Zdigits2 (Z.pos mz) + ez = Zdigits2 (Z.pos mx) + ex.
Proof.
  unfold shl_align. destruct (ex' - ex) as [|d|d] eqn:E.
  - split; lia.
  - split; lia.
  - split; [lia|]. simpl. rewrite digits2_pos_iter_xO. lia.
Qed.

Lemma binary_round_finite s mx ex :
  ex <= 971 -> Zdigits2 (Z.pos mx) + ex <= 1023 ->
  not_special (binary_round prec emax s mx ex).
Proof.
  intros He Hd. unfold binary_round.
  pose proof (shl_align_spec mx ex (fexp prec emax (Z.pos (digits2_pos mx) + ex))) as H.
  destruct (shl_align mx ex _) as [mz ez]. destruct H as [Hez Hdz].
  apply binary_round_aux_finite; lia.
Qed.

Lemma binary_normalize_finite m e :
  e <= 971 -> Zdigits2 (Z.abs m) + e <= 1023 ->
  not_special (binary_normalize prec emax m e false).
Proof.
  intros He Hd. destruct m as [|p|p]; simpl in *; [exact I| |];
    apply binary_round_finite; simpl; lia.
Qed.

(** The digits of the difference of two mantissas brought to one exponent. *)
Lemma align_sum_digits sx mx ex sy my ey :
  let ez := Z.min ex ey in
  let a := cond_Zopp sx (Z.pos (fst (shl_align mx ex ez))) in
  let b := cond_Zopp sy (Z.pos (fst (shl_align my ey ez))) in
  Zdigits2 (Z.abs (a - b)) + ez
    <= Z.max (Zdigits2 (Z.pos mx) + ex) (Zdigits2 (Z.pos my) + ey) + 1.
Proof.
  intros ez a b.
  pose proof (shl_align_spec mx ex ez) as Ha.
  pose proof (shl_align_spec my ey ez) as Hb.
  subst a b. destruct (shl_align mx ex ez) as [ma ea], (shl_align my ey ez) as [mb eb].
  simpl fst. destruct Ha as [Ea Da], Hb as [Eb Db].
  assert (ea = ez) by (subst ez; lia). assert (eb = ez) by (subst ez; lia). subst ea eb.
  set (k := Z.max (Zdigits2 (Z.pos ma)) (Zdigits2 (Z.pos mb))).
  assert (Hk : Zdigits2 (Z.abs (cond_Zopp sx (Z.pos ma) - cond_Zopp sy (Z.pos mb))) <= k + 1).
  { apply Zdigits2_le; [lia| |].
    - pose proof (Zdigits2_nonneg (Z.pos ma)). lia.
    - pose proof (Zdigits2_lt (Z.pos ma) ltac:(lia)) as La.
      pose proof (Zdigits2_lt (Z.pos mb) ltac:(lia)) as Lb.
      assert (2 ^ Zdigits2 (Z.pos ma) <= 2 ^ k)
        by (apply Z.pow_le_mono_r; [lia|subst k; lia]).
      assert (2 ^ Zdigits2 (Z.pos mb) <= 2 ^ k)
        by (apply Z.pow_le_mono_r; [lia|subst k; lia]).
      rewrite Z.pow_add_r by (pose proof (Zdigits2_nonneg (Z.pos ma)); lia).
      destruct sx, sy; simpl; lia. }
  lia.
Qed.

Lemma SFsub_finite sx mx ex sy my ey :
  ex <= 971 -> ey <= 971 ->
  Zdigits2 (Z.pos mx) + ex <= 1022 -> Zdigits2 (Z.pos my) + ey <= 1022 ->
  not_special (SFsub prec emax (S754_finite sx mx ex) (S754_finite sy my ey)).
Proof.
  intros. unfold SFsub. apply binary_normalize_finite; [lia|].
  pose proof (align_sum_digits sx mx ex sy my ey) as Hd. cbv zeta in Hd. lia.
Qed.

(** Facts of validity. *)
Lemma valid_finite_bounds s m e :
  valid_binary (S754_finite s m e) = true ->
  Zdigits2 (Z.pos m) <= 53 /\ -1074 <= e <= 971.
Proof.
  simpl. unfold bounded, canonical_mantissa, fexp, SpecFloat.emin, prec, emax.
  intros H. apply andb_prop in H. destruct H as [H1 H2].
  apply Z.eqb_eq in H1. apply Z.leb_le in H2. simpl. lia.
Qed.

Lemma Prim2SF_finite_bounds f s m e :
  Prim2SF f = S754_finite s m e ->
  Zdigits2 (Z.pos m) <= 53 /\ -1074 <= e <= 971.
Proof. intros H. apply (valid_finite_bounds s). rewrite <- H. apply Prim2SF_valid. Qed.

Lemma unit_interval_cases r :
  unit_interval r = true ->
  (exists s, Prim2SF r = S754_zero s) \/
  (exists m e, Prim2SF r = S754_finite false m e /\ e <= -52).
Proof.
  unfold unit_interval. rewrite leb_spec, ltb_spec.
  change (Prim2SF 0) with (S754_zero false).
  change (Prim2SF 1) with (S754_finite false 4503599627370496 (-52)).
  intros H. apply andb_prop in H. destruct H as [H1 H2].
  destruct (Prim2SF r) as [s|s| |s m e]; simpl in *; try discriminate.
  - left. eauto.
  - destruct s; discriminate.
  - right. destruct s; [discriminate|]. exists m, e. split; [reflexivity|].
    unfold SFltb, SFcompare in H2.
    destruct (Z.compare_spec e (-52)); try lia; discriminate.
Qed.

Lemma half_minus_finite r :
  unit_interval r = true -> not_special (Prim2SF (r - 0.5)%float).
Proof.
  intros H. rewrite sub_spec.
  change (Prim2SF 0.5) with (S754_finite false 4503599627370496 (-53)).
  destruct (unit_interval_cases r H) as [[s E]|(m & e & E & He)]; rewrite E.
  - exact I.
  - destruct (Prim2SF_finite_bounds _ _ _ _ E) as [Hd _].
    apply SFsub_finite; simpl in *; lia.
Qed.

(** With [jitter = 0] the perturbation [(r - 0.5) * 0 * 2] is a zero. *)
Lemma perturbation_zero r :
  unit_interval r = true ->
  exists s, Prim2SF ((r - 0.5) * 0 * 2)%float = S754_zero s.
Proof.
  intros H. pose proof (half_minus_finite r H) as Hf.
  rewrite mul_spec, mul_spec.
  change (Prim2SF 0) with (S754_zero false).
  change (Prim2SF 2) with (S754_finite false 4503599627370496 (-51)).
  destruct (Prim2SF (r - 0.5)%float) as [s|s| |s m e]; simpl in *;
    try contradiction; eauto.
Qed.

Lemma add_zero_exact v z s :
  Prim2SF z = S754_zero s -> is_neg_zero v = false -> (v + z)%float = v.
Proof.
  unfold is_neg_zero. intros Hz Hv. apply Prim2SF_inj.
  rewrite add_spec, Hz.
  destruct (Prim2SF v) as [[]|sv| |sv m e], s; simpl in *; congruence.
Qed.

Lemma add_zero_toString v z s :
  Prim2SF z = S754_zero s -> Num.toString (v + z)%float = Num.toString v.
Proof.
  intros Hz. unfold Num.toString. rewrite add_spec, Hz.
  destruct (Prim2SF v) as [[]|sv| |sv m e], s; reflexivity.
Qed.

Lemma Zdigits2_pos_nonzero z : 1 <= Zdigits2 z -> z <> 0.
Proof. intros H ->. simpl in H. lia. Qed.

(** Rounding a non-zero value at an exponent that binary64 has gives no zero:
    sums and differences do not underflow. *)
Lemma binary_round_nonzero s mx ex sz :
  -1074 <= ex -> binary_round prec emax s mx ex <> S754_zero sz.
Proof.
  intros He. unfold binary_round.
  pose proof (shl_align_spec mx ex (fexp prec emax (Z.pos (digits2_pos mx) + ex))) as H.
  destruct (shl_align mx ex _) as [mz ez]. destruct H as [Hez Hdz].
  unfold binary_round_aux.
  pose proof (shr_fexp_spec (Z.pos mz) ez loc_Exact ltac:(lia)) as H1.
  destruct (shr_fexp prec emax (Z.pos mz) ez loc_Exact) as [r1 e1].
  destruct H1 as (Hr1 & He1 & Hd1).
  pose proof (round_nearest_even_bounds (shr_m r1) (loc_of_shr_record r1)) as Hrd.
  set (m' := round_nearest_even (shr_m r1) (loc_of_shr_record r1)) in *.
  pose proof (shr_fexp_spec m' e1 loc_Exact ltac:(lia)) as H2.
  destruct (shr_fexp prec emax m' e1 loc_Exact) as [r2 e2].
  destruct H2 as (Hr2 & He2 & Hd2).
  assert (Hm1 : Zdigits2 (shr_m r1) <= Zdigits2 m') by (apply Zdigits2_mono; lia).
  assert (Hpos : 1 <= Zdigits2 (Z.pos mx)) by (simpl; lia).
  assert (Hnz : shr_m r2 <> 0).
  { apply Zdigits2_pos_nonzero.
    unfold fexp, SpecFloat.emin, prec, emax in *. simpl Zdigits2 in *. lia. }
  destruct (shr_m r2) as [|p|p]; [congruence| |discriminate].
  destruct (e2 <=? emax - prec); discriminate.
Qed.

Lemma add_not_neg_zero p c :
  is_neg_zero p = false -> is_neg_zero (p + c)%float = false.
Proof.
  unfold is_neg_zero. rewrite add_spec. intros Hp.
  destruct (Prim2SF p) as [sp|sp| |sp mp ep] eqn:Ep,
           (Prim2SF c) as [sc|sc| |sc mc ec] eqn:Ec;
    simpl in *; try reflexivity;
    try (destruct sp, sc; simpl in *; congruence).
  destruct (Prim2SF_finite_bounds _ _ _ _ Ep) as [_ Hep].
  destruct (Prim2SF_finite_bounds _ _ _ _ Ec) as [_ Hec].
  unfold SF64add, SFadd.
  set (mz := (cond_Zopp sp _ + cond_Zopp sc _)%Z).
  destruct mz as [|q|q]; simpl; [reflexivity| |].
  - destruct (binary_round prec emax false q (Z.min ep ec)) as [[]| | |] eqn:E;
      try reflexivity.
    exfalso. revert E. apply binary_round_nonzero. lia.
  - destruct (binary_round prec emax true q (Z.min ep ec)) as [[]| | |] eqn:E;
      try reflexivity.
    exfalso. revert E. apply binary_round_nonzero. lia.
Qed.
End FloatFacts.

(** ** Runs with [jitter = 0] *)

Section ZeroJitter.
Context {M : MathImpl}.
Variables random1 random2 : nat -> float.
Hypothesis unit1 : forall n, unit_interval (random1 n) = true.
Hypothesis unit2 : forall n, unit_interval (random2 n) = true.

Lemma sim_ret {A} (R : A -> A -> Prop) a b : R a b -> sim R (ret a) (ret b).
Proof. intros H n1 n2. exact H. Qed.

Lemma sim_bind {A B} (R : A -> A -> Prop) (S : B -> B -> Prop) m1 m2 k1 k2 :
  sim R m1 m2 -> (forall a1 a2, R a1 a2 -> sim S (k1 a1) (k2 a2)) ->
  sim S (bind m1 k1) (bind m2 k2).
Proof.
  intros Hm Hk n1 n2. unfold bind. specialize (Hm n1 n2).
  destruct (m1 n1) as [a1 n1'], (m2 n2) as [a2 n2']. apply Hk, Hm.
Qed.

Lemma distortCoord_text v :
  sim same_text (distortCoord random1 0 v) (distortCoord random2 0 v).
Proof.
  intros n1 n2. unfold distortCoord, same_text. simpl.
  destruct (perturbation_zero _ (unit1 n1)) as [s1 E1].
  destruct (perturbation_zero _ (unit2 n2)) as [s2 E2].
  rewrite (add_zero_toString _ _ _ E1), (add_zero_toString _ _ _ E2). reflexivity.
Qed.

Lemma distortCoord_exact v :
  is_neg_zero v = false ->
  sim eq (distortCoord random1 0 v) (distortCoord random2 0 v).
Proof.
  intros Hv n1 n2. unfold distortCoord. simpl.
  destruct (perturbation_zero _ (unit1 n1)) as [s1 E1].
  destruct (perturbation_zero _ (unit2 n2)) as [s2 E2].
  rewrite (add_zero_exact _ _ _ E1 Hv), (add_zero_exact _ _ _ E2 Hv). reflexivity.
Qed.

Lemma render_cmd_text l a b :
  Forall2 same_text a b -> render (Cmd l a) = render (Cmd l b).
Proof.
  intros H. simpl. f_equal. f_equal.
  induction H as [|x y a b Hxy _ IH]; simpl; [reflexivity|].
  unfold same_text in Hxy. rewrite Hxy, IH. reflexivity.
Qed.

Lemma emitCubic_sim b :
  sim (fun c1 c2 => render c1 = render c2)
      (emitCubic random1 0 b) (emitCubic random2 0 b).
Proof.
  unfold emitCubic.
  repeat (eapply sim_bind; [apply distortCoord_text|intros ? ? ?]).
  apply sim_ret, render_cmd_text. repeat constructor; assumption.
Qed.

Lemma emitArc_sim beziers : forall st,
  sim same_run (emitArc random1 0 beziers st) (emitArc random2 0 beziers st).
Proof.
  induction beziers as [|b rest IH]; intros st; simpl.
  - apply sim_ret. split; reflexivity.
  - eapply sim_bind; [apply emitCubic_sim|intros c1 c2 Hc].
    eapply sim_bind; [apply IH|intros [st1 o1] [st2 o2] [Hst Ho]].
    apply sim_ret. split; simpl in *; congruence.
Qed.

Lemma distortPair_sim relative cur xv yv :
  is_neg_zero xv = false -> is_neg_zero yv = false ->
  sim eq (distortPair random1 0 relative cur xv yv)
         (distortPair random2 0 relative cur xv yv).
Proof.
  intros Hx Hy. unfold distortPair.
  eapply sim_bind; [apply distortCoord_exact|intros ? ? ->].
  { destruct relative; [apply add_not_neg_zero|]; assumption. }
  eapply sim_bind; [apply distortCoord_exact|intros ? ? ->].
  { destruct relative; [apply add_not_neg_zero|]; assumption. }
  apply sim_ret. reflexivity.
Qed.

Lemma distortPairs_sim relative cur ps :
  clean ps ->
  sim eq (distortPairs random1 0 relative cur ps)
         (distortPairs random2 0 relative cur ps).
Proof.
  revert ps. fix IH 1. intros [|xv [|yv rest]] Hc; simpl.
  - apply sim_ret. reflexivity.
  - apply distortPair_sim; [inversion Hc; assumption|reflexivity].
  - inversion Hc as [|? ? Hx Hc']; subst. inversion Hc' as [|? ? Hy Hc'']; subst.
    eapply sim_bind; [apply distortPair_sim; assumption|intros ? ? ->].
    eapply sim_bind; [apply IH; assumption|intros ? ? ->].
    apply sim_ret. reflexivity.
Qed.

Lemma step_sim upper relative ps st :
  clean ps ->
  sim same_run (step random1 0 upper relative ps st)
               (step random2 0 upper relative ps st).
Proof.
  intros Hc. unfold step.
  destruct (Ascii.eqb upper "A"); [apply emitArc_sim|].
  destruct (Ascii.eqb upper "H").
  { repeat (eapply sim_bind; [apply distortCoord_text|intros ? ? ?]).
    apply sim_ret. split; [reflexivity|]. cbn [snd map]. f_equal.
    apply render_cmd_text. repeat constructor; assumption. }
  destruct (Ascii.eqb upper "V").
  { repeat (eapply sim_bind; [apply distortCoord_text|intros ? ? ?]).
    apply sim_ret. split; [reflexivity|]. cbn [snd map]. f_equal.
    apply render_cmd_text. repeat constructor; assumption. }
  destruct (Ascii.eqb upper "L").
  { eapply sim_bind; [apply emitCubic_sim|intros c1 c2 Hcc].
    apply sim_ret. split; [reflexivity|]. cbn [snd map]. congruence. }
  eapply sim_bind; [apply distortPairs_sim, Hc|intros ? ? ->].
  apply sim_ret. split; reflexivity.
Qed.

Lemma clean_firstn n ps : clean ps -> clean (firstn n ps).
Proof. apply Forall_take. Qed.
Lemma clean_skipn n ps : clean ps -> clean (skipn n ps).
Proof. apply Forall_drop. Qed.

Lemma groups_sim fuel upper relative pc : forall ps st,
  clean ps ->
  sim same_run (groups random1 0 fuel upper relative pc ps st)
               (groups random2 0 fuel upper relative pc ps st).
Proof.
  induction fuel as [|fuel IH]; intros ps st Hc; simpl.
  - apply sim_ret. split; reflexivity.
  - destruct ((0 <? List.length ps)%nat || (pc =? 0)%nat);
      [|apply sim_ret; split; reflexivity].
    destruct (Ascii.eqb upper "Z"); [apply sim_ret; split; reflexivity|].
    destruct (List.length (firstn pc ps) <? pc)%nat;
      [apply sim_ret; split; reflexivity|].
    eapply sim_bind; [apply step_sim, clean_firstn, Hc|].
    intros [st1 o1] [st2 o2] [Hst Ho]. simpl in Hst, Ho. subst st2.
    destruct (pc =? 0)%nat; [apply sim_ret; split; [reflexivity|exact Ho]|].
    eapply sim_bind; [apply IH, clean_skipn, Hc|].
    intros [st1' o1'] [st2' o2'] [Hst' Ho']. simpl in Hst', Ho'.
    apply sim_ret. split; simpl; [assumption|]. rewrite !map_app. congruence.
Qed.

Lemma command_sim m st :
  clean (parseParams m.2) ->
  sim same_run (command random1 0 m st) (command random2 0 m st).
Proof.
  destruct m as [c ps]. intros Hc. unfold command.
  destruct (paramCounts (Str.toUpperCase c)) as [pc|].
  - apply groups_sim, Hc.
  - apply sim_ret. split; reflexivity.
Qed.

Lemma commands_sim ms : forall st,
  Forall (fun m => clean (parseParams m.2)) ms ->
  sim same_run (commands random1 0 ms st) (commands random2 0 ms st).
Proof.
  induction ms as [|m rest IH]; intros st Hc; simpl.
  - apply sim_ret. split; reflexivity.
  - inversion Hc as [|? ? Hm Hrest]; subst.
    eapply sim_bind; [apply command_sim, Hm|].
    intros [st1 o1] [st2 o2] [Hst Ho]. simpl in Hst, Ho. subst st2.
    eapply sim_bind; [apply IH, Hrest|].
    intros [st1' o1'] [st2' o2'] [Hst' Ho']. simpl in Hst', Ho'.
    apply sim_ret. split; simpl; [assumption|]. rewrite !map_app. congruence.
Qed.

Lemma no_negative_zero_clean d :
  no_negative_zero d = true ->
  Forall (fun m => clean (parseParams m.2)) (Str.matches d).
Proof.
  unfold no_negative_zero, clean. rewrite forallb_forall, List.Forall_forall.
  intros H m Hm. specialize (H m Hm). rewrite forallb_forall in H.
  apply List.Forall_forall. intros v Hv. specialize (H v Hv).
  apply negb_true_iff in H. exact H.
Qed.

Lemma distortPath_sim d :
  no_negative_zero d = true ->
  sim eq (distortPath random1 0 d) (distortPath random2 0 d).
Proof.
  intros Hd. unfold distortPath, interpret.
  eapply sim_bind; [apply commands_sim, no_negative_zero_clean, Hd|].
  intros [st1 o1] [st2 o2] [Hst Ho]. simpl in Ho.
  apply sim_ret. rewrite Ho. reflexivity.
Qed.
End ZeroJitter.

(** ** C4: the concrete scenario *)

(** C4.  With jitter 0, and whatever [Math.random] returns in its range
    [0 <= r < 1], the path ["M0,0 L10,0 L10,10 Z"] is rewritten to
    ["M 0 0 C 3.3333333333333335 0 6.666666666666667 0 10 0 C 10 3.3333333333333335 10 6.666666666666667 10 10 Z"]:
    the two lines become cubics with their control points at the thirds. *)
Theorem C4_concrete_scenario {M : MathImpl} (random : nat -> float) (n : nat) :
  (forall k, unit_interval (random k) = true) ->
  (distortPath random 0 "M0,0 L10,0 L10,10 Z" n).1 =
  "M 0 0 C 3.3333333333333335 0 6.666666666666667 0 10 0 C 10 3.3333333333333335 10 6.666666666666667 10 10 Z".
Proof.
  intros Hr.
  rewrite (distortPath_sim random (fun _ => 0.5%float) Hr (fun _ => eq_refl)
             "M0,0 L10,0 L10,10 Z" eq_refl n 0%nat).
  vm_compute. reflexivity.
Qed.

Lemma C4_concrete_scenario_witness :
  (distortPath (M := RefMath.impl) (fun _ => 0.25%float) 0 "M0,0 L10,0 L10,10 Z" 0).1 =
  "M 0 0 C 3.3333333333333335 0 6.666666666666667 0 10 0 C 10 3.3333333333333335 10 6.666666666666667 10 10 Z".
Proof.
  apply (C4_concrete_scenario (M := RefMath.impl) (fun _ => 0.25%float) 0).
  intros k. reflexivity.
Defined.

(** ** C5: two runs with jitter 0 *)

(** C5, as it stands, fails.  The path ["M0,-0 A5 5 -0 0 1 10 0"] with jitter 0
    is rewritten differently by a run in which [Math.random] returns 0.25 and
    by one in which it returns 0.75: the moved-to ordinate [-0] stays [-0] in
    the first run and becomes [+0] in the second, [Math.atan2] then starts
    the arc at [-pi] in the first and at [pi] in the second, and the control
    points of the two arcs differ in their last digits.  (Computed with
    [RefMath].) *)
Lemma C5_counterexample :
  let d := "M0,-0 A5 5 -0 0 1 10 0" in
  let out1 := (distortPath (M := RefMath.impl) (fun _ => 0.25%float) 0 d 0).1 in
  let out2 := (distortPath (M := RefMath.impl) (fun _ => 0.75%float) 0 d 0).1 in
  unit_interval 0.25 = true /\ unit_interval 0.75 = true /\
  Str.take 46 out1 = "M 0 0 C 5.3511727961143405e-17 -0.436956418768" /\
  Str.take 46 out2 = "M 0 0 C -5.3511727961143405e-17 -0.43695641876" /\
  String.eqb out1 out2 = false.
Proof. vm_compute. repeat split; reflexivity. Qed.

(** C5, amended.  With jitter 0, two runs on the same path give the same
    output string, whatever [Math.random] returns in its range in either run
    and whatever the implementation of [Math], provided no parameter of the
    path is a negative zero. *)
Theorem C5_zero_jitter_deterministic {M : MathImpl}
    (random1 random2 : nat -> float) (d : string) (n1 n2 : nat) :
  (forall k, unit_interval (random1 k) = true) ->
  (forall k, unit_interval (random2 k) = true) ->
  no_negative_zero d = true ->
  (distortPath random1 0 d n1).1 = (distortPath random2 0 d n2).1.
Proof.
  intros H1 H2 Hd. exact (distortPath_sim random1 random2 H1 H2 d Hd n1 n2).
Qed.

Lemma C5_zero_jitter_deterministic_witness :
  (distortPath (M := RefMath.impl) (fun _ => 0.25%float) 0
     "M 100 100 L 200 100 A 100 100 0 0 1 100 200 Z" 0).1 =
  (distortPath (M := RefMath.impl) (fun _ => 0.75%float) 0
     "M 100 100 L 200 100 A 100 100 0 0 1 100 200 Z" 7).1.
Proof.
  apply (C5_zero_jitter_deterministic (M := RefMath.impl)).
  - intros k. reflexivity.
  - intros k. reflexivity.
  - vm_compute. reflexivity.
Defined.

(** ** C6 and C10: the layers that [makeDraftyPath] draws *)

Section Layers.
Context {M : MathImpl} {SVG : Type}.
Variable random : nat -> float.

Lemma draftyPass_spec jitter (svg : SVG) d a i (w : World SVG) :
  let l := fresh (dom (objects w)) in
  let out := distortPath random jitter d (randoms w) in
  draftyPass random jitter svg d a i w =
  {| objects := <[l := layerProps i (default ∅ (objects w !! a))]> (objects w);
     calls := calls w ++ [{| call_svg := svg; call_d := out.1; call_attrs := l;
                            call_props := layerProps i (default ∅ (objects w !! a)) |}];
     randoms := out.2 |}.
Proof.
  intros l out. unfold draftyPass. fold out. destruct out as [dd n].
  unfold spread, allocate, getProp, setProp, drawPathFn, layerProps. simpl.
  fold l. rewrite !lookup_insert_eq. simpl.
  destruct (i =? 0)%nat.
  - destruct (default ∅ (objects w !! a) !! "fill"); simpl;
      rewrite ?alter_insert_eq, ?lookup_insert_eq; reflexivity.
  - rewrite alter_insert_eq. simpl. rewrite lookup_insert_eq. simpl.
    rewrite lookup_insert_ne by discriminate.
    destruct (default ∅ (objects w !! a) !! "stroke"); simpl;
      rewrite ?alter_insert_eq, ?lookup_insert_eq; reflexivity.
Qed.

Lemma layerProps_stroke base : layerProps 0 base !! "stroke" = Some "none".
Proof. unfold layerProps. simpl. apply lookup_insert_eq. Qed.

Lemma layerProps_fill i base : i <> 0%nat -> layerProps i base !! "fill" = Some "none".
Proof.
  intros Hi. unfold layerProps. destruct (Nat.eqb_spec i 0); [contradiction|].
  cbv zeta. destruct (_ !! "stroke").
  - apply lookup_insert_eq.
  - rewrite lookup_insert_ne by discriminate. apply lookup_insert_eq.
Qed.

Lemma layerProps_other i base k :
  k <> "fill" -> k <> "stroke" -> layerProps i base !! k = base !! k.
Proof.
  intros Hf Hs. unfold layerProps. destruct (i =? 0)%nat.
  - rewrite lookup_insert_ne by congruence.
    destruct (base !! "fill"); [reflexivity|].
    rewrite lookup_insert_ne by congruence. reflexivity.
  - cbv zeta. destruct (_ !! "stroke").
    + rewrite lookup_insert_ne by congruence. reflexivity.
    + rewrite !lookup_insert_ne by congruence. reflexivity.
Qed.

(** What a run of passes leaves: the objects there were, untouched, and for
    each pass one call with a new object of its own, which has the
    properties of the layer when the call is made and keeps them. *)
Lemma passes_spec jitter (svg : SVG) d a (passes : list nat) : forall w : World SVG,
  let w' := fold_left (fun w i => draftyPass random jitter svg d a i w) passes w in
  objects w ⊆ objects w' /\
  exists new,
    calls w' = calls w ++ new /\
    Forall2 (fun i c =>
               call_svg c = svg /\ objects w !! call_attrs c = None /\
               exists base,
                 objects w' !! call_attrs c = Some (layerProps i base) /\
                 call_props c = layerProps i base /\
                 forall props, objects w !! a = Some props -> base = props)
            passes new.
Proof.
  induction passes as [|i rest IH]; intros w; simpl.
  - split; [reflexivity|]. exists []. rewrite app_nil_r. split; constructor.
  - rewrite draftyPass_spec.
    set (l := fresh (dom (objects w))).
    set (base := default ∅ (objects w !! a)).
    set (w1 := {| objects := _ |}).
    assert (Hl : objects w !! l = None) by (apply not_elem_of_dom, is_fresh).
    assert (Hsub : objects w ⊆ objects w1) by (apply insert_subseteq, Hl).
    destruct (IH w1) as (Hsub' & new & Hcalls & Hnew).
    split; [etransitivity; eassumption|].
    exists ({| call_svg := svg;
               call_d := (distortPath random jitter d (randoms w)).1;
               call_attrs := l;
               call_props := layerProps i base |} :: new).
    split; [rewrite Hcalls; simpl; rewrite <- app_assoc; reflexivity|].
    constructor.
    + simpl. repeat split; [exact Hl|]. exists base. split; [|split].
      * eapply lookup_weaken; [|exact Hsub']. apply lookup_insert_eq.
      * reflexivity.
      * intros props Hp. subst base. rewrite Hp. reflexivity.
    + eapply Forall2_impl; [exact Hnew|]. simpl.
      intros j c (Hsvg & Hnone & b & Hb & Hcp & Hbase). repeat split; [exact Hsvg| |].
      * destruct (objects w !! call_attrs c) as [g|] eqn:E; [|reflexivity].
        eapply lookup_weaken in E; [|exact Hsub].
        enough (Some g = None) by discriminate.
        etransitivity; [symmetry; exact E|exact Hnone].
      * exists b. split; [exact Hb|]. split; [exact Hcp|].
        intros props Hp. apply Hbase.
        eapply lookup_weaken; eassumption.
Qed.
End Layers.

(** C6.  One call of the function that [makeDraftyPath] returns makes exactly
    [repeats + 1] calls of the draw collaborator, after the calls there were
    and in this order ([repeats] is 3 when the options give none).  The call
    0, the fill layer, is made with [stroke = "none"]; the calls 1 to
    [repeats], the outline layers, are made with [fill = "none"]: the
    object handed over has the attribute when the call is made. *)
Theorem C6_layer_count {M : MathImpl} {SVG : Type} (random : nat -> float)
    (options : Options) (svg : SVG) (d : string) (attrs : option loc)
    (w : World SVG) :
  exists new : list (DrawCall SVG),
    calls (makeDraftyPath random options svg d attrs w) = calls w ++ new /\
    List.length new = (default 3 (options_repeats options) + 1)%nat /\
    Forall2 layer_ok (seq 0 (default 3 (options_repeats options) + 1)) new.
Proof.
  unfold makeDraftyPath.
  set (jitter := default _ (options_jitter options)).
  set (r := default _ (options_repeats options)).
  destruct (match attrs with Some a => (a, w) | None => allocate SVG ∅ w end)
    as [a w0] eqn:Ea.
  assert (Hcalls : calls w0 = calls w).
  { destruct attrs; inversion Ea; reflexivity. }
  destruct (passes_spec random jitter svg d a (seq 0 (r + 1)) w0)
    as (_ & new & Hnew & Hall).
  exists new. rewrite <- Hcalls. split; [exact Hnew|]. split.
  - rewrite <- (Forall2_length _ _ _ Hall), length_seq. reflexivity.
  - eapply Forall2_impl; [exact Hall|]. simpl.
    intros i c (_ & _ & base & _ & Hcp & _). unfold layer_ok.
    rewrite Hcp. destruct (Nat.eqb_spec i 0) as [->|Hi].
    + apply layerProps_stroke.
    + apply layerProps_fill, Hi.
Qed.

(** C10.  A call of the function that [makeDraftyPath] returns leaves the
    object [attrs] that the caller gives as it was, and every other object
    of the store too.  Each pass hands the draw collaborator a new object of
    its own, which agrees with [attrs] on every attribute but [fill] and
    [stroke]. *)
Theorem C10_attrs_unchanged {M : MathImpl} {SVG : Type} (random : nat -> float)
    (options : Options) (svg : SVG) (d : string) (attrs : loc)
    (props : gmap string string) (w : World SVG) :
  objects w !! attrs = Some props ->
  objects (makeDraftyPath random options svg d (Some attrs) w) !! attrs = Some props /\
  objects w ⊆ objects (makeDraftyPath random options svg d (Some attrs) w) /\
  Forall (fun c =>
            call_attrs c <> attrs /\ objects w !! call_attrs c = None /\
            forall key, key <> "fill" -> key <> "stroke" ->
              getProp (call_attrs c) key
                (makeDraftyPath random options svg d (Some attrs) w) = props !! key)
         (drop (List.length (calls w))
               (calls (makeDraftyPath random options svg d (Some attrs) w))).
Proof.
  intros Hp. unfold makeDraftyPath.
  set (jitter := default _ (options_jitter options)).
  set (r := default _ (options_repeats options)).
  destruct (passes_spec random jitter svg d attrs (seq 0 (r + 1)) w)
    as (Hsub & new & Hnew & Hall).
  split; [eapply lookup_weaken; eassumption|]. split; [exact Hsub|].
  rewrite Hnew, drop_app_length.
  eapply Forall2_Forall_r; [exact Hall|]. apply Forall_true. simpl.
  intros i c (_ & Hnone & base & Hb & _ & Hbase). split; [congruence|].
  split; [exact Hnone|]. intros key Hf Hs. unfold getProp. rewrite Hb. simpl.
  rewrite (Hbase props Hp). apply layerProps_other; assumption.
Qed.

Lemma C10_attrs_unchanged_witness :
  objects
    (makeDraftyPath (M := RefMath.impl) (SVG := unit) (fun _ => 0.25%float)
       {| options_jitter := None; options_repeats := None |} tt "M0,0 L10,0"
       (Some 1%positive)
       {| objects := {[ 1%positive := {[ "fill" := "red" ]} ]};
          calls := []; randoms := 0 |})
    !! 1%positive = Some {[ "fill" := "red" ]}.
Proof.
  apply (C10_attrs_unchanged (M := RefMath.impl) (SVG := unit)).
  reflexivity.
Defined.

(** X1.  What each layer is drawn with.  When the call 0, the fill layer, is
    made, the object handed over has for [fill] the [fill] of the caller's
    attributes, or ["black"] when they have none; when an outline layer is
    made, it has for [stroke] their [stroke], or ["black"] when they have
    none.  Every other attribute is that of the caller's attributes. *)
Theorem layer_colours {M : MathImpl} {SVG : Type} (random : nat -> float)
    (options : Options) (svg : SVG) (d : string) (attrs : loc)
    (props : gmap string string) (w : World SVG) :
  objects w !! attrs = Some props ->
  exists new : list (DrawCall SVG),
    calls (makeDraftyPath random options svg d (Some attrs) w) = calls w ++ new /\
    Forall2 (fun i c =>
               (if (i =? 0)%nat
                then call_props c !! "fill" = Some (default "black" (props !! "fill"))
                else call_props c !! "stroke"
                     = Some (default "black" (props !! "stroke"))) /\
               forall key, key <> "fill" -> key <> "stroke" ->
                 call_props c !! key = props !! key)
            (seq 0 (default 3 (options_repeats options) + 1)) new.
Proof.
  intros Hp. unfold makeDraftyPath.
  set (jitter := default _ (options_jitter options)).
  set (r := default _ (options_repeats options)).
  destruct (passes_spec random jitter svg d attrs (seq 0 (r + 1)) w)
    as (_ & new & Hnew & Hall).
  exists new. split; [exact Hnew|].
  eapply Forall2_impl; [exact Hall|]. simpl.
  intros i c (_ & _ & base & _ & Hcp & Hbase). rewrite (Hbase props Hp) in Hcp.
  rewrite Hcp. split; [|intros key Hf Hs; apply layerProps_other; assumption].
  unfold layerProps. destruct (i =? 0)%nat.
  - rewrite lookup_insert_ne by discriminate.
    destruct (props !! "fill") as [v|] eqn:E; simpl; [exact E|].
    apply lookup_insert_eq.
  - cbv zeta. rewrite lookup_insert_ne by discriminate.
    destruct (props !! "stroke") as [v|] eqn:E; simpl.
    + rewrite lookup_insert_ne by discriminate. exact E.
    + apply lookup_insert_eq.
Qed.

Lemma layer_colours_witness :
  exists new : list (DrawCall unit),
    calls (makeDraftyPath (M := RefMath.impl) (fun _ => 0.25%float)
             {| options_jitter := None; options_repeats := Some 1%nat |} tt "M0,0 L10,0"
             (Some 1%positive)
             {| objects := {[ 1%positive := {[ "fill" := "red" ]} ]};
                calls := []; randoms := 0 |}) = [] ++ new /\
    Forall2 (fun i c =>
               (if (i =? 0)%nat
                then call_props c !! "fill"
                     = Some (default "black"
                               (({[ "fill" := "red" ]} : gmap string string) !! "fill"))
                else call_props c !! "stroke"
                     = Some (default "black"
                               (({[ "fill" := "red" ]} : gmap string string) !! "stroke"))) /\
               forall key, key <> "fill" -> key <> "stroke" ->
                 call_props c !! key
                 = ({[ "fill" := "red" ]} : gmap string string) !! key)
            (seq 0 (1 + 1)) new.
Proof.
  apply (layer_colours (M := RefMath.impl) (SVG := unit) (fun _ => 0.25%float)
           {| options_jitter := None; options_repeats := Some 1%nat |} tt "M0,0 L10,0"
           1%positive {[ "fill" := "red" ]}).
  reflexivity.
Defined.

(** ** C2 and C3: arcs whose radii are too small *)

(** C2 fails on the code.  For the arc from (0, 0) to (10, 0) with radii 1,
    [lambda] is 25 and the squared radii are corrected to 25, which satisfy
    [x1p^2 / rx'^2 + y1p^2 / ry'^2 = 1]; but the radii [rx], [ry] themselves
    stay 1 and the segments are laid on the circle of radius 1 around (5, 0):
    the chain of the twelve segments ends at (6, -2.4e-16) and not at the
    requested end point (10, 0).  (Computed with [RefMath].) *)
Theorem C2_small_radii_chain_end :
  let f := arcFrame (M := RefMath.impl) (smallRadiiArc false true) in
  lambda f = 25%float /\ rx2 f = 25%float /\ ry2 f = 25%float /\
  (x1p f * x1p f / rx2 f + y1p f * y1p f / ry2 f)%float = 1%float /\
  List.length (arcToCubicBeziers (M := RefMath.impl) (smallRadiiArc false true)) = 12%nat /\
  (seg_p3 <$> last (arcToCubicBeziers (M := RefMath.impl) (smallRadiiArc false true)))
    = Some {| x := 6; y := -2.4492935982947064e-16 |}.
Proof. vm_compute. repeat split; reflexivity. Qed.

(** C3 fails on the code.  For the arc from (0, 0) to (10, 0) with radii 1
    and each of the four combinations of the two flags, the first segment
    starts at a point whose abscissa is more than 1e-6 away from that of the
    start point of the arc, and the last segment ends more than 1e-6 away
    from its end point: with the flags (false, true) the chain runs from
    (4, 1.2e-16) to (6, -2.4e-16).  (Computed with [RefMath].) *)
Theorem C3_small_radii_chain_ends :
  Forall (fun flags : bool * bool =>
            let arc := smallRadiiArc flags.1 flags.2 in
            exists b e,
              chainEnds (arcToCubicBeziers (M := RefMath.impl) arc) = Some (b, e) /\
              apart (x b) (px arc) = true /\ apart (x e) (cx arc) = true)
         [(false, false); (false, true); (true, false); (true, true)] /\
  chainEnds (arcToCubicBeziers (M := RefMath.impl) (smallRadiiArc false true)) =
    Some ({| x := 4; y := 1.2246467991473532e-16 |},
          {| x := 6; y := -2.4492935982947064e-16 |}).
Proof.
  split.
  - repeat constructor; eexists; eexists; vm_compute; repeat split; reflexivity.
  - vm_compute. reflexivity.
Qed.

(** ** C1: the commands of the output *)

Lemma pairs_ind {A : Type} (P : list A -> Prop) :
  P [] -> (forall a, P [a]) -> (forall a b l, P l -> P (a :: b :: l)) ->
  forall l, P l.
Proof.
  intros H0 H1 H2. fix IH 1. intros [|a [|b l]].
  - exact H0.
  - apply H1.
  - apply H2, IH.
Qed.

Section Emitted.
Context {M : MathImpl}.
Variable random : nat -> float.
Variable jitter : float.

Lemma always_ret {A} (P : A -> Prop) a : P a -> always P (ret a).
Proof. intros H n. exact H. Qed.

Lemma always_bind {A B} (P : A -> Prop) (Q : B -> Prop) m k :
  always P m -> (forall a, P a -> always Q (k a)) -> always Q (bind m k).
Proof.
  intros Hm Hk n. unfold bind. specialize (Hm n).
  destruct (m n) as [a n']. apply Hk, Hm.
Qed.

Lemma always_true {A} (m : Rand A) : always (fun _ => True) m.
Proof. intros n. exact I. Qed.

Lemma emitCubic_cubic b : always is_cubic (emitCubic random jitter b).
Proof.
  unfold emitCubic.
  repeat (eapply always_bind; [apply always_true|intros ? _]).
  apply always_ret. eexists. reflexivity.
Qed.

Lemma emitArc_cubic beziers : forall st,
  always (fun r => Forall is_cubic r.2) (emitArc random jitter beziers st).
Proof.
  induction beziers as [|b rest IH]; intros st; simpl.
  - apply always_ret. constructor.
  - eapply always_bind; [apply emitCubic_cubic|intros c Hc].
    eapply always_bind; [apply IH|intros [st' out] Hout].
    apply always_ret. constructor; assumption.
Qed.

Lemma is_cubic_ok c : is_cubic c -> emitted_ok c = true.
Proof. intros [args ->]. reflexivity. Qed.

Lemma paramCounts_known upper pc :
  paramCounts upper = Some pc ->
  In upper ["M"; "L"; "H"; "V"; "C"; "S"; "Q"; "T"; "A"; "Z"]%char.
Proof.
  destruct upper as [[] [] [] [] [] [] [] []]; simpl; intros H;
    try discriminate; tauto.
Qed.

Lemma step_ok upper relative seg st pc :
  paramCounts upper = Some pc ->
  always all_ok (step random jitter upper relative seg st).
Proof.
  intros Hpc. apply paramCounts_known in Hpc. simpl in Hpc.
  destruct Hpc as [<-|[<-|[<-|[<-|[<-|[<-|[<-|[<-|[<-|[<-|[]]]]]]]]]]];
    unfold step; cbn [Ascii.eqb Bool.eqb];
    lazymatch goal with
    | |- always _ (emitArc _ _ _ _) =>
        intros n; eapply Forall_impl; [apply emitArc_cubic|apply is_cubic_ok]
    | |- always _ (bind (emitCubic _ _ _) _) =>
        eapply always_bind; [apply emitCubic_cubic|intros c Hc];
        apply always_ret; repeat constructor; apply is_cubic_ok, Hc
    | |- _ =>
        repeat (eapply always_bind; [apply always_true|intros ? _]);
        apply always_ret; repeat constructor
    end.
Qed.

Lemma groups_ok fuel upper relative pc : forall rest st,
  paramCounts upper = Some pc ->
  always all_ok (groups random jitter fuel upper relative pc rest st).
Proof.
  induction fuel as [|fuel IH]; intros rest st Hpc; simpl.
  - apply always_ret. constructor.
  - destruct (_ || _); [|apply always_ret; constructor].
    destruct (Ascii.eqb_spec upper "Z") as [->|_];
      [apply always_ret; repeat constructor|].
    destruct (_ <? _)%nat; [apply always_ret; constructor|].
    eapply always_bind; [eapply step_ok, Hpc|intros [st' out] Hout].
    destruct (pc =? 0)%nat; [apply always_ret; exact Hout|].
    eapply always_bind; [apply IH, Hpc|intros [st'' out'] Hout'].
    apply always_ret. apply Forall_app. split; assumption.
Qed.

Lemma command_ok m st :
  always all_ok (command random jitter m st).
Proof.
  destruct m as [c ps]. unfold command.
  destruct (paramCounts (Str.toUpperCase c)) as [pc|] eqn:E.
  - eapply groups_ok, E.
  - apply always_ret. repeat constructor. simpl. rewrite E. reflexivity.
Qed.

Lemma commands_ok ms : forall st,
  always all_ok (commands random jitter ms st).
Proof.
  induction ms as [|m rest IH]; intros st; simpl.
  - apply always_ret. constructor.
  - eapply always_bind; [apply command_ok|intros [st' out] Hout].
    eapply always_bind; [apply IH|intros [st'' out'] Hout'].
    apply always_ret. apply Forall_app. split; assumption.
Qed.
Lemma emitCubic_spec (b : CubicSegment) n :
  emitCubic random jitter b n = (jitteredCubic random jitter b n, (n + 6)%nat).
Proof.
  unfold emitCubic, bind, distortCoord, ret, jitteredCubic, jittered.
  replace (n + 1)%nat with (S n) by lia.
  replace (n + 2)%nat with (S (S n)) by lia.
  replace (n + 3)%nat with (S (S (S n))) by lia.
  replace (n + 4)%nat with (S (S (S (S n)))) by lia.
  replace (n + 5)%nat with (S (S (S (S (S n))))) by lia.
  replace (n + 6)%nat with (S (S (S (S (S (S n)))))) by lia.
  reflexivity.
Qed.

Lemma emitArc_chunks beziers : forall st n,
  (emitArc random jitter beziers st n).1.2 =
  imap (fun i b => jitteredCubic random jitter b (n + 6 * i)) beziers.
Proof.
  induction beziers as [|b rest IH]; intros st n; [reflexivity|].
  cbn [emitArc]. unfold bind at 1. rewrite emitCubic_spec. unfold bind at 1.
  specialize (IH {| currentPoint := {| x := x (seg_p3 b); y := y (seg_p3 b) |};
                    subpathStart := subpathStart st |} (n + 6)%nat).
  destruct (emitArc random jitter rest _ (n + 6)) as [[st' out] n2].
  cbn [fst snd ret] in *. rewrite IH, imap_cons.
  f_equal; [f_equal; lia|]. apply imap_ext. intros i c _. simpl. f_equal. lia.
Qed.

Lemma padded_cons2 a b rest : padded (a :: b :: rest) = a :: b :: padded rest.
Proof. unfold padded. simpl. destruct (Nat.even (List.length rest)); reflexivity. Qed.

Lemma distortPairs_spec relative cur seg : forall n,
  distortPairs random jitter relative cur seg n =
  (jitteredParams random jitter relative cur seg n,
   (n + List.length (padded seg))%nat).
Proof.
  induction seg as [|xv|xv yv rest IH] using pairs_ind; intros n.
  - simpl. unfold ret. f_equal. lia.
  - cbn [distortPairs]. unfold distortPair, bind, distortCoord, ret, jitteredParams,
      padded, jittered, absolute. simpl.
    replace (n + 0)%nat with n by lia. replace (n + 1)%nat with (S n) by lia.
    replace (n + 2)%nat with (S (S n)) by lia.
    destruct relative; reflexivity.
  - cbn [distortPairs]. unfold bind at 1.
    unfold distortPair at 1. unfold bind, distortCoord, ret.
    fold (ret (A := list float)).
    rewrite (IH (S (S n))). unfold ret, jitteredParams.
    rewrite padded_cons2, !imap_cons. cbn [List.length app].
    f_equal; [|lia].
    unfold jittered, absolute. simpl.
    replace (n + 0)%nat with n by lia. replace (n + 1)%nat with (S n) by lia.
    f_equal. f_equal. apply imap_ext. intros i v _. simpl.
    replace (n + S (S i))%nat with (S (S (n + i))) by lia. reflexivity.
Qed.

(** C1, amended.  Every chunk that a run appends to the output is a command
    under one of the letters M, L, C, S, Q, T, Z, or the text of a match
    whose letter is no path command, copied as it stands.  A Horizontal or a
    Vertical command appends one Line command [L] with two numbers, the
    jittered coordinates of its end point, and not a Cubic.  A Line command
    appends one Cubic: that of the segment which [lineToBezier] gives from
    the current point to its end point, the six coordinates of its two
    control points and of its end point jittered.  An Arc command appends
    one such Cubic for each segment that [arcToCubicBeziers] gives, and
    nothing else.  A command M, C, S, Q or T is written again under its own
    letter, with its parameters made absolute and jittered. *)
Theorem C1_emitted_commands (d : string) (n : nat) :
  Forall (fun c => emitted_ok c = true) (interpret random jitter d n).1.2 /\
  (forall (relative : bool) (seg : list float) (st : ParserState) (k : nat),
     let cur := currentPoint st in
     let x0 :=
       if relative then (nth 0 seg nan + x cur)%float else nth 0 seg nan in
     let y0 :=
       if relative then (nth 0 seg nan + y cur)%float else nth 0 seg nan in
     let y1 :=
       if relative then (nth 1 seg nan + y cur)%float else nth 1 seg nan in
     (step random jitter "H" relative seg st k).1.2 =
       [Cmd "L" [jittered random jitter x0 k;
                 jittered random jitter (y cur) (k + 1)]] /\
     (step random jitter "V" relative seg st k).1.2 =
       [Cmd "L" [jittered random jitter (x cur) (k + 1);
                 jittered random jitter y0 k]] /\
     (step random jitter "L" relative seg st k).1.2 =
       [jitteredCubic random jitter (lineToBezier cur {| x := x0; y := y1 |}) k] /\
     (step random jitter "A" relative seg st k).1.2 =
       imap (fun i b => jitteredCubic random jitter b (k + 6 * i))
            (arcToCubicBeziers (arcOf relative seg st)) /\
     Forall (fun upper =>
               (step random jitter upper relative seg st k).1.2 =
               [Cmd upper (jitteredParams random jitter relative cur seg k)])
            ["M"; "C"; "S"; "Q"; "T"]%char).
Proof.
  split; [apply commands_ok|].
  intros relative seg st k cur x0 y0 y1.
  split; [replace (k + 1)%nat with (S k) by lia; reflexivity|].
  split; [replace (k + 1)%nat with (S k) by lia; reflexivity|].
  split.
  { unfold step. cbn [Ascii.eqb Bool.eqb]. unfold bind.
    fold cur. fold x0. fold y1. rewrite emitCubic_spec. reflexivity. }
  split.
  { unfold step. cbn [Ascii.eqb Bool.eqb]. apply emitArc_chunks. }
  repeat constructor; unfold step; cbn [Ascii.eqb Bool.eqb]; unfold bind;
    fold cur; rewrite distortPairs_spec; reflexivity.
Qed.
End Emitted.

(** C1, as it stands, fails.  With jitter 0 the path ["H5"] is rewritten to
    the Line command ["L 5 0"], and ["Q1,2,3,4"] is written again as a
    Quadratic command: neither is a Move, a Cubic or a Close. *)
Lemma C1_counterexample :
  (interpret (M := RefMath.impl) (fun _ => 0.25%float) 0 "H5" 0).1.2
    = [Cmd "L" [5%float; 0%float]] /\
  forallb mcz_only
    (interpret (M := RefMath.impl) (fun _ => 0.25%float) 0 "H5" 0).1.2 = false /\
  (distortPath (M := RefMath.impl) (fun _ => 0.25%float) 0 "H5" 0).1 = "L 5 0" /\
  (distortPath (M := RefMath.impl) (fun _ => 0.25%float) 0 "Q1,2,3,4" 0).1
    = "Q 1 2 3 4".
Proof. vm_compute. repeat split; reflexivity. Qed.


(** ** C9: the current point *)

Section State.
Context {M : MathImpl}.
Variable random : nat -> float.
Variable jitter : float.

Lemma emitArc_state beziers : forall st n,
  (emitArc random jitter beziers st n).1.1 =
  match last beziers with
  | Some b => moveTo {| x := x (seg_p3 b); y := y (seg_p3 b) |} st
  | None => st
  end.
Proof.
  induction beziers as [|b rest IH]; intros st n; [reflexivity|].
  cbn [emitArc]. unfold bind at 1.
  destruct (emitCubic random jitter b n) as [c n1].
  unfold bind at 1.
  specialize (IH (moveTo {| x := x (seg_p3 b); y := y (seg_p3 b) |} st) n1).
  change {| currentPoint := {| x := x (seg_p3 b); y := y (seg_p3 b) |};
            subpathStart := subpathStart st |}
    with (moveTo {| x := x (seg_p3 b); y := y (seg_p3 b) |} st).
  destruct (emitArc random jitter rest _ n1) as [[st' out] n2].
  cbn [fst snd ret] in *. rewrite IH, last_cons.
  destruct (last rest); reflexivity.
Qed.

(** C9, amended.  How one command moves the current point.  After a MoveTo,
    a CubicTo, a SmoothCubicTo, a QuadraticTo or a SmoothQuadraticTo the
    current point (and after a MoveTo the subpath start too) is the last
    pair of the numbers written to the output, which are jittered.  After a
    LineTo, a Horizontal or a Vertical it is the absolute end point as
    computed from the parameters, not the jittered one that is written.
    After an ArcTo it is the end [p3] of the last segment that
    [arcToCubicBeziers] gives for the arc, not the jittered one that is
    written, and it is the point it was when the arc has no segment.  The
    last part shows a LineTo with jitter 1 after which the written end point
    (10.5, 0.5) and the current point (10, 0) differ. *)
Theorem C9_current_point (relative : bool) (seg : list float)
    (st : ParserState) (n : nat) :
  let cur := currentPoint st in
  let x0 := if relative then (nth 0 seg nan + x cur)%float else nth 0 seg nan in
  let y0 := if relative then (nth 0 seg nan + y cur)%float else nth 0 seg nan in
  let y1 := if relative then (nth 1 seg nan + y cur)%float else nth 1 seg nan in
  (exists coords,
     (step random jitter "M" relative seg st n).1 =
     ({| currentPoint := lastPair coords; subpathStart := lastPair coords |},
      [Cmd "M" coords])) /\
  Forall (fun upper =>
            exists coords,
              (step random jitter upper relative seg st n).1 =
              (moveTo (lastPair coords) st, [Cmd upper coords]))
         ["C"; "S"; "Q"; "T"]%char /\
  (exists c1x c1y c2x c2y,
     (step random jitter "L" relative seg st n).1 =
     (moveTo {| x := x0; y := y1 |} st,
      [Cmd "C" [c1x; c1y; c2x; c2y;
                jittered random jitter x0 (n + 4);
                jittered random jitter y1 (n + 5)]])) /\
  (step random jitter "H" relative seg st n).1 =
    (moveTo {| x := x0; y := y cur |} st,
     [Cmd "L" [jittered random jitter x0 n;
               jittered random jitter (y cur) (n + 1)]]) /\
  (step random jitter "V" relative seg st n).1 =
    (moveTo {| x := x cur; y := y0 |} st,
     [Cmd "L" [jittered random jitter (x cur) (n + 1);
               jittered random jitter y0 n]]) /\
  (step random jitter "A" relative seg st n).1.1 =
    match last (arcToCubicBeziers (arcOf relative seg st)) with
    | Some b => moveTo {| x := x (seg_p3 b); y := y (seg_p3 b) |} st
    | None => st
    end /\
  (step (fun _ => 0.75%float) 1 "L" false [10%float; 0%float] initialState 0).1 =
    (moveTo {| x := 10; y := 0 |} initialState,
     [Cmd "C" [3.8333333333333335%float; 0.5%float; 7.166666666666667%float;
               0.5%float; 10.5%float; 0.5%float]]).
Proof.
  intros cur x0 y0 y1.
  assert (Hgen : forall upper st',
            (forall coords,
               match upper with
               | "M"%char =>
                   {| currentPoint := lastPair coords; subpathStart := lastPair coords |}
               | "L"%char | "T"%char | "C"%char | "S"%char | "Q"%char =>
                   {| currentPoint := lastPair coords; subpathStart := subpathStart st |}
               | _ => st
               end = st' coords) ->
            exists coords,
              (bind (distortPairs random jitter relative cur seg)
                 (fun coords =>
                    ret (match upper with
                         | "M"%char =>
                             {| currentPoint := lastPair coords;
                                subpathStart := lastPair coords |}
                         | "L"%char | "T"%char | "C"%char | "S"%char | "Q"%char =>
                             {| currentPoint := lastPair coords;
                                subpathStart := subpathStart st |}
                         | _ => st
                         end, [Cmd upper coords])) n).1 =
              (st' coords, [Cmd upper coords])).
  { intros upper st' H. unfold bind.
    destruct (distortPairs random jitter relative cur seg n) as [coords n'].
    exists coords. simpl. rewrite H. reflexivity. }
  split; [apply (Hgen "M"%char (fun coords => _)); reflexivity|].
  split.
  { repeat constructor;
      lazymatch goal with
      | |- exists _, (step _ _ ?u _ _ _ _).1 = _ =>
          apply (Hgen u (fun coords => moveTo (lastPair coords) st)); reflexivity
      end. }
  split.
  { unfold step. cbn [Ascii.eqb Bool.eqb]. fold cur. fold x0. fold y1.
    do 4 eexists. replace (n + 4)%nat with (S (S (S (S n)))) by lia.
    replace (n + 5)%nat with (S (S (S (S (S n))))) by lia. reflexivity. }
  split.
  { replace (n + 1)%nat with (S n) by lia. reflexivity. }
  split.
  { replace (n + 1)%nat with (S n) by lia. reflexivity. }
  split; [|vm_compute; reflexivity].
  unfold step. cbn [Ascii.eqb Bool.eqb]. apply emitArc_state.
Qed.
End State.

(** C9, as it stands, fails for ArcTo.  The arc of ["M1,1 A0 0 0 0 1 10 0"] has
    zero radii: the conversion gives no segment, nothing is written for it,
    and the current point stays (1, 1) and is not set to the end point
    (10, 0) of the command.  The arc of ["A1 1 0 0 1 10 0"] is converted to
    segments that end at (6, -2.4e-16), which the current point becomes,
    and not at its end point (10, 0).  (Computed with [RefMath].) *)
Lemma C9_counterexample :
  (interpret (M := RefMath.impl) (fun _ => 0.25%float) 0 "M1,1 A0 0 0 0 1 10 0" 0).1
    = ({| currentPoint := {| x := 1; y := 1 |};
          subpathStart := {| x := 1; y := 1 |} |},
       [Cmd "M" [1%float; 1%float]]) /\
  currentPoint
    (interpret (M := RefMath.impl) (fun _ => 0.25%float) 0 "A1 1 0 0 1 10 0" 0).1.1
    = {| x := 6; y := -2.4492935982947064e-16 |}.
Proof. vm_compute. split; reflexivity. Qed.

(** ** C7: incomplete commands *)

Lemma non_letters_app_letter s c r :
  Str.is_letter c = true ->
  Str.non_letters (s +:+ String c r) = Str.non_letters s.
Proof.
  intros Hc. induction s as [|a s IH]; simpl.
  - rewrite Hc. reflexivity.
  - destruct (Str.is_letter a); [reflexivity|]. rewrite IH. reflexivity.
Qed.

(** A command at the end of the path is the last match. *)
Lemma matches_app_letter s c ps :
  Str.is_letter c = true -> letter_free ps ->
  Str.matches (s +:+ String c ps) = Str.matches s ++ [(c, ps)].
Proof.
  intros Hc Hps. induction s as [|a s IH]; simpl.
  - rewrite Hc. f_equal; [rewrite Hps; reflexivity|].
    unfold letter_free in Hps. clear Hc. revert Hps.
    induction ps as [|b ps IHps]; simpl; [reflexivity|].
    destruct (Str.is_letter b); [discriminate|].
    intros H. apply IHps. congruence.
  - rewrite IH, non_letters_app_letter by exact Hc.
    destruct (Str.is_letter a); reflexivity.
Qed.

Section Incomplete.
Context {M : MathImpl}.
Variable random : nat -> float.
Variable jitter : float.

Lemma commands_app ms1 ms2 : forall st n,
  commands random jitter (ms1 ++ ms2) st n =
  let '((st1, out1), n1) := commands random jitter ms1 st n in
  let '((st2, out2), n2) := commands random jitter ms2 st1 n1 in
  ((st2, out1 ++ out2), n2).
Proof.
  induction ms1 as [|m rest IH]; intros st n; simpl.
  - destruct (commands random jitter ms2 st n) as [[st2 out2] n2]. reflexivity.
  - unfold bind, ret. destruct (command random jitter m st n) as [[st' out] n'].
    rewrite IH.
    destruct (commands random jitter rest st' n') as [[st1 out1] n1].
    destruct (commands random jitter ms2 st1 n1) as [[st2 out2] n2].
    rewrite app_assoc. reflexivity.
Qed.

(** The parameters left over after the last whole group are dropped. *)
Lemma groups_incomplete upper relative pc k : forall fuel complete rest st n,
  paramCounts upper = Some pc ->
  List.length complete = (k * pc)%nat -> (List.length rest < pc)%nat ->
  groups random jitter fuel upper relative pc (complete ++ rest) st n =
  groups random jitter fuel upper relative pc complete st n.
Proof.
  induction k as [|k IH]; intros fuel complete rest st n Hpc Hlen Hrest.
  - destruct complete; [|discriminate]. simpl app.
    destruct fuel as [|fuel]; [reflexivity|]. cbn [groups].
    assert (Hnz : (pc =? 0)%nat = false) by (apply Nat.eqb_neq; lia).
    rewrite Hnz. simpl List.length. rewrite orb_false_r.
    destruct (Ascii.eqb_spec upper "Z") as [->|_].
    { simpl in Hpc. inversion Hpc. lia. }
    destruct rest as [|r rest']; [reflexivity|].
    replace (0 <? List.length (r :: rest'))%nat with true by reflexivity.
    rewrite firstn_all2 by lia.
    apply Nat.ltb_lt in Hrest. rewrite Hrest. reflexivity.
  - assert (Hpos : (0 < pc)%nat) by lia.
    destruct fuel as [|fuel]; [reflexivity|]. cbn [groups].
    assert (Hnz : (pc =? 0)%nat = false) by (apply Nat.eqb_neq; lia).
    rewrite Hnz, !orb_false_r.
    assert (Hc : (pc <= List.length complete)%nat) by (simpl in Hlen; lia).
    replace (0 <? List.length (complete ++ rest))%nat with true
      by (symmetry; apply Nat.ltb_lt; rewrite length_app; lia).
    replace (0 <? List.length complete)%nat with true
      by (symmetry; apply Nat.ltb_lt; lia).
    destruct (Ascii.eqb upper "Z"); [reflexivity|].
    rewrite firstn_app, skipn_app.
    replace (pc - List.length complete)%nat with 0%nat by lia.
    rewrite firstn_O, skipn_O, app_nil_r.
    destruct (_ <? _)%nat; [reflexivity|].
    unfold bind. destruct (step _ _ _ _ _ _ _) as [[st' out] n'].
    rewrite (IH fuel (skipn pc complete) rest st' n' Hpc); [reflexivity| |exact Hrest].
    rewrite length_skipn. simpl in Hlen. lia.
Qed.

Lemma groups_nil fuel upper relative pc st n :
  (0 < pc)%nat ->
  groups random jitter fuel upper relative pc [] st n = ((st, []), n).
Proof.
  intros Hpc. destruct fuel; [reflexivity|]. simpl.
  replace (pc =? 0)%nat with false by (symmetry; apply Nat.eqb_neq; lia).
  reflexivity.
Qed.

(** The inner loop ends before its fuel does. *)
Lemma groups_fuel upper relative pc fuel1 : forall fuel2 rest st n,
  (List.length rest < fuel1)%nat -> (List.length rest < fuel2)%nat ->
  groups random jitter fuel1 upper relative pc rest st n =
  groups random jitter fuel2 upper relative pc rest st n.
Proof.
  induction fuel1 as [|fuel1 IH]; intros fuel2 rest st n H1 H2; [lia|].
  destruct fuel2 as [|fuel2]; [lia|]. cbn [groups].
  destruct (_ || _); [|reflexivity].
  destruct (Ascii.eqb upper "Z"); [reflexivity|].
  destruct (Nat.ltb_spec (List.length (firstn pc rest)) pc) as [|Hge]; [reflexivity|].
  unfold bind. destruct (step _ _ _ _ _ _ _) as [[st' out] n'].
  destruct (Nat.eqb_spec pc 0) as [|Hpc]; [reflexivity|].
  rewrite length_firstn in Hge.
  rewrite (IH fuel2); [reflexivity| |]; rewrite length_skipn; lia.
Qed.

(** C7.  A command at the end of the path whose parameters do not fill its
    last group: the parameters [rest] that are left over, fewer than the
    arity [pc] of the command, are dropped.  The run is the run on the path
    before the command followed by the whole groups [complete] only: the
    left-over parameters add no output, do not move the current point and
    draw no random number.  When there is no whole group at all ([k = 0],
    as in ["L10"]) the run and the output are those of the path without the
    command. *)
Theorem C7_incomplete_command_dropped (d : string) (c : ascii) (ps : string)
    (pc k : nat) (complete rest : list float) (n : nat) :
  Str.is_letter c = true -> letter_free ps ->
  paramCounts (Str.toUpperCase c) = Some pc ->
  parseParams ps = complete ++ rest ->
  List.length complete = (k * pc)%nat -> (List.length rest < pc)%nat ->
  interpret random jitter (d +:+ String c ps) n =
    (let '((st1, out1), n1) := interpret random jitter d n in
     let '((st2, out2), n2) :=
       groups random jitter (S (List.length complete)) (Str.toUpperCase c)
         (negb (Ascii.eqb c (Str.toUpperCase c))) pc complete st1 n1 in
     ((st2, out1 ++ out2), n2)) /\
  (k = 0%nat ->
   interpret random jitter (d +:+ String c ps) n = interpret random jitter d n /\
   distortPath random jitter (d +:+ String c ps) n = distortPath random jitter d n).
Proof.
  intros Hc Hps Hpc Hparams Hlen Hrest.
  assert (Hmain :
    interpret random jitter (d +:+ String c ps) n =
    (let '((st1, out1), n1) := interpret random jitter d n in
     let '((st2, out2), n2) :=
       groups random jitter (S (List.length complete)) (Str.toUpperCase c)
         (negb (Ascii.eqb c (Str.toUpperCase c))) pc complete st1 n1 in
     ((st2, out1 ++ out2), n2))).
  { unfold interpret. rewrite (matches_app_letter d c ps Hc Hps), commands_app.
    destruct (commands random jitter (Str.matches d) initialState n)
      as [[st1 out1] n1].
    cbn [commands]. unfold bind, ret, command. rewrite Hpc, Hparams.
    rewrite (groups_incomplete _ _ _ k _ complete rest st1 n1 Hpc Hlen Hrest).
    rewrite (groups_fuel _ _ _ _ (S (List.length complete)))
      by (rewrite ?length_app; lia).
    destruct (groups _ _ _ _ _ _ _ _ _) as [[st2 out2] n2].
    rewrite app_nil_r. reflexivity. }
  split; [exact Hmain|]. intros ->.
  assert (Hd : interpret random jitter (d +:+ String c ps) n
               = interpret random jitter d n).
  { rewrite Hmain. destruct complete; [|discriminate].
    destruct (interpret random jitter d n) as [[st1 out1] n1].
    rewrite groups_nil by lia. rewrite app_nil_r. reflexivity. }
  split; [exact Hd|]. unfold distortPath, bind. rewrite Hd. reflexivity.
Qed.
End Incomplete.
Lemma C7_incomplete_command_dropped_witness :
  interpret (M := RefMath.impl) (fun _ => 0.25%float) 1.2 "L10" 0 =
  ((initialState, []), 0%nat).
Proof.
  apply (C7_incomplete_command_dropped (M := RefMath.impl) (fun _ => 0.25%float)
           1.2 "" "L" "10" 2 0 [] [10%float] 0);
    [reflexivity|reflexivity|reflexivity|reflexivity|reflexivity|
     simpl; lia|reflexivity].
Defined.

(* ===================================================================== *)
(** * Further properties of the interpreter and of the layers            *)
(* ===================================================================== *)

(** ** The random numbers drawn *)


Section Draws.
Context {M : MathImpl}.
Variable random : nat -> float.
Variable jitter : float.

Lemma numbers_app a b : numbers (a ++ b) = (numbers a + numbers b)%nat.
Proof. unfold numbers. rewrite map_app, list_sum_app. reflexivity. Qed.

Lemma counted_ret st out : numbers out = 0%nat -> counted (ret (st, out)).
Proof. intros H n. exists st, out. unfold ret. rewrite H, Nat.add_0_r. reflexivity. Qed.

Lemma emitCubic_draws (s : CubicSegment) n :
  exists a b c d e f,
    emitCubic random jitter s n = (Cmd "C" [a; b; c; d; e; f], (n + 6)%nat).
Proof.
  unfold emitCubic, bind, distortCoord, ret. do 6 eexists.
  replace (n + 6)%nat with (S (S (S (S (S (S n)))))) by lia. reflexivity.
Qed.

Lemma emitArc_counted beziers : forall st, counted (emitArc random jitter beziers st).
Proof.
  induction beziers as [|b rest IH]; intros st; [apply counted_ret; reflexivity|].
  intros n. cbn [emitArc]. unfold bind at 1.
  destruct (emitCubic_draws b n) as (a1 & a2 & a3 & a4 & a5 & a6 & ->).
  unfold bind at 1.
  destruct (IH {| currentPoint := {| x := x (seg_p3 b); y := y (seg_p3 b) |};
                  subpathStart := subpathStart st |} (n + 6)%nat) as (st' & out & ->).
  do 2 eexists. unfold ret. f_equal; try (unfold numbers; simpl; lia).
Qed.

Lemma distortPair_draws relative cur xv yv n :
  exists a b, distortPair random jitter relative cur xv yv n = ([a; b], (n + 2)%nat).
Proof.
  unfold distortPair, bind, distortCoord, ret. do 2 eexists.
  replace (n + 2)%nat with (S (S n)) by lia. reflexivity.
Qed.

Lemma distortPairs_draws relative cur ps : forall n,
  exists coords,
    distortPairs random jitter relative cur ps n = (coords, (n + List.length coords)%nat).
Proof.
  revert ps. fix IH 1. intros [|xv [|yv rest]] n.
  - exists []. simpl. unfold ret. f_equal. lia.
  - cbn [distortPairs]. destruct (distortPair_draws relative cur xv nan n) as (a & b & ->).
    exists [a; b]. reflexivity.
  - cbn [distortPairs]. unfold bind at 1.
    destruct (distortPair_draws relative cur xv yv n) as (a & b & ->).
    unfold bind at 1. destruct (IH rest (n + 2)%nat) as (coords & ->).
    eexists. unfold ret. f_equal. simpl. lia.
Qed.

Lemma step_counted upper relative seg st :
  counted (step random jitter upper relative seg st).
Proof.
  unfold step.
  destruct (Ascii.eqb upper "A"); [apply emitArc_counted|].
  destruct (Ascii.eqb upper "H").
  { intros n. do 2 eexists. unfold bind, distortCoord, ret. f_equal;
    try (unfold numbers; simpl; lia). }
  destruct (Ascii.eqb upper "V").
  { intros n. do 2 eexists. unfold bind, distortCoord, ret. f_equal;
    try (unfold numbers; simpl; lia). }
  destruct (Ascii.eqb upper "L").
  { intros n. unfold bind at 1.
    match goal with |- context [emitCubic _ _ ?s n] =>
      destruct (emitCubic_draws s n) as (a1 & a2 & a3 & a4 & a5 & a6 & ->) end.
    do 2 eexists. unfold ret. f_equal; try (unfold numbers; simpl; lia). }
  intros n. unfold bind at 1.
  destruct (distortPairs_draws relative (currentPoint st) seg n) as (coords & ->).
  do 2 eexists. unfold ret. f_equal; try (unfold numbers; simpl; lia).
Qed.

Lemma groups_counted fuel upper relative pc : forall rest st,
  counted (groups random jitter fuel upper relative pc rest st).
Proof.
  induction fuel as [|fuel IH]; intros rest st; simpl.
  - apply counted_ret; reflexivity.
  - destruct (_ || _); [|apply counted_ret; reflexivity].
    destruct (Ascii.eqb upper "Z"); [apply counted_ret; reflexivity|].
    destruct (_ <? _)%nat; [apply counted_ret; reflexivity|].
    intros n. unfold bind at 1.
    destruct (step_counted upper relative (firstn pc rest) st n) as (st' & out & ->).
    destruct (pc =? 0)%nat; [do 2 eexists; reflexivity|].
    unfold bind at 1.
    destruct (IH (skipn pc rest) st' (n + numbers out)%nat) as (st'' & out' & ->).
    do 2 eexists. unfold ret. f_equal; try (rewrite numbers_app; lia).
Qed.

Lemma command_counted m st : counted (command random jitter m st).
Proof.
  destruct m as [c ps]. unfold command.
  destruct (paramCounts (Str.toUpperCase c)); [apply groups_counted|].
  apply counted_ret. reflexivity.
Qed.

Lemma commands_counted ms : forall st, counted (commands random jitter ms st).
Proof.
  induction ms as [|m rest IH]; intros st; simpl.
  - apply counted_ret; reflexivity.
  - intros n. unfold bind at 1.
    destruct (command_counted m st n) as (st' & out & ->).
    unfold bind at 1.
    destruct (IH st' (n + numbers out)%nat) as (st'' & out' & ->).
    do 2 eexists. unfold ret. f_equal; try (rewrite numbers_app; lia).
Qed.

(** X4.  [distortPath] calls [Math.random] once for each number that it
    writes in a command of its output, and not otherwise: after the run the
    count of the calls has grown by the count of those numbers. *)
Theorem random_draws (d : string) (n : nat) :
  (distortPath random jitter d n).2 =
  (n + numbers (interpret random jitter d n).1.2)%nat.
Proof.
  unfold distortPath, bind, interpret.
  destruct (commands_counted (Str.matches d) initialState n) as (st & out & ->).
  reflexivity.
Qed.
End Draws.

(** ** The matches of the command pattern *)



Lemma matches_cover d :
  Str.non_letters d +:+ Str.concat (map matchText (Str.matches d)) = d.
Proof.
  induction d as [|c r IH]; [reflexivity|]. cbn [Str.non_letters Str.matches].
  destruct (Str.is_letter c);
    change (String c (Str.non_letters r +:+ Str.concat (map matchText (Str.matches r)))
            = String c r);
    rewrite IH; reflexivity.
Qed.

(** X6.  The matches of the command pattern cover the path: the text before
    the first letter, followed by the matches in order, is the path itself;
    and each match is one letter followed by text without a letter. *)
Theorem tokens_cover_input (d : string) :
  Str.non_letters d +:+ Str.concat (map matchText (Str.matches d)) = d /\
  Forall (fun m => Str.is_letter m.1 = true /\ letter_free m.2) (Str.matches d).
Proof.
  split; [apply matches_cover|].
  induction d as [|c r IH]; simpl; [constructor|].
  destruct (Str.is_letter c) eqn:E; [|exact IH].
  constructor; [|exact IH]. split; [exact E|]. simpl. unfold letter_free.
  clear. induction r as [|a r IH]; simpl; [reflexivity|].
  destruct (Str.is_letter a) eqn:E; simpl; [reflexivity|]. rewrite E, IH. reflexivity.
Qed.

Lemma drop_length_app a b : Str.drop (String.length a) (a +:+ b) = b.
Proof. induction a as [|c a IH]; simpl; [destruct b; reflexivity|exact IH]. Qed.

Section Tokens.
Context {M : MathImpl}.
Variable random : nat -> float.
Variable jitter : float.

Lemma commands_unknown ms : forall st n,
  forallb (fun m => match paramCounts (Str.toUpperCase m.1) with
                    | None => true
                    | Some _ => false
                    end) ms = true ->
  commands random jitter ms st n = ((st, map (fun m => Raw (matchText m)) ms), n).
Proof.
  induction ms as [|[c ps] rest IH]; intros st n H; [reflexivity|].
  simpl in H. apply andb_prop in H. destruct H as [Hc Hrest].
  cbn [commands]. unfold bind at 1. unfold command.
  destruct (paramCounts (Str.toUpperCase c)); [discriminate|].
  unfold ret at 1. unfold bind. rewrite (IH st n Hrest). reflexivity.
Qed.

(** X2.  A path none of whose letters is one of M, L, H, V, C, S, Q, T, A, Z
    (in either case) passes through [distortPath] as it stands, from its first
    letter on and trimmed: every match is appended verbatim, letter and text,
    and no random number is drawn. *)
Theorem unknown_letters_pass_through (d : string) (n : nat) :
  no_command d = true ->
  distortPath random jitter d n =
  (Str.trim (Str.drop (String.length (Str.non_letters d)) d), n).
Proof.
  intros H. unfold distortPath, bind, interpret.
  rewrite (commands_unknown _ _ _ H). unfold ret. f_equal. f_equal.
  rewrite map_map. simpl.
  rewrite <- (matches_cover d) at 3. rewrite drop_length_app. reflexivity.
Qed.
End Tokens.

(** The path [" 12 x1,2 y 3 "] has the letters [x] and [y] only. *)
Lemma unknown_letters_pass_through_witness :
  distortPath (M := RefMath.impl) (fun _ => 0.25%float) 1.2 " 12 x1,2 y 3 " 0 =
  ("x1,2 y 3", 0%nat).
Proof.
  apply (unknown_letters_pass_through (M := RefMath.impl) (fun _ => 0.25%float) 1.2
           " 12 x1,2 y 3 " 0).
  reflexivity.
Defined.

(** ** The groups of one command *)


Section Groups.
Context {M : MathImpl}.
Variable random : nat -> float.
Variable jitter : float.

Lemma distortPairs_even relative cur ps : forall n,
  Nat.even (List.length ps) = true ->
  List.length (distortPairs random jitter relative cur ps n).1 = List.length ps.
Proof.
  revert ps. fix IH 1. intros [|xv [|yv rest]] n H.
  - reflexivity.
  - discriminate.
  - cbn [distortPairs]. unfold bind at 1.
    destruct (distortPair_draws random jitter relative cur xv yv n) as (a & b & ->).
    unfold bind at 1. specialize (IH rest (n + 2)%nat H).
    destruct (distortPairs random jitter relative cur rest (n + 2)) as [coords n'].
    simpl in *. rewrite IH. reflexivity.
Qed.

Lemma step_written upper relative seg st n pc :
  paramCounts upper = Some pc -> upper <> "A"%char -> upper <> "Z"%char ->
  List.length seg = pc ->
  exists c, (step random jitter upper relative seg st n).1.2 = [c] /\ written upper c.
Proof.
  intros Hpc HA HZ Hlen. pose proof (paramCounts_known random _ _ Hpc) as Hin. simpl in Hin.
  subst pc.
  destruct Hin as [<-|[<-|[<-|[<-|[<-|[<-|[<-|[<-|[<-|[<-|[]]]]]]]]]]];
    try congruence; simpl in Hpc; injection Hpc as Hlen;
    unfold step; cbn [Ascii.eqb Bool.eqb];
    try (eexists; split; [reflexivity|]; eexists; split; reflexivity).
  all: unfold bind at 1;
    pose proof (distortPairs_even relative (currentPoint st) seg n) as He;
    rewrite <- Hlen in He; specialize (He eq_refl);
    destruct (distortPairs random jitter relative (currentPoint st) seg n) as [coords n'];
    eexists; split; [reflexivity|]; eexists; split; [reflexivity|];
    simpl in He; rewrite He; reflexivity.
Qed.

Lemma groups_written upper relative pc : forall fuel rest st n,
  paramCounts upper = Some pc -> upper <> "A"%char -> upper <> "Z"%char ->
  (List.length rest < fuel)%nat ->
  exists st' out n',
    groups random jitter fuel upper relative pc rest st n = ((st', out), n') /\
    List.length out = (List.length rest / pc)%nat /\ Forall (written upper) out.
Proof.
  induction fuel as [|fuel IH]; intros rest st n Hpc HA HZ Hf; [lia|].
  assert (Hpos : (0 < pc)%nat).
  { pose proof (paramCounts_known random _ _ Hpc) as Hin. simpl in Hin.
    destruct Hin as [<-|[<-|[<-|[<-|[<-|[<-|[<-|[<-|[<-|[<-|[]]]]]]]]]]];
      simpl in Hpc; inversion Hpc; try lia; congruence. }
  cbn [groups].
  assert (Hnz : (pc =? 0)%nat = false) by (apply Nat.eqb_neq; lia).
  rewrite Hnz, orb_false_r.
  destruct (Nat.ltb_spec 0 (List.length rest)) as [Hr|Hr].
  2:{ do 3 eexists. split; [reflexivity|]. simpl.
      assert (List.length rest = 0%nat) as -> by lia.
      rewrite Nat.Div0.div_0_l. split; [reflexivity|constructor]. }
  destruct (Ascii.eqb_spec upper "Z") as [|_]; [contradiction|].
  rewrite length_firstn.
  destruct (Nat.ltb_spec (Nat.min pc (List.length rest)) pc) as [Hlt|Hge].
  { do 3 eexists. split; [reflexivity|]. simpl.
    rewrite Nat.div_small by lia. split; [reflexivity|constructor]. }
  unfold bind at 1.
  destruct (step_written upper relative (firstn pc rest) st n pc Hpc HA HZ)
    as (c & Hc & Hw); [rewrite length_firstn; lia|].
  destruct (step random jitter upper relative (firstn pc rest) st n) as [[st' out] n'].
  simpl in Hc. subst out.
  unfold bind at 1.
  destruct (IH (skipn pc rest) st' n' Hpc HA HZ) as (st'' & out' & n'' & -> & IH1 & IH2).
  { rewrite length_skipn. lia. }
  rewrite length_skipn in IH1.
  do 3 eexists. split; [reflexivity|]. split; [|constructor; assumption].
  simpl. rewrite IH1.
  replace (List.length rest) with ((List.length rest - pc) + 1 * pc)%nat at 2 by lia.
  rewrite Nat.div_add by lia. lia.
Qed.

(** X5.  A command letter followed by several groups of parameters is
    applied once for each complete group: for a letter other than A and Z
    that takes [pc] parameters, the command writes as many chunks as [pc]
    goes into the count of the numbers parsed, each under the letter written
    for that command ([C] for L, [L] for H and V, its own letter otherwise)
    and with the count of numbers of that letter. *)
Theorem repeated_groups (c : ascii) (ps : string) (pc : nat)
    (st : ParserState) (n : nat) :
  paramCounts (Str.toUpperCase c) = Some pc ->
  Str.toUpperCase c <> "A"%char -> Str.toUpperCase c <> "Z"%char ->
  let out := (command random jitter (c, ps) st n).1.2 in
  List.length out = (List.length (parseParams ps) / pc)%nat /\
  Forall (written (Str.toUpperCase c)) out.
Proof.
  intros Hpc HA HZ. unfold command. rewrite Hpc.
  destruct (groups_written (Str.toUpperCase c) (negb (Ascii.eqb c (Str.toUpperCase c))) pc
              (S (List.length (parseParams ps))) (parseParams ps) st n Hpc HA HZ)
    as (st' & out & n' & -> & H1 & H2); [lia|].
  split; assumption.
Qed.

Lemma step_subpath upper relative seg st n :
  upper <> "M"%char ->
  subpathStart (step random jitter upper relative seg st n).1.1 = subpathStart st.
Proof.
  intros HM. unfold step.
  destruct (Ascii.eqb upper "A").
  { rewrite emitArc_state. destruct (last _); reflexivity. }
  destruct (Ascii.eqb upper "H"); [reflexivity|].
  destruct (Ascii.eqb upper "V"); [reflexivity|].
  destruct (Ascii.eqb upper "L").
  { unfold bind. destruct (emitCubic _ _ _ _). reflexivity. }
  unfold bind. destruct (distortPairs _ _ _ _ _ _) as [coords n']. cbn [ret fst snd].
  destruct upper as [[] [] [] [] [] [] [] []]; try reflexivity. congruence.
Qed.

Lemma groups_subpath upper relative pc : forall fuel rest st n,
  upper <> "M"%char ->
  subpathStart (groups random jitter fuel upper relative pc rest st n).1.1
  = subpathStart st.
Proof.
  induction fuel as [|fuel IH]; intros rest st n HM; [reflexivity|]. cbn [groups].
  destruct (_ || _); [|reflexivity].
  destruct (Ascii.eqb upper "Z"); [reflexivity|].
  destruct (_ <? _)%nat; [reflexivity|].
  unfold bind at 1.
  pose proof (step_subpath upper relative (firstn pc rest) st n HM) as Hs.
  destruct (step random jitter upper relative (firstn pc rest) st n) as [[st' out] n'].
  simpl in Hs.
  destruct (pc =? 0)%nat; [exact Hs|].
  unfold bind at 1. specialize (IH (skipn pc rest) st' n' HM).
  destruct (groups random jitter fuel upper relative pc (skipn pc rest) st' n')
    as [[st'' out'] n''].
  simpl in *. congruence.
Qed.

(** A command other than a MoveTo leaves the subpath start as it is. *)
Lemma command_subpath (c : ascii) (ps : string)
    (st : ParserState) (n : nat) :
  Str.toUpperCase c <> "M"%char ->
  subpathStart (command random jitter (c, ps) st n).1.1 = subpathStart st.
Proof.
  intros HM. unfold command.
  destruct (paramCounts (Str.toUpperCase c)); [|reflexivity].
  apply groups_subpath, HM.
Qed.
End Groups.

(** The command [l1 2 3 4 5] has two complete groups. *)
Lemma repeated_groups_witness :
  let out := (command (M := RefMath.impl) (fun _ => 0.25%float) 1.2
                ("l"%char, "1 2 3 4 5")
                initialState 0).1.2 in
  List.length out = (List.length (parseParams "1 2 3 4 5") / 2)%nat /\
  Forall (written "L"%char) out.
Proof.
  apply (repeated_groups (M := RefMath.impl) (fun _ => 0.25%float) 1.2
           "l"%char "1 2 3 4 5" 2 initialState 0).
  - reflexivity.
  - discriminate.
  - discriminate.
Defined.

(** ** The close of a subpath *)


Section Close.
Context {M : MathImpl}.
Variable random : nat -> float.
Variable jitter : float.

Lemma commands_subpath ms : forall st n,
  Forall no_move ms ->
  subpathStart (commands random jitter ms st n).1.1 = subpathStart st.
Proof.
  induction ms as [|m ms IH]; intros st n H; [reflexivity|].
  inversion H as [|? ? Hm Hms]; subst. cbn [commands]. unfold bind at 1.
  destruct m as [c ps].
  pose proof (command_subpath random jitter c ps st n Hm) as Hc.
  destruct (command random jitter (c, ps) st n) as [[st1 out1] n1].
  unfold bind at 1. specialize (IH st1 n1 Hms).
  destruct (commands random jitter ms st1 n1) as [[st2 out2] n2].
  simpl in *. congruence.
Qed.

Lemma command_close z ps st n :
  Str.toUpperCase z = "Z"%char ->
  command random jitter (z, ps) st n =
  (({| currentPoint := subpathStart st; subpathStart := subpathStart st |},
    [Cmd "Z" []]), n).
Proof.
  intros Hz. unfold command. rewrite Hz. cbn [paramCounts groups].
  simpl. rewrite orb_true_r. reflexivity.
Qed.

(** X3.  A ClosePath returns to the start of the subpath: after any run of
    commands none of which is a MoveTo, a [Z] or [z] (whatever text follows
    it) sets the current point to the subpath start that was there before
    the run, appends one [Z] to what the run wrote, and draws no random
    number. *)
Theorem close_returns_to_subpath_start (ms : list (ascii * string))
    (z : ascii) (ps : string) (st : ParserState) (n : nat) :
  Forall no_move ms -> Str.toUpperCase z = "Z"%char ->
  commands random jitter (ms ++ [(z, ps)]) st n =
  (({| currentPoint := subpathStart st; subpathStart := subpathStart st |},
    (commands random jitter ms st n).1.2 ++ [Cmd "Z" []]),
   (commands random jitter ms st n).2).
Proof.
  intros Hms Hz. rewrite commands_app.
  pose proof (commands_subpath ms st n Hms) as Hs.
  destruct (commands random jitter ms st n) as [[st1 out1] n1].
  cbn [commands]. unfold bind at 1. rewrite (command_close z ps st1 n1 Hz).
  unfold bind, ret. simpl in *. rewrite Hs. reflexivity.
Qed.
End Close.

(** Two lines and a close, from a state whose subpath starts at (1, 2). *)
Lemma close_returns_to_subpath_start_witness :
  commands (M := RefMath.impl) (fun _ => 0.25%float) 1.2
    ([("L"%char, "10 0"); ("l"%char, "0 10")] ++ [("z"%char, " ")])
    {| currentPoint := {| x := 3; y := 4 |}; subpathStart := {| x := 1; y := 2 |} |} 0 =
  (({| currentPoint := {| x := 1; y := 2 |}; subpathStart := {| x := 1; y := 2 |} |},
    (commands (M := RefMath.impl) (fun _ => 0.25%float) 1.2
       [("L"%char, "10 0"); ("l"%char, "0 10")]
       {| currentPoint := {| x := 3; y := 4 |}; subpathStart := {| x := 1; y := 2 |} |} 0).1.2
    ++ [Cmd "Z" []]),
   (commands (M := RefMath.impl) (fun _ => 0.25%float) 1.2
       [("L"%char, "10 0"); ("l"%char, "0 10")]
       {| currentPoint := {| x := 3; y := 4 |}; subpathStart := {| x := 1; y := 2 |} |} 0).2).
Proof.
  apply (close_returns_to_subpath_start (M := RefMath.impl) (fun _ => 0.25%float) 1.2
           [("L"%char, "10 0"); ("l"%char, "0 10")] "z"%char " "
           {| currentPoint := {| x := 3; y := 4 |}; subpathStart := {| x := 1; y := 2 |} |} 0).
  - repeat constructor; unfold no_move; simpl; discriminate.
  - reflexivity.
Defined.

(** ** The parameters of one token *)









(** ** The layers of one drawing *)


Section LayerPaths.
Context {M : MathImpl} {SVG : Type}.
Variable random : nat -> float.

(** The path of each pass is a run of [distortPath] on [d], and the objects
    of the passes are new and differ from one another. *)
Lemma passes_paths jitter (svg : SVG) d a (passes : list nat) : forall w : World SVG,
  let w' := fold_left (fun w i => draftyPass random jitter svg d a i w) passes w in
  exists new,
    calls w' = calls w ++ new /\
    List.length new = List.length passes /\
    Forall (fun c => exists k, call_d c = (distortPath random jitter d k).1) new /\
    Forall (fun c => objects w !! call_attrs c = None) new /\
    NoDup (map call_attrs new).
Proof.
  induction passes as [|i rest IH]; intros w; simpl.
  - exists []. rewrite app_nil_r. repeat split; constructor.
  - rewrite draftyPass_spec.
    set (l := fresh (dom (objects w))).
    set (w1 := {| objects := _ |}).
    assert (Hl : objects w !! l = None) by (apply not_elem_of_dom, is_fresh).
    destruct (IH w1) as (new & Hcalls & Hlen & Hd & Hfresh & Hnd).
    exists ({| call_svg := svg;
               call_d := (distortPath random jitter d (randoms w)).1;
               call_attrs := l;
               call_props := layerProps i (default ∅ (objects w !! a)) |} :: new).
    split; [rewrite Hcalls; simpl; rewrite <- app_assoc; reflexivity|].
    split; [simpl; congruence|].
    split; [constructor; [eexists; reflexivity|exact Hd]|].
    split.
    + constructor; [exact Hl|]. eapply Forall_impl; [exact Hfresh|].
      simpl. intros c Hc. subst w1. simpl in Hc.
      apply lookup_insert_None in Hc. tauto.
    + simpl. constructor; [|exact Hnd].
      intros Hin. apply list_elem_of_fmap in Hin. destruct Hin as (c & Hc & Hin).
      rewrite Forall_forall in Hfresh. specialize (Hfresh c Hin).
      subst w1. simpl in Hfresh. rewrite <- Hc in Hfresh.
      rewrite lookup_insert_eq in Hfresh. discriminate.
Qed.
End LayerPaths.

(** X7.  With the jitter 0 every layer is drawn with the same path: for a
    path without a negative zero and random numbers in the unit interval,
    each of the draw calls of [makeDraftyPath] gets the text that
    [distortPath] gives with the jitter 0. *)
Theorem zero_jitter_layers_identical {M : MathImpl} {SVG : Type}
    (random : nat -> float) (options : Options) (svg : SVG) (d : string)
    (attrs : option loc) (w : World SVG) :
  options_jitter options = Some 0%float ->
  (forall k, unit_interval (random k) = true) ->
  no_negative_zero d = true ->
  Forall (fun c => call_d c = (distortPath random 0 d 0).1)
         (drop (List.length (calls w))
               (calls (makeDraftyPath random options svg d attrs w))).
Proof.
  intros Hj Hr Hd. unfold makeDraftyPath. rewrite Hj. simpl default at 1.
  set (r := default _ (options_repeats options)).
  destruct (match attrs with Some a => (a, w) | None => allocate SVG ∅ w end)
    as [a w0] eqn:Ea.
  assert (Hcalls : calls w0 = calls w).
  { destruct attrs; inversion Ea; reflexivity. }
  destruct (passes_paths random 0%float svg d a (seq 0 (r + 1)) w0)
    as (new & Hnew & _ & Hpaths & _).
  rewrite Hnew, Hcalls, drop_app_length.
  eapply Forall_impl; [exact Hpaths|]. simpl. intros c [k ->].
  exact (distortPath_sim random random Hr Hr d Hd k 0%nat).
Qed.

(** X8.  Every layer is drawn with an attribute object of its own: the
    objects handed to the draw calls of one run are new, and no two of them
    are the same object. *)
Theorem layers_own_objects {M : MathImpl} {SVG : Type}
    (random : nat -> float) (options : Options) (svg : SVG) (d : string)
    (attrs : option loc) (w : World SVG) :
  let new := drop (List.length (calls w))
                  (calls (makeDraftyPath random options svg d attrs w)) in
  NoDup (map call_attrs new) /\
  Forall (fun c => objects w !! call_attrs c = None) new.
Proof.
  unfold makeDraftyPath.
  set (jitter := default _ (options_jitter options)).
  set (r := default _ (options_repeats options)).
  destruct (match attrs with Some a => (a, w) | None => allocate SVG ∅ w end)
    as [a w0] eqn:Ea.
  assert (Hcalls : calls w0 = calls w).
  { destruct attrs; inversion Ea; reflexivity. }
  destruct (passes_paths random jitter svg d a (seq 0 (r + 1)) w0)
    as (new & Hnew & _ & _ & Hfresh & Hnd).
  simpl. rewrite Hnew, Hcalls, drop_app_length. split; [exact Hnd|].
  eapply Forall_impl; [exact Hfresh|]. simpl. intros c Hc.
  destruct attrs as [a'|]; inversion Ea; subst; [exact Hc|].
  simpl in Hc. apply lookup_insert_None in Hc. tauto.
Qed.

(** Three layers of the path [M0,0 L10,5 z]. *)
Lemma zero_jitter_layers_identical_witness :
  let w := {| objects := ∅; calls := []; randoms := 0%nat |} : World unit in
  let options :=
    {| options_jitter := Some 0%float; options_repeats := Some 2%nat |} in
  let random := fun _ : nat => 0.25%float in
  Forall (fun c =>
            call_d c
            = (distortPath (M := RefMath.impl) random 0 "M0,0 L10,5 z" 0).1)
         (drop (List.length (calls w))
               (calls (makeDraftyPath (M := RefMath.impl) random options tt
                         "M0,0 L10,5 z" None w))).
Proof.
  cbv zeta.
  apply (zero_jitter_layers_identical (M := RefMath.impl) (SVG := unit)
           (fun _ => 0.25%float)
           {| options_jitter := Some 0%float; options_repeats := Some 2%nat |}
           tt "M0,0 L10,5 z" None
           {| objects := ∅; calls := []; randoms := 0%nat |}).
  - reflexivity.
  - intros k. reflexivity.
  - reflexivity.
Defined.

(* ===================================================================== *)
(** * The subdivision law, in exact arithmetic                           *)
(* ===================================================================== *)

(** ** Rounding to binary64

    The operations on binary64 numbers are specified by [SpecFloat]: the exact
    result is shifted to 53 bits and rounded to nearest, ties to even.  The
    lemmas of this part bound the error of one rounding, and then of one
    addition, subtraction and multiplication, on rational values. *)

Section Shifts.
Local Open Scope Z_scope.

Lemma iter_pos_nat {A : Type} (f : A -> A) p : forall a,
  SpecFloat.iter_pos f p a = Nat.iter (Pos.to_nat p) f a.
Proof.
  induction p as [p IH|p IH|]; intros a; cbn [SpecFloat.iter_pos].
  - rewrite !IH, Pos2Nat.inj_xI, Nat.iter_succ_r.
    replace (2 * Pos.to_nat p)%nat with (Pos.to_nat p + Pos.to_nat p)%nat by lia.
    rewrite Nat.iter_add. reflexivity.
  - rewrite !IH, Pos2Nat.inj_xO.
    replace (2 * Pos.to_nat p)%nat with (Pos.to_nat p + Pos.to_nat p)%nat by lia.
    rewrite Nat.iter_add. reflexivity.
  - reflexivity.
Qed.

Lemma shr_1_record r :
  0 <= shr_m r ->
  shr_1 r = {| shr_m := shr_m r / 2; shr_r := Z.odd (shr_m r);
               shr_s := shr_r r || shr_s r |}.
Proof.
  destruct r as [m rb sb]. simpl. intros Hm.
  destruct m as [|[p|p|]|p]; try lia; f_equal.
  - rewrite Pos2Z.inj_xI. apply (Z.div_unique _ 2 _ 1); lia.
  - rewrite Pos2Z.inj_xO. apply (Z.div_unique _ 2 _ 0); lia.
Qed.

Lemma mod_pow2_succ m k :
  0 <= k ->
  negb (m mod 2 ^ (k + 1) =? 0) = Z.testbit m k || negb (m mod 2 ^ k =? 0).
Proof.
  intros Hk. rewrite Z.pow_add_r, Z.pow_1_r by lia.
  assert (Hp : 0 < 2 ^ k) by (apply Z.pow_pos_nonneg; lia).
  rewrite Z.rem_mul_r by lia.
  pose proof (Z.mod_pos_bound m (2 ^ k) Hp) as Hb.
  pose proof (Z.testbit_spec' m k Hk) as Ht.
  destruct (Z.testbit m k); cbn [Z.b2z] in Ht; rewrite <- Ht;
    destruct (Z.eqb_spec (m mod 2 ^ k) 0) as [E|E];
    match goal with |- context [?a =? 0] => destruct (Z.eqb_spec a 0) as [E3|E3] end;
    simpl; try reflexivity; lia.
Qed.

Lemma shr_iter k r0 :
  0 <= shr_m r0 ->
  Nat.iter (S k) shr_1 r0 =
  {| shr_m := shr_m r0 / 2 ^ Z.of_nat (S k);
     shr_r := Z.testbit (shr_m r0) (Z.of_nat k);
     shr_s := shr_r r0 || shr_s r0 || negb (shr_m r0 mod 2 ^ Z.of_nat k =? 0) |}.
Proof.
  intros Hm. induction k as [|k IH].
  - cbn [Nat.iter]. rewrite shr_1_record by exact Hm.
    change (2 ^ Z.of_nat 1) with 2. change (2 ^ Z.of_nat 0) with 1.
    rewrite Z.mod_1_r, Z.bit0_odd. simpl negb. rewrite orb_false_r. reflexivity.
  - change (Nat.iter (S (S k)) shr_1 r0) with (shr_1 (Nat.iter (S k) shr_1 r0)).
    rewrite IH. rewrite shr_1_record; cbn [shr_m shr_r shr_s].
    2:{ apply Z.div_pos; [exact Hm|]. apply Z.pow_pos_nonneg; lia. }
    assert (E1 : shr_m r0 / 2 ^ Z.of_nat (S k) / 2 = shr_m r0 / 2 ^ Z.of_nat (S (S k))).
    { rewrite Z.div_div by (try apply Z.pow_pos_nonneg; lia).
      f_equal. rewrite (Nat2Z.inj_succ (S k)), Z.pow_succ_r by lia. lia. }
    assert (E2 : Z.odd (shr_m r0 / 2 ^ Z.of_nat (S k))
                 = Z.testbit (shr_m r0) (Z.of_nat (S k))).
    { rewrite (Z.testbit_odd _ (Z.of_nat (S k))), Z.shiftr_div_pow2 by lia. reflexivity. }
    assert (E3 : Z.testbit (shr_m r0) (Z.of_nat k)
                 || (shr_r r0 || shr_s r0 || negb (shr_m r0 mod 2 ^ Z.of_nat k =? 0))
                 = shr_r r0 || shr_s r0 || negb (shr_m r0 mod 2 ^ Z.of_nat (S k) =? 0)).
    { rewrite (Nat2Z.inj_succ k), <- Z.add_1_r, mod_pow2_succ by lia.
      destruct (shr_r r0), (shr_s r0), (Z.testbit (shr_m r0) (Z.of_nat k)),
        (shr_m r0 mod 2 ^ Z.of_nat k =? 0); reflexivity. }
    rewrite E1, E2, E3. reflexivity.
Qed.

(** A right shift by [n > 0] of the mantissa [m]. *)
Lemma shr_exact_spec m e n :
  0 <= m -> 0 < n ->
  shr (shr_record_of_loc m loc_Exact) e n =
  ({| shr_m := m / 2 ^ n; shr_r := Z.testbit m (n - 1);
      shr_s := negb (m mod 2 ^ (n - 1) =? 0) |}, e + n).
Proof.
  intros Hm Hn. destruct n as [|p|p]; try lia. unfold shr.
  rewrite iter_pos_nat.
  destruct (Pos.to_nat p) as [|k] eqn:Ek; [lia|].
  rewrite shr_iter by exact Hm. cbn [shr_record_of_loc shr_m shr_r shr_s].
  assert (Z.of_nat (S k) = Z.pos p) as -> by lia.
  assert (Z.of_nat k = Z.pos p - 1) as -> by lia. reflexivity.
Qed.
End Shifts.

Section Truncated.
Local Open Scope Z_scope.

Lemma pow2_pred n : 0 < n -> 2 ^ n = 2 * 2 ^ (n - 1).
Proof.
  intros Hn. replace n with (Z.succ (n - 1)) at 1 by lia.
  rewrite Z.pow_succ_r by lia. reflexivity.
Qed.

Lemma testbit_true_mod m n :
  0 < n -> Z.testbit m (n - 1) = true -> 2 ^ (n - 1) <= m mod 2 ^ n.
Proof.
  intros Hn Ht.
  rewrite (pow2_pred n Hn), (Z.mul_comm 2).
  assert (Hp : 0 < 2 ^ (n - 1)) by (apply Z.pow_pos_nonneg; lia).
  rewrite Z.rem_mul_r by lia.
  pose proof (Z.testbit_spec' m (n - 1) ltac:(lia)) as Hs. rewrite Ht in Hs.
  cbn [Z.b2z] in Hs. rewrite <- Hs.
  pose proof (Z.mod_pos_bound m (2 ^ (n - 1)) Hp). lia.
Qed.

(** The first step of a rounding: the shift to the exponent that [fexp]
    asks for, and the mantissa rounded to nearest. *)
Lemma shr_fexp_round m e :
  0 <= m ->
  let '(r, e') := shr_fexp prec emax m e loc_Exact in
  let m' := round_nearest_even (shr_m r) (loc_of_shr_record r) in
  e' = Z.max e (fexp prec emax (Zdigits2 m + e)) /\
  shr_m r = m / 2 ^ (e' - e) /\
  shr_m r <= m' <= shr_m r + 1 /\
  2 * m' * 2 ^ (e' - e) <= 2 * m + 2 ^ (e' - e).
Proof.
  intros Hm. unfold shr_fexp.
  set (n := fexp prec emax (Zdigits2 m + e) - e).
  destruct (Z.ltb_spec 0 n) as [Hn|Hn].
  - rewrite shr_exact_spec by assumption. cbv zeta.
    replace (e + n - e) with n by lia.
    assert (Hp : 0 < 2 ^ n) by (apply Z.pow_pos_nonneg; lia).
    pose proof (Z.mul_div_le m (2 ^ n) Hp) as Hle.
    pose proof (Z.div_mod m (2 ^ n) ltac:(lia)) as Hdm.
    pose proof (Z.div_pos m (2 ^ n) Hm Hp) as Hq.
    split; [lia|]. split; [reflexivity|].
    cbn [shr_m loc_of_shr_record].
    destruct (Z.testbit m (n - 1)) eqn:Ht.
    + pose proof (testbit_true_mod m n Hn Ht) as Hmod.
      pose proof (pow2_pred n Hn) as E2.
      destruct (negb _); cbn [round_nearest_even]; [split; nia|].
      destruct (Z.even _); split; nia.
    + destruct (negb _); cbn [round_nearest_even]; split; nia.
  - assert (E : shr (shr_record_of_loc m loc_Exact) e n = (shr_record_of_loc m loc_Exact, e))
      by (unfold shr; destruct n; try reflexivity; lia).
    rewrite E. cbv zeta. cbn [shr_record_of_loc shr_m loc_of_shr_record round_nearest_even].
    replace (e - e) with 0 by lia. rewrite Z.pow_0_r, Z.div_1_r.
    repeat split; lia.
Qed.
End Truncated.

Section Nearest.
Local Open Scope Z_scope.

Lemma mod_pow2_split m n :
  0 < n ->
  m mod 2 ^ n = m mod 2 ^ (n - 1) + 2 ^ (n - 1) * Z.b2z (Z.testbit m (n - 1)).
Proof.
  intros Hn. rewrite (pow2_pred n Hn), (Z.mul_comm 2).
  assert (Hp : 0 < 2 ^ (n - 1)) by (apply Z.pow_pos_nonneg; lia).
  rewrite Z.rem_mul_r by lia.
  rewrite (Z.testbit_spec' m (n - 1)) by lia. reflexivity.
Qed.

Lemma Zdigits2_pow_le P : 0 < P -> 2 ^ (Zdigits2 P - 1) <= P.
Proof.
  intros HP. destruct P as [|p|p]; try lia. rewrite Zdigits2_pos.
  replace (Z.log2 (Z.pos p) + 1 - 1) with (Z.log2 (Z.pos p)) by lia.
  apply Z.log2_spec. lia.
Qed.

(** The mantissa rounded to nearest is within half a unit of the last place
    kept. *)
Lemma shr_fexp_nearest m e :
  0 <= m ->
  let '(r, e') := shr_fexp prec emax m e loc_Exact in
  let m' := round_nearest_even (shr_m r) (loc_of_shr_record r) in
  2 * m <= 2 * m' * 2 ^ (e' - e) + 2 ^ (e' - e) /\ (e' = e -> m' = m).
Proof.
  intros Hm. unfold shr_fexp.
  set (n := fexp prec emax (Zdigits2 m + e) - e).
  destruct (Z.ltb_spec 0 n) as [Hn|Hn].
  - rewrite shr_exact_spec by assumption. cbv zeta.
    replace (e + n - e) with n by lia.
    assert (Hp : 0 < 2 ^ n) by (apply Z.pow_pos_nonneg; lia).
    assert (Hp1 : 0 < 2 ^ (n - 1)) by (apply Z.pow_pos_nonneg; lia).
    pose proof (Z.div_mod m (2 ^ n) ltac:(lia)) as Hdm.
    pose proof (Z.mod_pos_bound m (2 ^ n) Hp) as Hb.
    pose proof (Z.mod_pos_bound m (2 ^ (n - 1)) Hp1) as Hb1.
    pose proof (mod_pow2_split m n Hn) as Hs.
    pose proof (pow2_pred n Hn) as E2.
    split; [|lia].
    cbn [shr_m loc_of_shr_record].
    destruct (Z.testbit m (n - 1)); cbn [Z.b2z] in Hs.
    + destruct (Z.eqb_spec (m mod 2 ^ (n - 1)) 0) as [E0|E0];
        cbn [negb round_nearest_even]; [destruct (Z.even _)|]; nia.
    + destruct (negb _); cbn [round_nearest_even]; nia.
  - assert (E : shr (shr_record_of_loc m loc_Exact) e n = (shr_record_of_loc m loc_Exact, e))
      by (unfold shr; destruct n; try reflexivity; lia).
    rewrite E. cbv zeta. cbn [shr_record_of_loc shr_m loc_of_shr_record round_nearest_even].
    replace (e - e) with 0 by lia. rewrite Z.pow_0_r. split; lia.
Qed.

(** The rounding of the positive value [P * 2^E]: the result is the value
    [m' * 2^e1], at the exponent [e1] that [fexp] asks for, of the mantissa
    [m'] nearest to [P * 2^E] there. *)
Lemma binary_round_aux_value s P E :
  0 < P ->
  let e1 := Z.max E (fexp prec emax (Zdigits2 P + E)) in
  exists m',
    0 <= m' /\
    2 * P <= 2 * m' * 2 ^ (e1 - E) + 2 ^ (e1 - E) /\
    2 * m' * 2 ^ (e1 - E) <= 2 * P + 2 ^ (e1 - E) /\
    (e1 = E -> m' = P) /\
    match binary_round_aux prec emax s P E loc_Exact with
    | S754_zero s' => s' = s /\ m' = 0
    | S754_finite s' m2 e2 => s' = s /\ e1 <= e2 /\ Z.pos m2 * 2 ^ (e2 - e1) = m'
    | S754_infinity s' => emax - prec < e1 + 1
    | S754_nan => False
    end.
Proof.
  intros HP e1. unfold binary_round_aux.
  pose proof (shr_fexp_round P E ltac:(lia)) as H1.
  pose proof (shr_fexp_nearest P E ltac:(lia)) as N1.
  pose proof (shr_fexp_spec P E loc_Exact ltac:(lia)) as D1.
  destruct (shr_fexp prec emax P E loc_Exact) as [r1 e1'].
  cbv zeta in H1, N1. destruct H1 as (He1 & Hm1 & Hrd & Hb1).
  destruct N1 as (Hlow & Hex). destruct D1 as (Hr1 & _ & Hd1).
  fold e1 in He1. subst e1'.
  set (m' := round_nearest_even (shr_m r1) (loc_of_shr_record r1)) in *.
  assert (Hm' : 0 <= m') by lia.
  exists m'. split; [exact Hm'|]. split; [exact Hlow|]. split; [exact Hb1|].
  split; [exact Hex|].
  pose proof (shr_fexp_round m' e1 Hm') as H2.
  pose proof (shr_fexp_spec m' e1 loc_Exact Hm') as D2.
  destruct (shr_fexp prec emax m' e1 loc_Exact) as [r2 e2].
  cbv zeta in H2. destruct H2 as (He2 & Hm2 & _ & _).
  destruct D2 as (Hr2 & _ & Hd2).
  assert (Hd1' : Zdigits2 (shr_m r1) <= 53).
  { subst e1. unfold fexp, SpecFloat.emin, prec, emax in *. lia. }
  assert (Hm1lt : shr_m r1 < 2 ^ 53).
  { eapply Z.lt_le_trans; [apply Zdigits2_lt; lia|]. apply Z.pow_le_mono_r; lia. }
  assert (Hdm' : Zdigits2 m' <= 54).
  { apply Zdigits2_le; [lia|lia|]. change (2 ^ 54) with (2 * 2 ^ 53). lia. }
  assert (He21 : e2 = e1 \/ (e2 = e1 + 1 /\ m' = 2 ^ 53)).
  { destruct (Z.eq_dec (Zdigits2 m') 54) as [E54|N54].
    - right. split; [unfold fexp, SpecFloat.emin, prec, emax in *; lia|].
      assert (0 < m') by (destruct m'; simpl in E54; lia).
      pose proof (Zdigits2_pow_le m' ltac:(lia)) as Hge. rewrite E54 in Hge.
      change (2 ^ (54 - 1)) with (2 ^ 53) in Hge. lia.
    - left. unfold fexp, SpecFloat.emin, prec, emax in *. lia. }
  assert (Hexact : shr_m r2 * 2 ^ (e2 - e1) = m').
  { rewrite Hm2. destruct He21 as [->|[-> ->]].
    - replace (e1 - e1) with 0 by lia. rewrite Z.pow_0_r, Z.div_1_r. lia.
    - replace (e1 + 1 - e1) with 1 by lia. reflexivity. }
  destruct (shr_m r2) as [|m2|m2] eqn:Em2; [split; [reflexivity|lia]| |lia].
  destruct (Z.leb_spec e2 (emax - prec)); [|lia].
  split; [reflexivity|]. split; [lia|exact Hexact].
Qed.
End Nearest.

Section Values.
Local Open Scope Q_scope.

Lemma pow2_pos e : 0 < 2 ^ e.
Proof. apply Qpower_0_lt. reflexivity. Qed.

Lemma u64_pos : 0 < u64.
Proof. apply pow2_pos. Qed.

Lemma eta64_pos : 0 < eta64.
Proof. apply pow2_pos. Qed.

Lemma pow2_add a b : 2 ^ (a + b) == 2 ^ a * 2 ^ b.
Proof. apply Qpower_plus. discriminate. Qed.

Lemma pow2_Z k : (0 <= k)%Z -> 2 ^ k == inject_Z (2 ^ k).
Proof. intros Hk. rewrite Zpower_Qpower by exact Hk. reflexivity. Qed.

Lemma pow2_le a b : (a <= b)%Z -> 2 ^ a <= 2 ^ b.
Proof.
  intros Hab. replace b with (a + (b - a))%Z by lia.
  rewrite pow2_add, (pow2_Z (b - a)) by lia.
  assert (1 <= 2 ^ (b - a))%Z by (apply (Z.pow_le_mono_r 2 0); lia).
  assert (H1 : inject_Z 1 <= inject_Z (2 ^ (b - a))) by (rewrite <- Zle_Qle; assumption).
  change (inject_Z 1) with 1 in H1.
  pose proof (pow2_pos a). nra.
Qed.

Lemma ZQ_shift m e k : (0 <= k)%Z -> ZQ (m * 2 ^ k) e == ZQ m (e + k).
Proof.
  intros Hk. unfold ZQ. rewrite inject_Z_mult, pow2_add, (pow2_Z k) by exact Hk. ring.
Qed.

Lemma ZQ_opp m e : ZQ (- m) e == - ZQ m e.
Proof. unfold ZQ. rewrite inject_Z_opp. ring. Qed.

Lemma ZQ_cond_Zopp s m e : Qabs (ZQ (cond_Zopp s m) e) == Qabs (ZQ m e).
Proof.
  destruct s; cbn [cond_Zopp]; [|reflexivity].
  rewrite (Qabs_wd _ _ (ZQ_opp m e)). apply Qabs_opp.
Qed.

Lemma ZQ_nonneg m e : (0 <= m)%Z -> 0 <= ZQ m e.
Proof.
  intros Hm. unfold ZQ. pose proof (pow2_pos e).
  assert (inject_Z 0 <= inject_Z m) by (rewrite <- Zle_Qle; exact Hm).
  change (inject_Z 0) with 0 in *. nra.
Qed.

(** The rounding of [P * 2^E], where it does not overflow, is a zero or
    finite and off by [u64] of the value and [eta64] at most. *)
Lemma round_Q s P E :
  (0 < P)%Z -> (E <= 960)%Z -> (Zdigits2 P + E <= 1000)%Z ->
  not_special (binary_round_aux prec emax s P E loc_Exact) /\
  Qabs (SF2Q (binary_round_aux prec emax s P E loc_Exact) - ZQ (cond_Zopp s P) E)
    <= u64 * ZQ P E + eta64.
Proof.
  intros HP HE Hd.
  destruct (binary_round_aux_value s P E HP) as (m' & Hm' & Hlo & Hhi & Hex & Hr).
  set (e1 := Z.max E (fexp prec emax (Zdigits2 P + E))) in *.
  assert (He1 : (E <= e1 <= 960)%Z).
  { subst e1. unfold fexp, SpecFloat.emin, prec, emax. lia. }
  assert (Hval : not_special (binary_round_aux prec emax s P E loc_Exact) /\
                 SF2Q (binary_round_aux prec emax s P E loc_Exact)
                 == ZQ (cond_Zopp s m') e1).
  { destruct (binary_round_aux prec emax s P E loc_Exact) as [s'|s'| |s' m2 e2].
    - destruct Hr as [-> ->]. split; [exact I|]. unfold ZQ.
      destruct s; cbn [SF2Q cond_Zopp];
        [change (inject_Z (- 0)) with 0|change (inject_Z 0) with 0]; ring.
    - unfold prec, emax in Hr. lia.
    - contradiction.
    - destruct Hr as (-> & He2 & <-). split; [exact I|]. cbn [SF2Q].
      replace e2 with (e1 + (e2 - e1))%Z at 1 by lia.
      rewrite <- ZQ_shift by lia.
      destruct s; cbn [cond_Zopp]; [rewrite <- Z.mul_opp_l|]; reflexivity. }
  destruct Hval as [Hns Hv]. split; [exact Hns|]. rewrite Hv. clear Hv Hr Hns.
  set (n := (e1 - E)%Z) in *.
  assert (Hn : (0 <= n)%Z) by lia.
  assert (Hdiff : ZQ (cond_Zopp s m') e1 - ZQ (cond_Zopp s P) E
                  == ZQ (cond_Zopp s (m' * 2 ^ n - P)) E).
  { replace e1 with (E + n)%Z by lia. rewrite <- ZQ_shift by exact Hn.
    unfold ZQ, Z.sub. destruct s; cbn [cond_Zopp];
      repeat (rewrite inject_Z_opp || rewrite inject_Z_plus || rewrite inject_Z_mult);
      ring. }
  rewrite Hdiff, ZQ_cond_Zopp. unfold ZQ at 1.
  rewrite Qabs_Qmult, (Qabs_pos (2 ^ E)) by (apply Qlt_le_weak, pow2_pos).
  pose proof (pow2_pos E) as HpE.
  assert (Hpn : (0 < 2 ^ n)%Z) by (apply Z.pow_pos_nonneg; lia).
  destruct (Z.eq_dec e1 E) as [Heq|Hne].
  - rewrite (Hex Heq). replace n with 0%Z by lia.
    replace (P * 2 ^ 0 - P)%Z with 0%Z by (rewrite Z.pow_0_r; lia).
    assert (0 <= u64 * ZQ P E).
    { pose proof (ZQ_nonneg P E ltac:(lia)). pose proof u64_pos. nra. }
    pose proof eta64_pos. change (Qabs (inject_Z 0)) with 0. lra.
  - assert (Habs : 2 * Qabs (inject_Z (m' * 2 ^ n - P)) <= inject_Z (2 ^ n)).
    { assert (Ha : (2 * Z.abs (m' * 2 ^ n - P) <= 2 ^ n)%Z) by lia.
      rewrite Zle_Qle, inject_Z_mult in Ha. exact Ha. }
    rewrite <- (pow2_Z n) in Habs by exact Hn.
    assert (Hhalf : 2 ^ E * 2 ^ n == 2 * 2 ^ (e1 - 1)).
    { rewrite <- pow2_add. replace (E + n)%Z with (1 + (e1 - 1))%Z by lia.
      rewrite pow2_add. reflexivity. }
    assert (Hgoal : 2 ^ (e1 - 1) <= u64 * ZQ P E + eta64).
    { assert (0 <= u64 * ZQ P E).
      { pose proof (ZQ_nonneg P E ltac:(lia)). pose proof u64_pos. nra. }
      pose proof eta64_pos as Heta.
      destruct (Z.le_gt_cases (Zdigits2 P + E - 53) (-1074)) as [Hsub|Hnorm].
      + assert (e1 = (-1074)%Z)
          by (subst e1; unfold fexp, SpecFloat.emin, prec, emax in *; lia).
        subst e1. replace (Z.max E (fexp prec emax (Zdigits2 P + E)) - 1)%Z
          with (-1075)%Z by lia. fold eta64. lra.
      + assert (He1n : e1 = (Zdigits2 P + E - 53)%Z)
          by (subst e1; unfold fexp, SpecFloat.emin, prec, emax in *; lia).
        rewrite He1n.
        replace (Zdigits2 P + E - 53 - 1)%Z with (-53 + (E + (Zdigits2 P - 1)))%Z by lia.
        rewrite !pow2_add. fold u64.
        pose proof (Zdigits2_pow_le P HP) as Hge.
        assert (Hd1 : (0 <= Zdigits2 P - 1)%Z) by (destruct P; simpl in *; lia).
        rewrite (pow2_Z (Zdigits2 P - 1)) by exact Hd1.
        rewrite Zle_Qle in Hge. unfold ZQ.
        pose proof u64_pos as Hu.
        assert (Hk : 0 <= u64 * 2 ^ E) by (apply Qlt_le_weak; nra).
        assert (H3 : 0 <= (u64 * 2 ^ E) * (inject_Z P - inject_Z (2 ^ (Zdigits2 P - 1))))
          by (apply Qmult_le_0_compat; [exact Hk|lra]).
        lra. }
    nra.
Qed.
End Values.

Section Products.
Local Open Scope Q_scope.

Lemma pow2_succ_lt k : 2 ^ k < 2 ^ (k + 1).
Proof.
  rewrite pow2_add. pose proof (pow2_pos k). change (2 ^ 1) with 2. lra.
Qed.

Lemma ZQ_pos_abs s m e : Qabs (ZQ (cond_Zopp s (Z.pos m)) e) == ZQ (Z.pos m) e.
Proof.
  rewrite ZQ_cond_Zopp. apply Qabs_pos. apply ZQ_nonneg. lia.
Qed.

(** The size of a number that is at most [2^k]. *)
Lemma SF2Q_mag s m e k :
  Qabs (SF2Q (S754_finite s m e)) <= 2 ^ k -> (Zdigits2 (Z.pos m) + e <= k + 1)%Z.
Proof.
  cbn [SF2Q]. rewrite ZQ_pos_abs. intros H.
  destruct (Z.le_gt_cases (Zdigits2 (Z.pos m) + e) (k + 1)) as [|Hgt]; [assumption|].
  exfalso.
  pose proof (Zdigits2_pow_le (Z.pos m) ltac:(lia)) as Hge.
  assert (Hd : (0 <= Zdigits2 (Z.pos m) - 1)%Z) by (simpl; lia).
  rewrite Zle_Qle, <- (pow2_Z _ Hd) in Hge.
  assert (H1 : 2 ^ (k + 1) <= 2 ^ (Zdigits2 (Z.pos m) - 1 + e)) by (apply pow2_le; lia).
  rewrite (pow2_add (Zdigits2 (Z.pos m) - 1) e) in H1. unfold ZQ in H.
  pose proof (pow2_succ_lt k). pose proof (pow2_pos e).
  assert (2 ^ (Zdigits2 (Z.pos m) - 1) * 2 ^ e <= inject_Z (Z.pos m) * 2 ^ e) by nra.
  lra.
Qed.

Lemma Zdigits2_mul a b :
  (0 < a)%Z -> (0 < b)%Z -> (Zdigits2 (a * b) <= Zdigits2 a + Zdigits2 b)%Z.
Proof.
  intros Ha Hb.
  pose proof (Zdigits2_nonneg a). pose proof (Zdigits2_nonneg b).
  apply Zdigits2_le; [lia|lia|].
  pose proof (Zdigits2_lt a ltac:(lia)). pose proof (Zdigits2_lt b ltac:(lia)).
  rewrite Z.pow_add_r by lia. nia.
Qed.

Lemma SFmul_close x y kx ky :
  not_special x -> not_special y ->
  Qabs (SF2Q x) <= 2 ^ kx -> Qabs (SF2Q y) <= 2 ^ ky -> (kx + ky <= 900)%Z ->
  not_special (SFmul prec emax x y) /\
  Qabs (SF2Q (SFmul prec emax x y) - SF2Q x * SF2Q y)
    <= u64 * Qabs (SF2Q x * SF2Q y) + eta64.
Proof.
  intros Hx Hy Bx By Hk.
  assert (Hz : forall q, 0 == q -> Qabs (0 - q) <= u64 * Qabs q + eta64).
  { intros q <-. change (Qabs (0 - 0)) with 0. change (Qabs 0) with 0.
    pose proof eta64_pos. lra. }
  destruct x as [sx|sx| |sx mx ex], y as [sy|sy| |sy my ey]; try contradiction;
    cbn [SFmul]; try (split; [exact I|]; cbn [SF2Q]; apply Hz; ring).
  pose proof (SF2Q_mag _ _ _ _ Bx) as Mx. pose proof (SF2Q_mag _ _ _ _ By) as My.
  assert (Hdx : (1 <= Zdigits2 (Z.pos mx))%Z) by (simpl; lia).
  assert (Hdy : (1 <= Zdigits2 (Z.pos my))%Z) by (simpl; lia).
  pose proof (Zdigits2_mul (Z.pos mx) (Z.pos my) ltac:(lia) ltac:(lia)) as Hd.
  change (Z.pos mx * Z.pos my)%Z with (Z.pos (mx * my)) in Hd.
  destruct (round_Q (xorb sx sy) (Z.pos (mx * my)) (ex + ey) ltac:(lia) ltac:(lia)
              ltac:(lia)) as [Hns Herr].
  split; [exact Hns|]. cbn [SF2Q].
  assert (Hprod : ZQ (cond_Zopp (xorb sx sy) (Z.pos (mx * my))) (ex + ey)
                  == ZQ (cond_Zopp sx (Z.pos mx)) ex * ZQ (cond_Zopp sy (Z.pos my)) ey).
  { unfold ZQ. rewrite pow2_add.
    destruct sx, sy; cbn [xorb cond_Zopp];
      rewrite ?inject_Z_opp, ?Pos2Z.inj_mul, ?inject_Z_mult; ring. }
  rewrite <- Hprod, ZQ_pos_abs. exact Herr.
Qed.

Lemma iter_xO_value p d : Z.pos (Pos.iter xO p d) = (Z.pos p * 2 ^ Z.pos d)%Z.
Proof.
  induction d as [|d IH] using Pos.peano_ind.
  - simpl. lia.
  - rewrite Pos.iter_succ, Pos2Z.inj_xO, IH, Pos2Z.inj_succ, Z.pow_succ_r by lia. lia.
Qed.

Lemma shl_align_value m e e' :
  (e' <= e)%Z -> Z.pos (fst (shl_align m e e')) = (Z.pos m * 2 ^ (e - e'))%Z.
Proof.
  intros He. unfold shl_align. destruct (e' - e)%Z as [|d|d] eqn:E; cbn [fst].
  - replace (e - e')%Z with 0%Z by lia. rewrite Z.pow_0_r. lia.
  - lia.
  - rewrite iter_xO_value. f_equal. f_equal. lia.
Qed.

(** The number nearest to [m * 2^e]. *)
Lemma binary_normalize_Q m e :
  (e <= 960)%Z -> (Zdigits2 m + e <= 1000)%Z ->
  not_special (binary_normalize prec emax m e false) /\
  Qabs (SF2Q (binary_normalize prec emax m e false) - ZQ m e)
    <= u64 * Qabs (ZQ m e) + eta64.
Proof.
  intros He Hd.
  assert (Hround : forall s p,
            (Zdigits2 (Z.pos p) + e <= 1000)%Z ->
            not_special (binary_round prec emax s p e) /\
            Qabs (SF2Q (binary_round prec emax s p e) - ZQ (cond_Zopp s (Z.pos p)) e)
              <= u64 * Qabs (ZQ (cond_Zopp s (Z.pos p)) e) + eta64).
  { intros s p Hp. unfold binary_round.
    pose proof (shl_align_spec p e (fexp prec emax (Z.pos (digits2_pos p) + e))) as Hs.
    pose proof (shl_align_value p e (Z.min e (fexp prec emax (Z.pos (digits2_pos p) + e))))
      as Hv.
    destruct (shl_align p e (fexp prec emax (Z.pos (digits2_pos p) + e))) as [mz ez] eqn:Ea.
    destruct Hs as [Hez Hdz].
    assert (Hmz : Z.pos mz = (Z.pos p * 2 ^ (e - ez))%Z).
    { unfold shl_align in Ea.
      destruct (fexp prec emax (Z.pos (digits2_pos p) + e) - e)%Z as [|d|d] eqn:E;
        injection Ea as <- <-.
      - rewrite Z.sub_diag, Z.pow_0_r. lia.
      - rewrite Z.sub_diag, Z.pow_0_r. lia.
      - rewrite iter_xO_value. f_equal. f_equal. lia. }
    destruct (round_Q s (Z.pos mz) ez ltac:(lia) ltac:(lia) ltac:(simpl in *; lia))
      as [Hns Herr].
    split; [exact Hns|].
    assert (Hsame : forall t, ZQ (cond_Zopp t (Z.pos mz)) ez == ZQ (cond_Zopp t (Z.pos p)) e).
    { intros t. rewrite Hmz. replace e with (ez + (e - ez))%Z at 2 by lia.
      rewrite <- ZQ_shift by lia.
      destruct t; cbn [cond_Zopp]; [rewrite <- Z.mul_opp_l|]; reflexivity. }
    rewrite <- (Hsame s), ZQ_pos_abs. rewrite (Hsame false) in Herr.
    rewrite (Hsame false). cbn [cond_Zopp]. exact Herr. }
  destruct m as [|p|p]; cbn [binary_normalize].
  - split; [exact I|]. cbn [SF2Q]. unfold ZQ. change (inject_Z 0) with 0.
    assert (E0 : 0 * 2 ^ e == 0) by ring. rewrite E0.
    change (Qabs (0 - 0)) with 0. change (Qabs 0) with 0. pose proof eta64_pos. lra.
  - apply (Hround false p). exact Hd.
  - apply (Hround true p). exact Hd.
Qed.
End Products.

Section Sums.
Local Open Scope Q_scope.

Lemma exact_close v q : v == q -> Qabs (v - q) <= u64 * Qabs q + eta64.
Proof.
  intros E. rewrite E. assert (E0 : q - q == 0) by ring. rewrite E0.
  change (Qabs 0) with 0. pose proof (Qabs_nonneg q). pose proof u64_pos.
  pose proof eta64_pos. nra.
Qed.

Lemma ZQ_plus a b e : ZQ (a + b) e == ZQ a e + ZQ b e.
Proof. unfold ZQ. rewrite inject_Z_plus. ring. Qed.

Lemma ZQ_aligned s m e ez :
  (ez <= e)%Z ->
  ZQ (cond_Zopp s (Z.pos (fst (shl_align m e ez)))) ez == ZQ (cond_Zopp s (Z.pos m)) e.
Proof.
  intros He. rewrite (shl_align_value m e ez He).
  replace e with (ez + (e - ez))%Z at 2 by lia. rewrite <- ZQ_shift by lia.
  destruct s; cbn [cond_Zopp]; [rewrite <- Z.mul_opp_l|]; reflexivity.
Qed.

Lemma Zdigits2_abs z : Zdigits2 (Z.abs z) = Zdigits2 z.
Proof. destruct z; reflexivity. Qed.

Lemma cond_Zopp_negb s z : cond_Zopp (negb s) z = (- cond_Zopp s z)%Z.
Proof. destruct s; simpl; lia. Qed.

Lemma finite_exp s m e k :
  Qabs (SF2Q (S754_finite s m e)) <= 2 ^ k -> (e <= k)%Z.
Proof.
  intros H. pose proof (SF2Q_mag _ _ _ _ H).
  assert (1 <= Zdigits2 (Z.pos m))%Z by (simpl; lia). lia.
Qed.

Lemma SFsub_close x y k :
  not_special x -> not_special y ->
  Qabs (SF2Q x) <= 2 ^ k -> Qabs (SF2Q y) <= 2 ^ k -> (k <= 900)%Z ->
  not_special (SFsub prec emax x y) /\
  Qabs (SF2Q (SFsub prec emax x y) - (SF2Q x - SF2Q y))
    <= u64 * Qabs (SF2Q x - SF2Q y) + eta64.
Proof.
  intros Hx Hy Bx By Hk.
  destruct x as [sx|sx| |sx mx ex], y as [sy|sy| |sy my ey]; try contradiction;
    cbn [SFsub].
  - split; [destruct sx, sy; exact I|]. apply exact_close.
    destruct sx, sy; cbn [SF2Q]; ring.
  - split; [exact I|]. apply exact_close. cbn [SF2Q].
    rewrite cond_Zopp_negb, ZQ_opp. ring.
  - split; [exact I|]. apply exact_close. cbn [SF2Q]. ring.
  - pose proof (SF2Q_mag _ _ _ _ Bx) as Mx. pose proof (SF2Q_mag _ _ _ _ By) as My.
    pose proof (finite_exp _ _ _ _ Bx) as Ex. pose proof (finite_exp _ _ _ _ By) as Ey.
    pose proof (align_sum_digits sx mx ex sy my ey) as Hd. cbv zeta in Hd.
    rewrite Zdigits2_abs in Hd.
    set (ez := Z.min ex ey) in *.
    destruct (binary_normalize_Q
                (cond_Zopp sx (Z.pos (fst (shl_align mx ex ez)))
                 - cond_Zopp sy (Z.pos (fst (shl_align my ey ez)))) ez
                ltac:(lia) ltac:(lia)) as [Hns Herr].
    split; [exact Hns|]. cbn [SF2Q].
    assert (Hval : ZQ (cond_Zopp sx (Z.pos (fst (shl_align mx ex ez)))
                       - cond_Zopp sy (Z.pos (fst (shl_align my ey ez)))) ez
                   == ZQ (cond_Zopp sx (Z.pos mx)) ex - ZQ (cond_Zopp sy (Z.pos my)) ey).
    { unfold Z.sub. rewrite ZQ_plus, ZQ_opp, !ZQ_aligned by (subst ez; lia). ring. }
    rewrite <- Hval. exact Herr.
Qed.

Lemma SFadd_close x y k :
  not_special x -> not_special y ->
  Qabs (SF2Q x) <= 2 ^ k -> Qabs (SF2Q y) <= 2 ^ k -> (k <= 900)%Z ->
  not_special (SFadd prec emax x y) /\
  Qabs (SF2Q (SFadd prec emax x y) - (SF2Q x + SF2Q y))
    <= u64 * Qabs (SF2Q x + SF2Q y) + eta64.
Proof.
  intros Hx Hy Bx By Hk.
  destruct x as [sx|sx| |sx mx ex], y as [sy|sy| |sy my ey]; try contradiction;
    cbn [SFadd].
  - split; [destruct sx, sy; exact I|]. apply exact_close.
    destruct sx, sy; cbn [SF2Q]; ring.
  - split; [exact I|]. apply exact_close. cbn [SF2Q]. ring.
  - split; [exact I|]. apply exact_close. cbn [SF2Q]. ring.
  - pose proof (SF2Q_mag _ _ _ _ Bx) as Mx. pose proof (SF2Q_mag _ _ _ _ By) as My.
    pose proof (finite_exp _ _ _ _ Bx) as Ex. pose proof (finite_exp _ _ _ _ By) as Ey.
    pose proof (align_sum_digits sx mx ex (negb sy) my ey) as Hd. cbv zeta in Hd.
    rewrite Zdigits2_abs, cond_Zopp_negb in Hd.
    set (ez := Z.min ex ey) in *.
    replace (cond_Zopp sx (Z.pos (fst (shl_align mx ex ez)))
             - - cond_Zopp sy (Z.pos (fst (shl_align my ey ez))))%Z
      with (cond_Zopp sx (Z.pos (fst (shl_align mx ex ez)))
            + cond_Zopp sy (Z.pos (fst (shl_align my ey ez))))%Z in Hd by lia.
    destruct (binary_normalize_Q
                (cond_Zopp sx (Z.pos (fst (shl_align mx ex ez)))
                 + cond_Zopp sy (Z.pos (fst (shl_align my ey ez)))) ez
                ltac:(lia) ltac:(lia)) as [Hns Herr].
    split; [exact Hns|]. cbn [SF2Q].
    assert (Hval : ZQ (cond_Zopp sx (Z.pos (fst (shl_align mx ex ez)))
                       + cond_Zopp sy (Z.pos (fst (shl_align my ey ez)))) ez
                   == ZQ (cond_Zopp sx (Z.pos mx)) ex + ZQ (cond_Zopp sy (Z.pos my)) ey).
    { rewrite ZQ_plus, !ZQ_aligned by (subst ez; lia). reflexivity. }
    rewrite <- Hval. exact Herr.
Qed.

(** The three operations of [lerp] on binary64 numbers of moderate size: the
    result is a zero or finite, and off the exact one by [u64] of it and
    [eta64] at most. *)
Lemma sub_close (a b : float) k :
  finite a -> finite b ->
  Qabs (F2Q a) <= 2 ^ k -> Qabs (F2Q b) <= 2 ^ k -> (k <= 900)%Z ->
  finite (a - b) /\
  Qabs (F2Q (a - b) - (F2Q a - F2Q b)) <= u64 * Qabs (F2Q a - F2Q b) + eta64.
Proof. unfold finite, F2Q. rewrite sub_spec. apply SFsub_close. Qed.

Lemma add_close (a b : float) k :
  finite a -> finite b ->
  Qabs (F2Q a) <= 2 ^ k -> Qabs (F2Q b) <= 2 ^ k -> (k <= 900)%Z ->
  finite (a + b) /\
  Qabs (F2Q (a + b) - (F2Q a + F2Q b)) <= u64 * Qabs (F2Q a + F2Q b) + eta64.
Proof. unfold finite, F2Q. rewrite add_spec. apply SFadd_close. Qed.

Lemma mul_close (a b : float) ka kb :
  finite a -> finite b ->
  Qabs (F2Q a) <= 2 ^ ka -> Qabs (F2Q b) <= 2 ^ kb -> (ka + kb <= 900)%Z ->
  finite (a * b) /\
  Qabs (F2Q (a * b) - F2Q a * F2Q b) <= u64 * Qabs (F2Q a * F2Q b) + eta64.
Proof. unfold finite, F2Q. rewrite mul_spec. apply SFmul_close. Qed.
End Sums.

Section Lerp.
Local Open Scope Q_scope.

Lemma u64_value : u64 == 1 # 9007199254740992.
Proof. reflexivity. Qed.

Lemma eta64_small : eta64 <= 1 # 1267650600228229401496703205376.
Proof.
  unfold eta64. apply (Qle_trans _ (2 ^ (-100))); [apply pow2_le; lia|].
  apply Qle_bool_iff. reflexivity.
Qed.

Lemma Qabs_le_iff x y : Qabs x <= y <-> - y <= x /\ x <= y.
Proof. apply Qabs_Qle_condition. Qed.

Lemma scaled_close x err T :
  Qabs x <= err -> 0 <= T -> T <= 1 -> Qabs (x * T) <= err.
Proof.
  intros Hx H0 H1. apply Qabs_le_iff in Hx. apply Qabs_le_iff. nra.
Qed.

Lemma product_close x X y Y :
  Qabs x <= X -> Qabs y <= Y -> Qabs (x * y) <= X * Y.
Proof.
  intros Hx Hy. rewrite Qabs_Qmult.
  pose proof (Qabs_nonneg x). pose proof (Qabs_nonneg y). nra.
Qed.

Lemma convex_close x y e t :
  Qabs x <= e -> Qabs y <= e -> 0 <= t -> t <= 1 ->
  Qabs (x * (1 - t) + y * t) <= e.
Proof.
  intros Hx Hy H0 H1. apply Qabs_le_iff in Hx, Hy. apply Qabs_le_iff. nra.
Qed.

Lemma lerpQ_bound a b t B :
  Qabs a <= B -> Qabs b <= B -> 0 <= t -> t <= 1 -> Qabs (lerpQ a b t) <= B.
Proof.
  intros Ha Hb H0 H1. unfold lerpQ.
  assert (E : a + (b - a) * t == a * (1 - t) + b * t) by ring. rewrite E.
  apply convex_close; assumption.
Qed.

(** One interpolation in binary64 against the exact one: the inputs are
    within [e] of numbers of size [2^20] at most, the parameter is within
    [2^-50] of the exact one, and both parameters are in the unit interval. *)
Lemma lerp_close (fa fb ft : float) (a b tau e : Q) :
  finite fa -> finite fb -> finite ft ->
  Qabs (F2Q fa - a) <= e -> Qabs (F2Q fb - b) <= e -> 0 <= e -> e <= 1 ->
  Qabs a <= 1048576 -> Qabs b <= 1048576 ->
  0 <= F2Q ft -> F2Q ft <= 1 -> 0 <= tau -> tau <= 1 ->
  Qabs (F2Q ft - tau) <= 1 # 1125899906842624 ->
  finite (lerp fa fb ft) /\
  Qabs (F2Q (lerp fa fb ft) - lerpQ a b tau) <= e + (1 # 67108864).
Proof.
  intros Ffa Ffb Fft Ha Hb He0 He1 Ba Bb Ht0 Ht1 Hu0 Hu1 Htau.
  unfold lerp.
  set (A := F2Q fa) in *. set (Bq := F2Q fb) in *. set (T := F2Q ft) in *.
  pose proof u64_value as Hu. pose proof eta64_small as Heta.
  pose proof eta64_pos as Heta0.
  assert (E21 : 2 ^ 21 == 2097152) by reflexivity.
  assert (E22 : 2 ^ 22 == 4194304) by reflexivity.
  assert (E23 : 2 ^ 23 == 8388608) by reflexivity.
  assert (E0 : 2 ^ 0 == 1) by reflexivity.
  pose proof Ha as Ha'. pose proof Hb as Hb'. pose proof Ba as Ba'. pose proof Bb as Bb'.
  apply Qabs_le_iff in Ha', Hb', Ba', Bb'.
  assert (BA : Qabs A <= 2 ^ 21) by (rewrite E21; apply Qabs_le_iff; lra).
  assert (BB : Qabs Bq <= 2 ^ 21) by (rewrite E21; apply Qabs_le_iff; lra).
  (* the difference *)
  destruct (sub_close fb fa 21 Ffb Ffa BB BA ltac:(lia)) as [Fd Hd].
  fold Bq in Hd. fold A in Hd. set (D := F2Q (fb - fa)) in *.
  assert (BBA : Qabs (Bq - A) <= 2097154) by (apply Qabs_le_iff; lra).
  assert (Hd1 : Qabs (D - (Bq - A)) <= 1 # 1073741824).
  { eapply Qle_trans; [exact Hd|]. rewrite Hu.
    pose proof (Qabs_nonneg (Bq - A)). lra. }
  assert (BD : Qabs D <= 2 ^ 22).
  { rewrite E22. apply Qabs_le_iff in Hd1, BBA. apply Qabs_le_iff. lra. }
  (* the product *)
  assert (BT : Qabs T <= 2 ^ 0) by (rewrite E0; apply Qabs_le_iff; lra).
  destruct (mul_close (fb - fa) ft 22 0 Fd Fft BD BT ltac:(lia)) as [Fp Hp].
  fold D in Hp. fold T in Hp. set (Pq := F2Q ((fb - fa) * ft)) in *.
  assert (BDT : Qabs (D * T) <= 4194304).
  { rewrite E22 in BD. rewrite E0 in BT.
    pose proof (product_close D _ T _ BD BT). lra. }
  assert (Hp1 : Qabs (Pq - D * T) <= 1 # 1073741824).
  { eapply Qle_trans; [exact Hp|]. rewrite Hu.
    pose proof (Qabs_nonneg (D * T)). lra. }
  assert (BP : Qabs Pq <= 2 ^ 23).
  { rewrite E23. apply Qabs_le_iff in Hp1, BDT. apply Qabs_le_iff. lra. }
  (* the sum *)
  assert (BA' : Qabs A <= 2 ^ 23) by (rewrite E23; apply Qabs_le_iff; lra).
  destruct (add_close fa ((fb - fa) * ft) 23 Ffa Fp BA' BP ltac:(lia)) as [Fs Hs].
  fold A in Hs. fold Pq in Hs. set (S := F2Q (fa + (fb - fa) * ft)) in *.
  split; [exact Fs|].
  assert (BAP : Qabs (A + Pq) <= 8388608 + 2097152).
  { rewrite E23 in BP. rewrite E21 in BA.
    eapply Qle_trans; [apply Qabs_triangle|]. lra. }
  assert (Hs1 : Qabs (S - (A + Pq)) <= 1 # 536870912).
  { eapply Qle_trans; [exact Hs|]. rewrite Hu.
    pose proof (Qabs_nonneg (A + Pq)). lra. }
  (* the four parts of the error *)
  assert (H1 : Qabs ((A - a) * (1 - tau) + (Bq - b) * tau) <= e)
    by (apply convex_close; assumption).
  assert (H2 : Qabs ((Bq - A) * (T - tau)) <= 2097154 * (1 # 1125899906842624))
    by (apply product_close; assumption).
  assert (H3 : Qabs ((D - (Bq - A)) * T) <= 1 # 1073741824)
    by (apply scaled_close; assumption).
  assert (Hid : S - lerpQ a b tau ==
                ((A - a) * (1 - tau) + (Bq - b) * tau) + (Bq - A) * (T - tau)
                + (D - (Bq - A)) * T + (Pq - D * T) + (S - (A + Pq)))
    by (unfold lerpQ; ring).
  rewrite Hid.
  set (x1 := (A - a) * (1 - tau) + (Bq - b) * tau) in *.
  set (x2 := (Bq - A) * (T - tau)) in *.
  set (x3 := (D - (Bq - A)) * T) in *.
  set (x4 := Pq - D * T) in *.
  set (x5 := S - (A + Pq)) in *.
  apply Qabs_le_iff in H1, H2, H3, Hp1, Hs1. apply Qabs_le_iff. lra.
Qed.
End Lerp.

Section Curve.
Local Open Scope Q_scope.

Lemma finiteb_finite v : finiteb v = true -> finite v.
Proof.
  unfold finiteb, finite. destruct (Prim2SF v); simpl; intros; try exact I; discriminate.
Qed.

Lemma moderate_spec v :
  moderate v = true -> finite v /\ Qabs (F2Q v) <= 1048576.
Proof.
  unfold moderate. intros [H1 H2]%andb_prop. split.
  - apply finiteb_finite, H1.
  - apply Qle_bool_iff, H2.
Qed.

Lemma nested_bezier c0 c1 c2 c3 t :
  lerpQ (lerpQ (lerpQ c0 c1 t) (lerpQ c1 c2 t) t)
        (lerpQ (lerpQ c1 c2 t) (lerpQ c2 c3 t) t) t
  == bezierQ c0 c1 c2 c3 t.
Proof. unfold lerpQ, bezierQ. ring. Qed.

(** The three rounds of interpolation of [cubicBezierPoint], on one
    coordinate. *)
Lemma bezier_close (c0 c1 c2 c3 t : float) (tau : Q) :
  moderate c0 = true -> moderate c1 = true -> moderate c2 = true ->
  moderate c3 = true -> param_ok t tau = true ->
  let v := lerp (lerp (lerp c0 c1 t) (lerp c1 c2 t) t)
                (lerp (lerp c1 c2 t) (lerp c2 c3 t) t) t in
  finite v /\
  Qabs (F2Q v - bezierQ (F2Q c0) (F2Q c1) (F2Q c2) (F2Q c3) tau) <= 1 # 1000000.
Proof.
  intros [F0 B0]%moderate_spec [F1 B1]%moderate_spec [F2 B2]%moderate_spec
         [F3 B3]%moderate_spec Hp.
  unfold param_ok in Hp.
  apply andb_prop in Hp as [Hp Hd]. apply andb_prop in Hp as [Hp Hu1].
  apply andb_prop in Hp as [Hp Hu0]. apply andb_prop in Hp as [Hp Ht1].
  apply andb_prop in Hp as [Ft Ht0].
  apply finiteb_finite in Ft.
  apply Qle_bool_iff in Hd, Hu1, Hu0, Ht1, Ht0.
  assert (Z0 : forall c, Qabs (F2Q c - F2Q c) <= 0).
  { intros c. assert (E : F2Q c - F2Q c == 0) by ring. rewrite E.
    apply Qle_bool_iff. reflexivity. }
  assert (L1 : forall a b, finite a -> finite b ->
             Qabs (F2Q a) <= 1048576 -> Qabs (F2Q b) <= 1048576 ->
             finite (lerp a b t) /\
             Qabs (F2Q (lerp a b t) - lerpQ (F2Q a) (F2Q b) tau) <= 1 # 67108864 /\
             Qabs (lerpQ (F2Q a) (F2Q b) tau) <= 1048576).
  { intros a b Fa Fb Ba Bb.
    destruct (lerp_close a b t (F2Q a) (F2Q b) tau 0) as [Fl Hl];
      try assumption; try apply Z0; try lra.
    split; [exact Fl|]. split; [lra|]. apply lerpQ_bound; assumption. }
  destruct (L1 c0 c1 F0 F1 B0 B1) as (F01 & H01 & B01).
  destruct (L1 c1 c2 F1 F2 B1 B2) as (F12 & H12 & B12).
  destruct (L1 c2 c3 F2 F3 B2 B3) as (F23 & H23 & B23).
  destruct (lerp_close (lerp c0 c1 t) (lerp c1 c2 t) t _ _ tau (1 # 67108864)
              F01 F12 Ft H01 H12) as [F012 H012]; try assumption; try lra.
  destruct (lerp_close (lerp c1 c2 t) (lerp c2 c3 t) t _ _ tau (1 # 67108864)
              F12 F23 Ft H12 H23) as [F123 H123]; try assumption; try lra.
  assert (B012 := lerpQ_bound _ _ tau _ B01 B12 Hu0 Hu1).
  assert (B123 := lerpQ_bound _ _ tau _ B12 B23 Hu0 Hu1).
  destruct (lerp_close _ _ t _ _ tau ((1 # 67108864) + (1 # 67108864))
              F012 F123 Ft H012 H123) as [Fv Hv]; try assumption; try lra.
  cbv zeta. split; [exact Fv|].
  rewrite nested_bezier in Hv. lra.
Qed.

(** [cubicBezierPoint] at a binary64 parameter is within [1e-6] of the curve
    at the exact parameter that it stands for. *)
Lemma point_near (p0 p1 p2 p3 : Point) (t : float) (tau : Q) :
  small p0 = true -> small p1 = true -> small p2 = true -> small p3 = true ->
  param_ok t tau = true ->
  near (cubicBezierPoint p0 p1 p2 p3 t) (curveAt p0 p1 p2 p3 tau).
Proof.
  unfold small.
  intros [X0 Y0]%andb_prop [X1 Y1]%andb_prop [X2 Y2]%andb_prop
         [X3 Y3]%andb_prop Hp.
  destruct (bezier_close _ _ _ _ t tau X0 X1 X2 X3 Hp) as [Fx Hx].
  destruct (bezier_close _ _ _ _ t tau Y0 Y1 Y2 Y3 Hp) as [Fy Hy].
  unfold near, cubicBezierPoint, curveAt. cbn [x y fst snd].
  repeat split; assumption.
Qed.
End Curve.

(** ** C8: subdivision *)

(** One sub-curve: each of its four points is a point of
    [cubicBezierPoint], at a parameter that is checked by computation. *)
Ltac piece :=
  unfold piece_ok, subCurve, seg_p0, seg_p1, seg_p2, seg_p3;
  cbv zeta; cbn [fst snd];
  (split; [|split; [|split]]); apply point_near; try assumption;
  vm_compute; reflexivity.

(** C8, amended.  For every cubic whose control points have coordinates of
    magnitude [2^20] at most, and for [N] = 1, 2 and 5, [splitCubicBezier]
    returns [N] sub-curves, and the sub-curve [i] (from 0) starts within
    [1e-6] of the point of the curve at [i / N], ends within [1e-6] of its
    point at [(i + 1) / N], and has for control points, within [1e-6], its
    points at one third and at two thirds of that interval.  The curve is the
    exact one, [curveAt]; the sub-curves are the binary64 values that the
    code computes. *)
Theorem C8_subdivision (p0 p1 p2 p3 : Point) :
  small p0 = true -> small p1 = true -> small p2 = true -> small p3 = true ->
  Forall (fun N : nat =>
            let pieces := splitCubicBezier p0 p1 p2 p3 (Num.of_nat N) in
            length pieces = N /\
            forall i s, pieces !! i = Some s -> piece_ok p0 p1 p2 p3 N i s)
         [1; 2; 5]%nat.
Proof.
  intros S0 S1 S2 S3.
  repeat apply List.Forall_cons; try apply List.Forall_nil; cbv beta zeta;
    (split; [reflexivity|]); intros i s H.
  - change (splitCubicBezier p0 p1 p2 p3 (Num.of_nat 1))
      with (map (subCurve p0 p1 p2 p3 (Num.of_nat 1)) (seq 1 1)) in H.
    destruct i as [|i]; [|destruct i; discriminate].
    injection H as <-. piece.
  - change (splitCubicBezier p0 p1 p2 p3 (Num.of_nat 2))
      with (map (subCurve p0 p1 p2 p3 (Num.of_nat 2)) (seq 1 2)) in H.
    destruct i as [|[|i]]; [| |destruct i; discriminate];
      injection H as <-; piece.
  - change (splitCubicBezier p0 p1 p2 p3 (Num.of_nat 5))
      with (map (subCurve p0 p1 p2 p3 (Num.of_nat 5)) (seq 1 5)) in H.
    destruct i as [|[|[|[|[|i]]]]]; [| | | | |destruct i; discriminate];
      injection H as <-; piece.
Qed.

(** A cubic with the control points (0, 0), (10, 20.5), (-30.25, 40) and
    (100, -0.3) has coordinates of magnitude [2^20] at most. *)
Lemma C8_subdivision_witness :
  let p0 := {| x := 0; y := 0 |} in
  let p1 := {| x := 10; y := 20.5 |} in
  let p2 := {| x := -30.25; y := 40 |} in
  let p3 := {| x := 100; y := -0.3 |} in
  Forall (fun N : nat =>
            let pieces := splitCubicBezier p0 p1 p2 p3 (Num.of_nat N) in
            length pieces = N /\
            forall i s, pieces !! i = Some s -> piece_ok p0 p1 p2 p3 N i s)
         [1; 2; 5]%nat.
Proof.
  cbv zeta. apply C8_subdivision; vm_compute; reflexivity.
Defined.

(** C8 as worded fails for large coordinates.  The cubic [steep] has the
    control ordinate [1e12]: split into one part, its sub-curve ends at the
    ordinate 0.300048828125, while the curve at 1 is at the last control
    point, of ordinate 0.3; the two are more than [1e-6] apart.  (The
    difference [0.3 - 1e12] is rounded to a multiple of [2^-13].) *)
Theorem C8_counterexample :
  let '(p0, p1, p2, p3) := steep in
  exists s, splitCubicBezier p0 p1 p2 p3 1 = [s] /\
            y (seg_p3 s) = 0.300048828125%float /\
            ((curveAt p0 p1 p2 p3 1).2 == F2Q 0.3)%Q /\
            (1 # 1000000
             < Qabs (F2Q (y (seg_p3 s)) - (curveAt p0 p1 p2 p3 1).2))%Q /\
            ~ piece_ok p0 p1 p2 p3 1 0 s.
Proof.
  cbv beta iota delta [steep].
  eexists. split; [vm_compute; reflexivity|].
  split; [vm_compute; reflexivity|].
  split; [vm_compute; reflexivity|].
  assert (H : (1 # 1000000
               < Qabs (F2Q 0.300048828125
                       - (curveAt {| x := 0; y := 0 |} {| x := 0; y := 0 |}
                            {| x := 0; y := 1e12 |} {| x := 1; y := 0.3 |}
                            1).2))%Q)
    by (vm_compute; reflexivity).
  split; [exact H|].
  intros (_ & _ & _ & _ & _ & _ & Hy). cbn [seg_p3 snd y] in Hy.
  revert H. apply Qle_not_lt.
  assert (E : toQ 1 0 = 1%Q) by reflexivity. rewrite E in Hy. exact Hy.
Qed.
